(** * A chunked voxel volume: storage, edits, meshing, raycasting, generation

    Shallow embedding of [sketches/marching-cubes/src/engine.cpp].

    Conventions of the embedding.
    - [int] values are integers of [Z]; signed arithmetic is written exactly
      (signed overflow is undefined in C++, the statements stay inside the
      range where it does not occur).
    - [size_t] is the 32-bit unsigned type of the emscripten (wasm32) target;
      its arithmetic wraps modulo [2^32] and the wrap is written out.
    - [uint8_t] values are integers in [0, 255].
    - [float] is IEEE-754 binary32, round to nearest even, through the
      Standard Library's [SpecFloat] at precision 24 and [emax] 128.
    - Arrays are lists read with [!!] and written with [<[ _ := _ ]>]; an
      access outside an array is undefined behaviour in C++ and makes the
      embedded function return [None].
    - A [VoxelChunk*] that points into a world is the index of the chunk in
      the world's chunk array. *)

From Stdlib Require Import ZArith List Bool Lia.
From Stdlib Require Import Floats.SpecFloat.
From Stdlib Require FMapPositive.
From stdpp Require Import base option list.

Open Scope Z_scope.

(** ** Machine integers *)

Definition SIZE_BITS : Z := 32.

(** Reduction of an integer to [size_t]: unsigned arithmetic modulo [2^32]. *)
Definition size_wrap (n : Z) : Z := n mod 2 ^ SIZE_BITS.

(** [static_cast<size_t>(i)] for an [int] i. *)
Definition to_size_t (i : Z) : Z := size_wrap i.

(** [static_cast<int>(n)] for a [size_t] n (two's complement). *)
Definition to_int (n : Z) : Z := (n + 2 ^ 31) mod 2 ^ 32 - 2 ^ 31.

Definition size_add (a b : Z) : Z := size_wrap (a + b).
Definition size_mul (a b : Z) : Z := size_wrap (a * b).

Definition is_uint8 (v : Z) : Prop := 0 <= v <= 255.

(** ** Constants *)

Definition CHUNK_BITS : Z := 4.
Definition CHUNK_SIZE : Z := Z.shiftl 1 CHUNK_BITS.
Definition CHUNK_MASK : Z := CHUNK_SIZE - 1.
Definition CHUNK_VOXELS : Z := CHUNK_SIZE * CHUNK_SIZE * CHUNK_SIZE.
Definition ISOLEVEL : Z := 128.

(** ** Coordinate mapping *)

Record ChunkBounds := mkChunkBounds {
  xmin : Z; xmax : Z;
  ymin : Z; ymax : Z;
  zmin : Z; zmax : Z
}.

(** The early [return false] is [None]; [outIndex] is the [Some] payload. *)
Definition chunkCoordinateToIndex (x y z : Z) (bounds : ChunkBounds) : option Z :=
  if (x <? xmin bounds) || (x >? xmax bounds)
     || (y <? ymin bounds) || (y >? ymax bounds)
     || (z <? zmin bounds) || (z >? zmax bounds)
  then None
  else
    let ys := to_size_t (ymax bounds - ymin bounds + 1) in
    let zs := to_size_t (zmax bounds - zmin bounds + 1) in
    let ox := to_size_t (x - xmin bounds) in
    let oy := to_size_t (y - ymin bounds) in
    let oz := to_size_t (z - zmin bounds) in
    Some (size_add (size_mul (size_add (size_mul ox ys) oy) zs) oz).

(** Unsigned division; a zero [plane] or [zs] (undefined in C++) follows
    [Z.div], which yields 0. *)
Definition chunkIndexToCoordinate (index : Z) (bounds : ChunkBounds) : Z * Z * Z :=
  let ys := to_size_t (ymax bounds - ymin bounds + 1) in
  let zs := to_size_t (zmax bounds - zmin bounds + 1) in
  let plane := size_mul ys zs in
  let ox := index / plane in
  let rem := index mod plane in
  let oy := rem / zs in
  let oz := rem mod zs in
  (to_int ox + xmin bounds, to_int oy + ymin bounds, to_int oz + zmin bounds).

Definition worldPositionToChunkCoordinates (wx wy wz : Z) : Z * Z * Z :=
  (Z.shiftr wx CHUNK_BITS, Z.shiftr wy CHUNK_BITS, Z.shiftr wz CHUNK_BITS).

Definition worldPositionToChunkPosition (wx wy wz : Z) : Z * Z * Z :=
  (Z.land wx CHUNK_MASK, Z.land wy CHUNK_MASK, Z.land wz CHUNK_MASK).

Definition getVoxelIndex (lx ly lz : Z) : Z :=
  size_add (size_add (to_size_t lx) (size_mul (to_size_t lz) CHUNK_SIZE))
           (size_mul (size_mul (to_size_t ly) CHUNK_SIZE) CHUNK_SIZE).

(** ** Chunks and worlds *)

Record VoxelChunk := mkVoxelChunk {
  chunk_id : Z;
  chunk_x : Z;
  chunk_y : Z;
  chunk_z : Z;
  chunk_value : list Z;     (* uint8_t value[CHUNK_VOXELS] *)
  chunk_color : list Z;     (* uint8_t color[CHUNK_VOXELS * 3] *)
  chunk_sum : Z;
  chunk_dirtyMesh : bool
}.

Record Voxels := mkVoxels {
  bounds : ChunkBounds;
  chunks : list VoxelChunk
}.

Definition set_value (c : VoxelChunk) (v : list Z) : VoxelChunk :=
  mkVoxelChunk (chunk_id c) (chunk_x c) (chunk_y c) (chunk_z c)
               v (chunk_color c) (chunk_sum c) (chunk_dirtyMesh c).

Definition set_color (c : VoxelChunk) (k : list Z) : VoxelChunk :=
  mkVoxelChunk (chunk_id c) (chunk_x c) (chunk_y c) (chunk_z c)
               (chunk_value c) k (chunk_sum c) (chunk_dirtyMesh c).

Definition set_sum (c : VoxelChunk) (s : Z) : VoxelChunk :=
  mkVoxelChunk (chunk_id c) (chunk_x c) (chunk_y c) (chunk_z c)
               (chunk_value c) (chunk_color c) s (chunk_dirtyMesh c).

Definition set_dirtyMesh (c : VoxelChunk) (d : bool) : VoxelChunk :=
  mkVoxelChunk (chunk_id c) (chunk_x c) (chunk_y c) (chunk_z c)
               (chunk_value c) (chunk_color c) (chunk_sum c) d.

(** [world->chunks[i] = c] (the chunk object behind the pointer is replaced). *)
Definition set_chunk (world : Voxels) (i : Z) (c : VoxelChunk) : Voxels :=
  mkVoxels (bounds world) (<[Z.to_nat i := c]> (chunks world)).

(** Array read [a[i]]; [None] outside the array. *)
Definition aget {A} (a : list A) (i : Z) : option A :=
  if i <? 0 then None else a !! Z.to_nat i.

(** Array write [a[i] = v]; [None] outside the array. *)
Definition aset {A} (a : list A) (i : Z) (v : A) : option (list A) :=
  if (0 <=? i) && (i <? Z.of_nat (length a))
  then Some (<[Z.to_nat i := v]> a) else None.

(** The chunk created by one iteration of the loop of [initVoxels]. *)
Definition newChunk (i : Z) (b : ChunkBounds) : VoxelChunk :=
  let '(cx, cy, cz) := chunkIndexToCoordinate i b in
  mkVoxelChunk (to_int i) cx cy cz
               (replicate (Z.to_nat CHUNK_VOXELS) 0)
               (replicate (Z.to_nat (CHUNK_VOXELS * 3)) 0)
               0 false.

Definition totalChunks (b : ChunkBounds) : Z :=
  size_mul (size_mul (to_size_t (xmax b - xmin b + 1))
                     (to_size_t (ymax b - ymin b + 1)))
           (to_size_t (zmax b - zmin b + 1)).

Definition initVoxels (chunkXMin chunkXMax chunkYMin chunkYMax chunkZMin chunkZMax : Z)
  : Voxels :=
  let b := mkChunkBounds chunkXMin chunkXMax chunkYMin chunkYMax chunkZMin chunkZMax in
  mkVoxels b ((fun i : nat => newChunk (Z.of_nat i) b)
                <$> seq 0 (Z.to_nat (totalChunks b))).

Definition markChunkDirty (world : Voxels) (cx cy cz : Z) : option Voxels :=
  match chunkCoordinateToIndex cx cy cz (bounds world) with
  | Some chunkIndex =>
      chunk ← aget (chunks world) chunkIndex;
      Some (set_chunk world chunkIndex (set_dirtyMesh chunk true))
  | None => Some world
  end.

(** [if (c) markChunkDirty(world, cx, cy, cz);] *)
Definition markIf (c : bool) (cx cy cz : Z) (world : Voxels) : option Voxels :=
  if c then markChunkDirty world cx cy cz else Some world.

(** [if (c1) mark(p1) else if (c2) mark(p2)] *)
Definition markIfElse (c1 : bool) (p1 : Z * Z * Z) (c2 : bool) (p2 : Z * Z * Z)
           (world : Voxels) : option Voxels :=
  if c1 then let '(a, b, c) := p1 in markChunkDirty world a b c
  else if c2 then let '(a, b, c) := p2 in markChunkDirty world a b c
  else Some world.

(** The second half of [setVoxel]: the boundary checks that mark the
    neighbouring chunks, in source order. [(lx, ly, lz)] is the local offset
    and [(cx, cy, cz)] the chunk of the edited voxel. *)
Definition propagateDirty (lx ly lz cx cy cz : Z) (w : Voxels) : option Voxels :=
  let lo := 0 in
  let hi := CHUNK_SIZE - 1 in
  (* X, Y, Z boundaries *)
  w ← markIfElse (lx =? lo) (cx - 1, cy, cz) (lx =? hi) (cx + 1, cy, cz) w;
  w ← markIfElse (ly =? lo) (cx, cy - 1, cz) (ly =? hi) (cx, cy + 1, cz) w;
  w ← markIfElse (lz =? lo) (cx, cy, cz - 1) (lz =? hi) (cx, cy, cz + 1) w;
  (* XY edges *)
  w ← markIf ((lx =? lo) && (ly =? lo)) (cx - 1) (cy - 1) cz w;
  w ← markIf ((lx =? lo) && (ly =? hi)) (cx - 1) (cy + 1) cz w;
  w ← markIf ((lx =? hi) && (ly =? lo)) (cx + 1) (cy - 1) cz w;
  w ← markIf ((lx =? hi) && (ly =? hi)) (cx + 1) (cy + 1) cz w;
  (* XZ edges *)
  w ← markIf ((lx =? lo) && (lz =? lo)) (cx - 1) cy (cz - 1) w;
  w ← markIf ((lx =? lo) && (lz =? hi)) (cx - 1) cy (cz + 1) w;
  w ← markIf ((lx =? hi) && (lz =? lo)) (cx + 1) cy (cz - 1) w;
  w ← markIf ((lx =? hi) && (lz =? hi)) (cx + 1) cy (cz + 1) w;
  (* YZ edges *)
  w ← markIf ((ly =? lo) && (lz =? lo)) cx (cy - 1) (cz - 1) w;
  w ← markIf ((ly =? lo) && (lz =? hi)) cx (cy - 1) (cz + 1) w;
  w ← markIf ((ly =? hi) && (lz =? lo)) cx (cy + 1) (cz - 1) w;
  w ← markIf ((ly =? hi) && (lz =? hi)) cx (cy + 1) (cz + 1) w;
  (* the 8 corners *)
  w ← markIf ((lx =? lo) && (ly =? lo) && (lz =? lo)) (cx - 1) (cy - 1) (cz - 1) w;
  w ← markIf ((lx =? lo) && (ly =? lo) && (lz =? hi)) (cx - 1) (cy - 1) (cz + 1) w;
  w ← markIf ((lx =? lo) && (ly =? hi) && (lz =? lo)) (cx - 1) (cy + 1) (cz - 1) w;
  w ← markIf ((lx =? lo) && (ly =? hi) && (lz =? hi)) (cx - 1) (cy + 1) (cz + 1) w;
  w ← markIf ((lx =? hi) && (ly =? lo) && (lz =? lo)) (cx + 1) (cy - 1) (cz - 1) w;
  w ← markIf ((lx =? hi) && (ly =? lo) && (lz =? hi)) (cx + 1) (cy - 1) (cz + 1) w;
  w ← markIf ((lx =? hi) && (ly =? hi) && (lz =? lo)) (cx + 1) (cy + 1) (cz - 1) w;
  markIf ((lx =? hi) && (ly =? hi) && (lz =? hi)) (cx + 1) (cy + 1) (cz + 1) w.

Definition setVoxel (world : Voxels) (wx wy wz : Z) (value r g b : Z) : option Voxels :=
  let '(cx, cy, cz) := worldPositionToChunkCoordinates wx wy wz in
  let '(lx, ly, lz) := worldPositionToChunkPosition wx wy wz in
  match chunkCoordinateToIndex cx cy cz (bounds world) with
  | None => Some world   (* writing outside allocated world bounds: ignore *)
  | Some chunkIndex =>
      chunk ← aget (chunks world) chunkIndex;
      let voxelIndex := getVoxelIndex lx ly lz in
      prevValue ← aget (chunk_value chunk) voxelIndex;
      vals ← aset (chunk_value chunk) voxelIndex value;
      col0 ← aset (chunk_color chunk) (voxelIndex * 3 + 0) r;
      col1 ← aset col0 (voxelIndex * 3 + 1) g;
      col2 ← aset col1 (voxelIndex * 3 + 2) b;
      let chunk1 := set_color (set_value chunk vals) col2 in
      let chunk2 := set_sum chunk1 (chunk_sum chunk1 + (value - prevValue)) in
      let chunk3 := set_dirtyMesh chunk2 true in
      propagateDirty lx ly lz cx cy cz (set_chunk world chunkIndex chunk3)
  end.

(** The four out-parameters are the result tuple [(value, r, g, b)]. *)
Definition getVoxel (voxels : Voxels) (x y z : Z) : option (Z * Z * Z * Z) :=
  let '(cx, cy, cz) := worldPositionToChunkCoordinates x y z in
  let '(lx, ly, lz) := worldPositionToChunkPosition x y z in
  match chunkCoordinateToIndex cx cy cz (bounds voxels) with
  | None => Some (0, 0, 0, 0)   (* outside world bounds: default sample *)
  | Some chunkIndex =>
      chunk ← aget (chunks voxels) chunkIndex;
      let voxelIndex := getVoxelIndex lx ly lz in
      value ← aget (chunk_value chunk) voxelIndex;
      r ← aget (chunk_color chunk) (voxelIndex * 3 + 0);
      g ← aget (chunk_color chunk) (voxelIndex * 3 + 1);
      b ← aget (chunk_color chunk) (voxelIndex * 3 + 2);
      Some (value, r, g, b)
  end.

Definition getVoxelRelative (voxels : Voxels) (chunk : VoxelChunk) (lx ly lz : Z)
  : option (Z * Z * Z * Z) :=
  if (lx >=? 0) && (lx <? CHUNK_SIZE) && (ly >=? 0) && (ly <? CHUNK_SIZE)
     && (lz >=? 0) && (lz <? CHUNK_SIZE)
  then
    let voxelIndex := getVoxelIndex lx ly lz in
    value ← aget (chunk_value chunk) voxelIndex;
    r ← aget (chunk_color chunk) (voxelIndex * 3 + 0);
    g ← aget (chunk_color chunk) (voxelIndex * 3 + 1);
    b ← aget (chunk_color chunk) (voxelIndex * 3 + 2);
    Some (value, r, g, b)
  else
    let wx := Z.shiftl (chunk_x chunk) CHUNK_BITS + lx in
    let wy := Z.shiftl (chunk_y chunk) CHUNK_BITS + ly in
    let wz := Z.shiftl (chunk_z chunk) CHUNK_BITS + lz in
    getVoxel voxels wx wy wz.

(** A [VoxelChunk*] into the world is the chunk's index; [nullptr] is [None]. *)
Definition getChunkAt (world : Voxels) (cx cy cz : Z) : option Z :=
  chunkCoordinateToIndex cx cy cz (bounds world).

Definition getChunkAtPos (world : Voxels) (wx wy wz : Z) : option Z :=
  let '(cx, cy, cz) := worldPositionToChunkCoordinates wx wy wz in
  getChunkAt world cx cy cz.

(** The loop [for i < CHUNK_VOXELS: s += value[i]]; [None] if the array is
    shorter than [CHUNK_VOXELS]. *)
Fixpoint sumValues (n : nat) (i : Z) (vals : list Z) (s : Z) : option Z :=
  match n with
  | O => Some s
  | S n' => v ← aget vals i; sumValues n' (i + 1) vals (s + v)
  end.

(** Returns the sum together with the chunk whose [sum] field was set. *)
Definition recomputeChunkSum (chunk : VoxelChunk) : option (Z * VoxelChunk) :=
  s ← sumValues (Z.to_nat CHUNK_VOXELS) 0 (chunk_value chunk) 0;
  Some (s, set_sum chunk s).

Definition isChunkDirty (chunk : VoxelChunk) : bool := chunk_dirtyMesh chunk.
Definition setChunkDirty (chunk : VoxelChunk) (dirty : bool) : VoxelChunk :=
  set_dirtyMesh chunk dirty.
Definition clearChunkDirty (chunk : VoxelChunk) : VoxelChunk :=
  set_dirtyMesh chunk false.

(** ** IEEE-754 binary32 arithmetic

    The operations of [float] as the Standard Library specifies them
    ([SpecFloat], borrowed from Flocq), instantiated at binary32. Each C++
    operator is one correctly rounded operation; nothing is fused. *)

Module F32.

Definition prec : Z := 24.
Definition emax : Z := 128.

Definition t : Type := spec_float.

Definition add : t -> t -> t := SFadd prec emax.
Definition sub : t -> t -> t := SFsub prec emax.
Definition mul : t -> t -> t := SFmul prec emax.
Definition div : t -> t -> t := SFdiv prec emax.
Definition sqrt : t -> t := SFsqrt prec emax.
Definition neg : t -> t := SFopp.
Definition abs : t -> t := SFabs.

(** [static_cast<float>(i)]: the nearest binary32 to an integer. *)
Definition of_int (i : Z) : t := binary_normalize prec emax i 0 false.

(** The literal [n/d] written in decimal in the source: for operands that
    binary32 holds exactly, the correctly rounded quotient is the nearest
    binary32 to the decimal, which is what the compiler produces. *)
Definition lit (n d : Z) : t := div (of_int n) (of_int d).

Definition zero : t := S754_zero false.
Definition one : t := of_int 1.
Definition half : t := lit 1 2.

(** [std::numeric_limits<float>::max()] *)
Definition FLT_MAX : t := SFmax_float prec emax.

(** Comparisons are false on NaN, except [!=]. *)
Definition ltb (a b : t) : bool := SFltb a b.
Definition leb (a b : t) : bool := SFleb a b.
Definition gtb (a b : t) : bool := SFltb b a.
Definition geb (a b : t) : bool := SFleb b a.
Definition eqb (a b : t) : bool := SFeqb a b.
Definition neb (a b : t) : bool := negb (SFeqb a b).

(** [std::min(a, b)] is [(b < a) ? b : a]; [std::max(a, b)] is
    [(a < b) ? b : a]. *)
Definition min (a b : t) : t := if ltb b a then b else a.
Definition max (a b : t) : t := if ltb a b then b else a.

(** [std::min({a, b, c})]: the first smallest element. *)
Definition min3 (a b c : t) : t :=
  let m := if ltb b a then b else a in
  if ltb c m then c else m.

(** The integer [floor x] of a finite [x]; 0 for infinities and NaN, where
    the conversion to [int] is undefined. *)
Definition floorZ (x : t) : Z :=
  match x with
  | S754_finite s m e =>
      let v := if s then Z.neg m else Z.pos m in
      if 0 <=? e then Z.shiftl v e else Z.shiftr v (- e)
  | _ => 0
  end.

(** [std::floor(x)] *)
Definition floor (x : t) : t :=
  match x with
  | S754_finite s m e =>
      if 0 <=? e then x
      else match floorZ x with
           | 0 => S754_zero s
           | q => of_int q
           end
  | _ => x
  end.

(** Conversion of a float to an integer type: truncation toward zero. *)
Definition truncZ (x : t) : Z :=
  match x with
  | S754_finite s m e =>
      let q := if 0 <=? e then Z.shiftl (Z.pos m) e else Z.shiftr (Z.pos m) (- e) in
      if s then - q else q
  | _ => 0
  end.

Definition is_nan (x : t) : bool :=
  match x with S754_nan => true | _ => false end.

Definition is_finite (x : t) : bool :=
  match x with S754_zero _ | S754_finite _ _ _ => true | _ => false end.

End F32.

Abbreviation f32 := F32.t.

Declare Scope f32_scope.
Delimit Scope f32_scope with f32.
Infix "+" := F32.add : f32_scope.
Infix "-" := F32.sub : f32_scope.
Infix "*" := F32.mul : f32_scope.
Infix "/" := F32.div : f32_scope.
Notation "- x" := (F32.neg x) : f32_scope.
Infix "<?" := F32.ltb : f32_scope.
Infix "<=?" := F32.leb : f32_scope.
Infix ">?" := F32.gtb : f32_scope.
Infix ">=?" := F32.geb : f32_scope.

(** [(uint8_t) x] for a float [x]. *)
Definition to_uint8 (x : f32) : Z := F32.truncZ x mod 256.

(** ** Mesher: samples, interpolation, normals *)

Record Vec3 := mkVec3 { vec_x : f32; vec_y : f32; vec_z : f32 }.

Record Sample := mkSample {
  sample_position : Vec3;
  sample_value : Z;
  sample_r : Z;
  sample_g : Z;
  sample_b : Z
}.

Record EdgePoint := mkEdgePoint {
  edge_position : Vec3;
  edge_r : f32;
  edge_g : f32;
  edge_b : f32
}.

Definition sample (voxels : Voxels) (chunk : VoxelChunk) (x y z : Z) : option Sample :=
  '(value, r, g, b) ← getVoxelRelative voxels chunk x y z;
  Some (mkSample (mkVec3 (F32.of_int x) (F32.of_int y) (F32.of_int z)) value r g b).

(** The local [step] of [interpolate]: the interpolation parameter. *)
Definition interpolateStep (a_value b_value : Z) : f32 :=
  if b_value =? a_value then F32.half
  else
    let step := ((F32.of_int ISOLEVEL - F32.of_int a_value)
                 / (F32.of_int b_value - F32.of_int a_value))%f32 in
    let step := if (step <? F32.zero)%f32 then F32.zero else step in
    let step := if (step >? F32.one)%f32 then F32.one else step in
    step.

(** [p + step * (q - p)] *)
Definition lerp (step p q : f32) : f32 := (p + step * (q - p))%f32.

Section Interpolate.

(** The 256-entry sRGB-to-linear table. Its static initializer calls
    [pow], which has no bit-exact specification, so the table is a
    parameter of the mesher. *)
Variable srgbToLinearLUT : Z -> f32.

Definition interpolate (a b : Sample) : EdgePoint :=
  let step := interpolateStep (sample_value a) (sample_value b) in
  let pa := sample_position a in
  let pb := sample_position b in
  let position := mkVec3 (lerp step (vec_x pa) (vec_x pb))
                         (lerp step (vec_y pa) (vec_y pb))
                         (lerp step (vec_z pa) (vec_z pb)) in
  let r1 := srgbToLinearLUT (sample_r a) in
  let g1 := srgbToLinearLUT (sample_g a) in
  let b1 := srgbToLinearLUT (sample_b a) in
  let r2 := srgbToLinearLUT (sample_r b) in
  let g2 := srgbToLinearLUT (sample_g b) in
  let b2 := srgbToLinearLUT (sample_b b) in
  mkEdgePoint position (lerp step r1 r2) (lerp step g1 g2) (lerp step b1 b2).

End Interpolate.

Definition computeNormal (a b c : Vec3) : Vec3 :=
  let cbx := (vec_x c - vec_x b)%f32 in
  let cby := (vec_y c - vec_y b)%f32 in
  let cbz := (vec_z c - vec_z b)%f32 in
  let abx := (vec_x a - vec_x b)%f32 in
  let aby := (vec_y a - vec_y b)%f32 in
  let abz := (vec_z a - vec_z b)%f32 in
  let nx := (cby * abz - cbz * aby)%f32 in
  let ny := (cbz * abx - cbx * abz)%f32 in
  let nz := (cbx * aby - cby * abx)%f32 in
  let lengthSq := (nx * nx + ny * ny + nz * nz)%f32 in
  if (lengthSq <? F32.lit 1 100000000)%f32 then
    mkVec3 F32.zero F32.one F32.zero
  else
    let invLength := (F32.one / F32.sqrt lengthSq)%f32 in
    mkVec3 (nx * invLength)%f32 (ny * invLength)%f32 (nz * invLength)%f32.

(** ** Mesher: memory and the marching-cubes loop *)

Record ChunkGeometry := mkChunkGeometry {
  positions : list f32;
  positionsCapacity : Z;
  positionsCount : Z;
  normals : list f32;
  normalsCapacity : Z;
  normalsCount : Z;
  colors : list f32;
  colorsCapacity : Z;
  colorsCount : Z
}.

Definition VERTICES_PER_VOXEL_WORST : Z := 15.
Definition POS_COMPONENTS : Z := 3.
Definition NORMAL_COMPONENTS : Z := 3.
Definition COLOR_COMPONENTS : Z := 3.
Definition CHUNK_GEOMETRY_WORST_CASE_VERTICES : Z :=
  size_mul (to_size_t CHUNK_VOXELS) (to_size_t VERTICES_PER_VOXEL_WORST).
Definition CHUNK_GEOMETRY_WORST_CASE_POSITIONS_COMPONENTS : Z :=
  size_mul CHUNK_GEOMETRY_WORST_CASE_VERTICES POS_COMPONENTS.
Definition CHUNK_GEOMETRY_WORST_CASE_NORMALS_COMPONENTS : Z :=
  size_mul CHUNK_GEOMETRY_WORST_CASE_VERTICES NORMAL_COMPONENTS.
Definition CHUNK_GEOMETRY_WORST_CASE_COLORS_COMPONENTS : Z :=
  size_mul CHUNK_GEOMETRY_WORST_CASE_VERTICES COLOR_COMPONENTS.

(** [new float[n]] leaves the elements indeterminate; they are zero here. *)
Definition allocateChunkGeometry : ChunkGeometry :=
  mkChunkGeometry
    (replicate (Z.to_nat CHUNK_GEOMETRY_WORST_CASE_POSITIONS_COMPONENTS) F32.zero)
    CHUNK_GEOMETRY_WORST_CASE_POSITIONS_COMPONENTS 0
    (replicate (Z.to_nat CHUNK_GEOMETRY_WORST_CASE_NORMALS_COMPONENTS) F32.zero)
    CHUNK_GEOMETRY_WORST_CASE_NORMALS_COMPONENTS 0
    (replicate (Z.to_nat CHUNK_GEOMETRY_WORST_CASE_COLORS_COMPONENTS) F32.zero)
    CHUNK_GEOMETRY_WORST_CASE_COLORS_COMPONENTS 0.

Definition SAMPLE_GRID_SIZE : Z := CHUNK_SIZE + 1.

(** [values[ly][lz][lx]] and [colors[ly][lz][lx][k]], stored row-major. *)
Record SampleGrid := mkSampleGrid {
  grid_values : list Z;
  grid_colors : list Z
}.

Definition gridIndex (ly lz lx : Z) : Z :=
  (ly * SAMPLE_GRID_SIZE + lz) * SAMPLE_GRID_SIZE + lx.

(** What [mesh] can reach: the world behind [voxels], the geometry behind
    [out], and the three file-scope scratch buffers. *)
Record Memory := mkMemory {
  mem_world : Voxels;
  mem_out : ChunkGeometry;
  mem_samples : list Sample;         (* Sample samples[8] *)
  mem_edgePoints : list EdgePoint;   (* EdgePoint edgePoints[12] *)
  mem_gridBuffer : SampleGrid        (* static SampleGrid gridBuffer *)
}.

(** State and failure: a computation reads and writes [Memory] and stops
    with [None] on an access outside an array. *)
Definition M (A : Type) : Type := Memory -> option (A * Memory).

Definition ret {A} (a : A) : M A := fun m => Some (a, m).

Definition bind {A B} (c : M A) (k : A -> M B) : M B :=
  fun m => match c m with
           | Some (a, m') => k a m'
           | None => None
           end.

#[global] Instance M_ret : MRet M := @ret.
#[global] Instance M_bind : MBind M := fun A B k c => bind c k.

Definition liftOpt {A} (o : option A) : M A :=
  fun m => match o with Some a => Some (a, m) | None => None end.

Definition readWorld : M Voxels := fun m => Some (mem_world m, m).
Definition readSamples : M (list Sample) := fun m => Some (mem_samples m, m).
Definition readEdgePoints : M (list EdgePoint) := fun m => Some (mem_edgePoints m, m).
Definition readGrid : M SampleGrid := fun m => Some (mem_gridBuffer m, m).
Definition readOut : M ChunkGeometry := fun m => Some (mem_out m, m).

Definition writeOut (g : ChunkGeometry) : M unit :=
  fun m => Some (tt, mkMemory (mem_world m) g (mem_samples m) (mem_edgePoints m)
                              (mem_gridBuffer m)).
Definition writeSamples (s : list Sample) : M unit :=
  fun m => Some (tt, mkMemory (mem_world m) (mem_out m) s (mem_edgePoints m)
                              (mem_gridBuffer m)).
Definition writeEdgePoints (e : list EdgePoint) : M unit :=
  fun m => Some (tt, mkMemory (mem_world m) (mem_out m) (mem_samples m) e
                              (mem_gridBuffer m)).
Definition writeGrid (g : SampleGrid) : M unit :=
  fun m => Some (tt, mkMemory (mem_world m) (mem_out m) (mem_samples m)
                              (mem_edgePoints m) g).

(** [for (int i = lo; i < lo + n; i++) body(i)] *)
Fixpoint forLoop (n : nat) (i : Z) (body : Z -> M unit) : M unit :=
  match n with
  | O => ret tt
  | S n' => bind (body i) (fun _ => forLoop n' (i + 1) body)
  end.

Definition forRange (hi : Z) (body : Z -> M unit) : M unit :=
  forLoop (Z.to_nat hi) 0 body.

Definition resetCounts : M unit :=
  g ← readOut;
  writeOut (mkChunkGeometry (positions g) (positionsCapacity g) 0
                            (normals g) (normalsCapacity g) 0
                            (colors g) (colorsCapacity g) 0).

(** [out->positions[out->positionsCount++] = v] *)
Definition pushPosition (v : f32) : M unit :=
  g ← readOut;
  ps ← liftOpt (aset (positions g) (positionsCount g) v);
  writeOut (mkChunkGeometry ps (positionsCapacity g) (size_add (positionsCount g) 1)
                            (normals g) (normalsCapacity g) (normalsCount g)
                            (colors g) (colorsCapacity g) (colorsCount g)).

Definition pushNormal (v : f32) : M unit :=
  g ← readOut;
  ns ← liftOpt (aset (normals g) (normalsCount g) v);
  writeOut (mkChunkGeometry (positions g) (positionsCapacity g) (positionsCount g)
                            ns (normalsCapacity g) (size_add (normalsCount g) 1)
                            (colors g) (colorsCapacity g) (colorsCount g)).

Definition pushColor (v : f32) : M unit :=
  g ← readOut;
  cs ← liftOpt (aset (colors g) (colorsCount g) v);
  writeOut (mkChunkGeometry (positions g) (positionsCapacity g) (positionsCount g)
                            (normals g) (normalsCapacity g) (normalsCount g)
                            cs (colorsCapacity g) (size_add (colorsCount g) 1)).

Definition pushVec3 (push : f32 -> M unit) (v : Vec3) : M unit :=
  _ ← push (vec_x v); _ ← push (vec_y v); push (vec_z v).

(** One iteration of the pre-sampling loop. [chunk] is the index of the
    chunk in the world. *)
Definition presample (chunk : Z) (ly lz lx : Z) : M unit :=
  w ← readWorld;
  c ← liftOpt (aget (chunks w) chunk);
  s ← liftOpt (getVoxelRelative w c lx ly lz);
  let '(value, r, g, b) := s in
  grid ← readGrid;
  let k := gridIndex ly lz lx in
  vs ← liftOpt (aset (grid_values grid) k value);
  c0 ← liftOpt (aset (grid_colors grid) (k * 3 + 0) r);
  c1 ← liftOpt (aset c0 (k * 3 + 1) g);
  c2 ← liftOpt (aset c1 (k * 3 + 2) b);
  writeGrid (mkSampleGrid vs c2).

(** [samples[n]] is filled from the grid at corner [(x, y, z)]. *)
Definition loadSample (n : Z) (x y z : Z) : M unit :=
  grid ← readGrid;
  let k := gridIndex y z x in
  value ← liftOpt (aget (grid_values grid) k);
  r ← liftOpt (aget (grid_colors grid) (k * 3 + 0));
  g ← liftOpt (aget (grid_colors grid) (k * 3 + 1));
  b ← liftOpt (aget (grid_colors grid) (k * 3 + 2));
  ss ← readSamples;
  ss' ← liftOpt (aset ss n (mkSample (mkVec3 (F32.of_int x) (F32.of_int y) (F32.of_int z))
                                     value r g b));
  writeSamples ss'.

Definition cubeIndexOf (ss : list Sample) : option Z :=
  s0 ← aget ss 0; s1 ← aget ss 1; s2 ← aget ss 2; s3 ← aget ss 3;
  s4 ← aget ss 4; s5 ← aget ss 5; s6 ← aget ss 6; s7 ← aget ss 7;
  let bit (s : Sample) (k : Z) := Z.shiftl (Z.b2z (sample_value s >=? ISOLEVEL)) k in
  Some (Z.lor (Z.lor (Z.lor (Z.lor (Z.lor (Z.lor (Z.lor
          (bit s0 0) (bit s1 1)) (bit s2 2)) (bit s3 3))
          (bit s4 4)) (bit s5 5)) (bit s6 6)) (bit s7 7)).

(** The standard Lorensen-Cline tables, as the source lists them. *)
Definition edgeTable : list Z := [
  0; 265; 515; 778; 1030; 1295; 1541; 1804;
  2060; 2309; 2575; 2822; 3082; 3331; 3593; 3840;
  400; 153; 915; 666; 1430; 1183; 1941; 1692;
  2460; 2197; 2975; 2710; 3482; 3219; 3993; 3728;
  560; 825; 51; 314; 1590; 1855; 1077; 1340;
  2620; 2869; 2111; 2358; 3642; 3891; 3129; 3376;
  928; 681; 419; 170; 1958; 1711; 1445; 1196;
  2988; 2725; 2479; 2214; 4010; 3747; 3497; 3232;
  1120; 1385; 1635; 1898; 102; 367; 613; 876;
  3180; 3429; 3695; 3942; 2154; 2403; 2665; 2912;
  1520; 1273; 2035; 1786; 502; 255; 1013; 764;
  3580; 3317; 4095; 3830; 2554; 2291; 3065; 2800;
  1616; 1881; 1107; 1370; 598; 863; 85; 348;
  3676; 3925; 3167; 3414; 2650; 2899; 2137; 2384;
  1984; 1737; 1475; 1226; 966; 719; 453; 204;
  4044; 3781; 3535; 3270; 3018; 2755; 2505; 2240;
  2240; 2505; 2755; 3018; 3270; 3535; 3781; 4044;
  204; 453; 719; 966; 1226; 1475; 1737; 1984;
  2384; 2137; 2899; 2650; 3414; 3167; 3925; 3676;
  348; 85; 863; 598; 1370; 1107; 1881; 1616;
  2800; 3065; 2291; 2554; 3830; 4095; 3317; 3580;
  764; 1013; 255; 502; 1786; 2035; 1273; 1520;
  2912; 2665; 2403; 2154; 3942; 3695; 3429; 3180;
  876; 613; 367; 102; 1898; 1635; 1385; 1120;
  3232; 3497; 3747; 4010; 2214; 2479; 2725; 2988;
  1196; 1445; 1711; 1958; 170; 419; 681; 928;
  3376; 3129; 3891; 3642; 2358; 2111; 2869; 2620;
  1340; 1077; 1855; 1590; 314; 51; 825; 560;
  3728; 3993; 3219; 3482; 2710; 2975; 2197; 2460;
  1692; 1941; 1183; 1430; 666; 915; 153; 400;
  3840; 3593; 3331; 3082; 2822; 2575; 2309; 2060;
  1804; 1541; 1295; 1030; 778; 515; 265; 0
].

Definition triTable : list (list Z) := [
  [-1; -1; -1; -1; -1; -1; -1; -1; -1; -1; -1; -1; -1; -1; -1; -1];
  [0; 8; 3; -1; -1; -1; -1; -1; -1; -1; -1; -1; -1; -1; -1; -1];
  [0; 1; 9; -1; -1; -1; -1; -1; -1; -1; -1; -1; -1; -1; -1; -1];
  [1; 8; 3; 9; 8; 1; -1; -1; -1; -1; -1; -1; -1; -1; -1; -1];
  [1; 2; 10; -1; -1; -1; -1; -1; -1; -1; -1; -1; -1; -1; -1; -1];
  [0; 8; 3; 1; 2; 10; -1; -1; -1; -1; -1; -1; -1; -1; -1; -1];
  [9; 2; 10; 0; 2; 9; -1; -1; -1; -1; -1; -1; -1; -1; -1; -1];
  [2; 8; 3; 2; 10; 8; 10; 9; 8; -1; -1; -1; -1; -1; -1; -1];
  [3; 11; 2; -1; -1; -1; -1; -1; -1; -1; -1; -1; -1; -1; -1; -1];
  [0; 11; 2; 8; 11; 0; -1; -1; -1; -1; -1; -1; -1; -1; -1; -1];
  [1; 9; 0; 2; 3; 11; -1; -1; -1; -1; -1; -1; -1; -1; -1; -1];
  [1; 11; 2; 1; 9; 11; 9; 8; 11; -1; -1; -1; -1; -1; -1; -1];
  [3; 10; 1; 11; 10; 3; -1; -1; -1; -1; -1; -1; -1; -1; -1; -1];
  [0; 10; 1; 0; 8; 10; 8; 11; 10; -1; -1; -1; -1; -1; -1; -1];
  [3; 9; 0; 3; 11; 9; 11; 10; 9; -1; -1; -1; -1; -1; -1; -1];
  [9; 8; 10; 10; 8; 11; -1; -1; -1; -1; -1; -1; -1; -1; -1; -1];
  [4; 7; 8; -1; -1; -1; -1; -1; -1; -1; -1; -1; -1; -1; -1; -1];
  [4; 3; 0; 7; 3; 4; -1; -1; -1; -1; -1; -1; -1; -1; -1; -1];
  [0; 1; 9; 8; 4; 7; -1; -1; -1; -1; -1; -1; -1; -1; -1; -1];
  [4; 1; 9; 4; 7; 1; 7; 3; 1; -1; -1; -1; -1; -1; -1; -1];
  [1; 2; 10; 8; 4; 7; -1; -1; -1; -1; -1; -1; -1; -1; -1; -1];
  [3; 4; 7; 3; 0; 4; 1; 2; 10; -1; -1; -1; -1; -1; -1; -1];
  [9; 2; 10; 9; 0; 2; 8; 4; 7; -1; -1; -1; -1; -1; -1; -1];
  [2; 10; 9; 2; 9; 7; 2; 7; 3; 7; 9; 4; -1; -1; -1; -1];
  [8; 4; 7; 3; 11; 2; -1; -1; -1; -1; -1; -1; -1; -1; -1; -1];
  [11; 4; 7; 11; 2; 4; 2; 0; 4; -1; -1; -1; -1; -1; -1; -1];
  [9; 0; 1; 8; 4; 7; 2; 3; 11; -1; -1; -1; -1; -1; -1; -1];
  [4; 7; 11; 9; 4; 11; 9; 11; 2; 9; 2; 1; -1; -1; -1; -1];
  [3; 10; 1; 3; 11; 10; 7; 8; 4; -1; -1; -1; -1; -1; -1; -1];
  [1; 11; 10; 1; 4; 11; 1; 0; 4; 7; 11; 4; -1; -1; -1; -1];
  [4; 7; 8; 9; 0; 11; 9; 11; 10; 11; 0; 3; -1; -1; -1; -1];
  [4; 7; 11; 4; 11; 9; 9; 11; 10; -1; -1; -1; -1; -1; -1; -1];
  [9; 5; 4; -1; -1; -1; -1; -1; -1; -1; -1; -1; -1; -1; -1; -1];
  [9; 5; 4; 0; 8; 3; -1; -1; -1; -1; -1; -1; -1; -1; -1; -1];
  [0; 5; 4; 1; 5; 0; -1; -1; -1; -1; -1; -1; -1; -1; -1; -1];
  [8; 5; 4; 8; 3; 5; 3; 1; 5; -1; -1; -1; -1; -1; -1; -1];
  [1; 2; 10; 9; 5; 4; -1; -1; -1; -1; -1; -1; -1; -1; -1; -1];
  [3; 0; 8; 1; 2; 10; 4; 9; 5; -1; -1; -1; -1; -1; -1; -1];
  [5; 2; 10; 5; 4; 2; 4; 0; 2; -1; -1; -1; -1; -1; -1; -1];
  [2; 10; 5; 3; 2; 5; 3; 5; 4; 3; 4; 8; -1; -1; -1; -1];
  [9; 5; 4; 2; 3; 11; -1; -1; -1; -1; -1; -1; -1; -1; -1; -1];
  [0; 11; 2; 0; 8; 11; 4; 9; 5; -1; -1; -1; -1; -1; -1; -1];
  [0; 5; 4; 0; 1; 5; 2; 3; 11; -1; -1; -1; -1; -1; -1; -1];
  [2; 1; 5; 2; 5; 8; 2; 8; 11; 4; 8; 5; -1; -1; -1; -1];
  [10; 3; 11; 10; 1; 3; 9; 5; 4; -1; -1; -1; -1; -1; -1; -1];
  [4; 9; 5; 0; 8; 1; 8; 10; 1; 8; 11; 10; -1; -1; -1; -1];
  [5; 4; 0; 5; 0; 11; 5; 11; 10; 11; 0; 3; -1; -1; -1; -1];
  [5; 4; 8; 5; 8; 10; 10; 8; 11; -1; -1; -1; -1; -1; -1; -1];
  [9; 7; 8; 5; 7; 9; -1; -1; -1; -1; -1; -1; -1; -1; -1; -1];
  [9; 3; 0; 9; 5; 3; 5; 7; 3; -1; -1; -1; -1; -1; -1; -1];
  [0; 7; 8; 0; 1; 7; 1; 5; 7; -1; -1; -1; -1; -1; -1; -1];
  [1; 5; 3; 3; 5; 7; -1; -1; -1; -1; -1; -1; -1; -1; -1; -1];
  [9; 7; 8; 9; 5; 7; 10; 1; 2; -1; -1; -1; -1; -1; -1; -1];
  [10; 1; 2; 9; 5; 0; 5; 3; 0; 5; 7; 3; -1; -1; -1; -1];
  [8; 0; 2; 8; 2; 5; 8; 5; 7; 10; 5; 2; -1; -1; -1; -1];
  [2; 10; 5; 2; 5; 3; 3; 5; 7; -1; -1; -1; -1; -1; -1; -1];
  [7; 9; 5; 7; 8; 9; 3; 11; 2; -1; -1; -1; -1; -1; -1; -1];
  [9; 5; 7; 9; 7; 2; 9; 2; 0; 2; 7; 11; -1; -1; -1; -1];
  [2; 3; 11; 0; 1; 8; 1; 7; 8; 1; 5; 7; -1; -1; -1; -1];
  [11; 2; 1; 11; 1; 7; 7; 1; 5; -1; -1; -1; -1; -1; -1; -1];
  [9; 5; 8; 8; 5; 7; 10; 1; 3; 10; 3; 11; -1; -1; -1; -1];
  [5; 7; 0; 5; 0; 9; 7; 11; 0; 1; 0; 10; 11; 10; 0; -1];
  [11; 10; 0; 11; 0; 3; 10; 5; 0; 8; 0; 7; 5; 7; 0; -1];
  [11; 10; 5; 7; 11; 5; -1; -1; -1; -1; -1; -1; -1; -1; -1; -1];
  [10; 6; 5; -1; -1; -1; -1; -1; -1; -1; -1; -1; -1; -1; -1; -1];
  [0; 8; 3; 5; 10; 6; -1; -1; -1; -1; -1; -1; -1; -1; -1; -1];
  [9; 0; 1; 5; 10; 6; -1; -1; -1; -1; -1; -1; -1; -1; -1; -1];
  [1; 8; 3; 1; 9; 8; 5; 10; 6; -1; -1; -1; -1; -1; -1; -1];
  [1; 6; 5; 2; 6; 1; -1; -1; -1; -1; -1; -1; -1; -1; -1; -1];
  [1; 6; 5; 1; 2; 6; 3; 0; 8; -1; -1; -1; -1; -1; -1; -1];
  [9; 6; 5; 9; 0; 6; 0; 2; 6; -1; -1; -1; -1; -1; -1; -1];
  [5; 9; 8; 5; 8; 2; 5; 2; 6; 3; 2; 8; -1; -1; -1; -1];
  [2; 3; 11; 10; 6; 5; -1; -1; -1; -1; -1; -1; -1; -1; -1; -1];
  [11; 0; 8; 11; 2; 0; 10; 6; 5; -1; -1; -1; -1; -1; -1; -1];
  [0; 1; 9; 2; 3; 11; 5; 10; 6; -1; -1; -1; -1; -1; -1; -1];
  [5; 10; 6; 1; 9; 2; 9; 11; 2; 9; 8; 11; -1; -1; -1; -1];
  [6; 3; 11; 6; 5; 3; 5; 1; 3; -1; -1; -1; -1; -1; -1; -1];
  [0; 8; 11; 0; 11; 5; 0; 5; 1; 5; 11; 6; -1; -1; -1; -1];
  [3; 11; 6; 0; 3; 6; 0; 6; 5; 0; 5; 9; -1; -1; -1; -1];
  [6; 5; 9; 6; 9; 11; 11; 9; 8; -1; -1; -1; -1; -1; -1; -1];
  [5; 10; 6; 4; 7; 8; -1; -1; -1; -1; -1; -1; -1; -1; -1; -1];
  [4; 3; 0; 4; 7; 3; 6; 5; 10; -1; -1; -1; -1; -1; -1; -1];
  [1; 9; 0; 5; 10; 6; 8; 4; 7; -1; -1; -1; -1; -1; -1; -1];
  [10; 6; 5; 1; 9; 7; 1; 7; 3; 7; 9; 4; -1; -1; -1; -1];
  [6; 1; 2; 6; 5; 1; 4; 7; 8; -1; -1; -1; -1; -1; -1; -1];
  [1; 2; 5; 5; 2; 6; 3; 0; 4; 3; 4; 7; -1; -1; -1; -1];
  [8; 4; 7; 9; 0; 5; 0; 6; 5; 0; 2; 6; -1; -1; -1; -1];
  [7; 3; 9; 7; 9; 4; 3; 2; 9; 5; 9; 6; 2; 6; 9; -1];
  [3; 11; 2; 7; 8; 4; 10; 6; 5; -1; -1; -1; -1; -1; -1; -1];
  [5; 10; 6; 4; 7; 2; 4; 2; 0; 2; 7; 11; -1; -1; -1; -1];
  [0; 1; 9; 4; 7; 8; 2; 3; 11; 5; 10; 6; -1; -1; -1; -1];
  [9; 2; 1; 9; 11; 2; 9; 4; 11; 7; 11; 4; 5; 10; 6; -1];
  [8; 4; 7; 3; 11; 5; 3; 5; 1; 5; 11; 6; -1; -1; -1; -1];
  [5; 1; 11; 5; 11; 6; 1; 0; 11; 7; 11; 4; 0; 4; 11; -1];
  [0; 5; 9; 0; 6; 5; 0; 3; 6; 11; 6; 3; 8; 4; 7; -1];
  [6; 5; 9; 6; 9; 11; 4; 7; 9; 7; 11; 9; -1; -1; -1; -1];
  [10; 4; 9; 6; 4; 10; -1; -1; -1; -1; -1; -1; -1; -1; -1; -1];
  [4; 10; 6; 4; 9; 10; 0; 8; 3; -1; -1; -1; -1; -1; -1; -1];
  [10; 0; 1; 10; 6; 0; 6; 4; 0; -1; -1; -1; -1; -1; -1; -1];
  [8; 3; 1; 8; 1; 6; 8; 6; 4; 6; 1; 10; -1; -1; -1; -1];
  [1; 4; 9; 1; 2; 4; 2; 6; 4; -1; -1; -1; -1; -1; -1; -1];
  [3; 0; 8; 1; 2; 9; 2; 4; 9; 2; 6; 4; -1; -1; -1; -1];
  [0; 2; 4; 4; 2; 6; -1; -1; -1; -1; -1; -1; -1; -1; -1; -1];
  [8; 3; 2; 8; 2; 4; 4; 2; 6; -1; -1; -1; -1; -1; -1; -1];
  [10; 4; 9; 10; 6; 4; 11; 2; 3; -1; -1; -1; -1; -1; -1; -1];
  [0; 8; 2; 2; 8; 11; 4; 9; 10; 4; 10; 6; -1; -1; -1; -1];
  [3; 11; 2; 0; 1; 6; 0; 6; 4; 6; 1; 10; -1; -1; -1; -1];
  [6; 4; 1; 6; 1; 10; 4; 8; 1; 2; 1; 11; 8; 11; 1; -1];
  [9; 6; 4; 9; 3; 6; 9; 1; 3; 11; 6; 3; -1; -1; -1; -1];
  [8; 11; 1; 8; 1; 0; 11; 6; 1; 9; 1; 4; 6; 4; 1; -1];
  [3; 11; 6; 3; 6; 0; 0; 6; 4; -1; -1; -1; -1; -1; -1; -1];
  [6; 4; 8; 11; 6; 8; -1; -1; -1; -1; -1; -1; -1; -1; -1; -1];
  [7; 10; 6; 7; 8; 10; 8; 9; 10; -1; -1; -1; -1; -1; -1; -1];
  [0; 7; 3; 0; 10; 7; 0; 9; 10; 6; 7; 10; -1; -1; -1; -1];
  [10; 6; 7; 1; 10; 7; 1; 7; 8; 1; 8; 0; -1; -1; -1; -1];
  [10; 6; 7; 10; 7; 1; 1; 7; 3; -1; -1; -1; -1; -1; -1; -1];
  [1; 2; 6; 1; 6; 8; 1; 8; 9; 8; 6; 7; -1; -1; -1; -1];
  [2; 6; 9; 2; 9; 1; 6; 7; 9; 0; 9; 3; 7; 3; 9; -1];
  [7; 8; 0; 7; 0; 6; 6; 0; 2; -1; -1; -1; -1; -1; -1; -1];
  [7; 3; 2; 6; 7; 2; -1; -1; -1; -1; -1; -1; -1; -1; -1; -1];
  [2; 3; 11; 10; 6; 8; 10; 8; 9; 8; 6; 7; -1; -1; -1; -1];
  [2; 0; 7; 2; 7; 11; 0; 9; 7; 6; 7; 10; 9; 10; 7; -1];
  [1; 8; 0; 1; 7; 8; 1; 10; 7; 6; 7; 10; 2; 3; 11; -1];
  [11; 2; 1; 11; 1; 7; 10; 6; 1; 6; 7; 1; -1; -1; -1; -1];
  [8; 9; 6; 8; 6; 7; 9; 1; 6; 11; 6; 3; 1; 3; 6; -1];
  [0; 9; 1; 11; 6; 7; -1; -1; -1; -1; -1; -1; -1; -1; -1; -1];
  [7; 8; 0; 7; 0; 6; 3; 11; 0; 11; 6; 0; -1; -1; -1; -1];
  [7; 11; 6; -1; -1; -1; -1; -1; -1; -1; -1; -1; -1; -1; -1; -1];
  [7; 6; 11; -1; -1; -1; -1; -1; -1; -1; -1; -1; -1; -1; -1; -1];
  [3; 0; 8; 11; 7; 6; -1; -1; -1; -1; -1; -1; -1; -1; -1; -1];
  [0; 1; 9; 11; 7; 6; -1; -1; -1; -1; -1; -1; -1; -1; -1; -1];
  [8; 1; 9; 8; 3; 1; 11; 7; 6; -1; -1; -1; -1; -1; -1; -1];
  [10; 1; 2; 6; 11; 7; -1; -1; -1; -1; -1; -1; -1; -1; -1; -1];
  [1; 2; 10; 3; 0; 8; 6; 11; 7; -1; -1; -1; -1; -1; -1; -1];
  [2; 9; 0; 2; 10; 9; 6; 11; 7; -1; -1; -1; -1; -1; -1; -1];
  [6; 11; 7; 2; 10; 3; 10; 8; 3; 10; 9; 8; -1; -1; -1; -1];
  [7; 2; 3; 6; 2; 7; -1; -1; -1; -1; -1; -1; -1; -1; -1; -1];
  [7; 0; 8; 7; 6; 0; 6; 2; 0; -1; -1; -1; -1; -1; -1; -1];
  [2; 7; 6; 2; 3; 7; 0; 1; 9; -1; -1; -1; -1; -1; -1; -1];
  [1; 6; 2; 1; 8; 6; 1; 9; 8; 8; 7; 6; -1; -1; -1; -1];
  [10; 7; 6; 10; 1; 7; 1; 3; 7; -1; -1; -1; -1; -1; -1; -1];
  [10; 7; 6; 1; 7; 10; 1; 8; 7; 1; 0; 8; -1; -1; -1; -1];
  [0; 3; 7; 0; 7; 10; 0; 10; 9; 6; 10; 7; -1; -1; -1; -1];
  [7; 6; 10; 7; 10; 8; 8; 10; 9; -1; -1; -1; -1; -1; -1; -1];
  [6; 8; 4; 11; 8; 6; -1; -1; -1; -1; -1; -1; -1; -1; -1; -1];
  [3; 6; 11; 3; 0; 6; 0; 4; 6; -1; -1; -1; -1; -1; -1; -1];
  [8; 6; 11; 8; 4; 6; 9; 0; 1; -1; -1; -1; -1; -1; -1; -1];
  [9; 4; 6; 9; 6; 3; 9; 3; 1; 11; 3; 6; -1; -1; -1; -1];
  [6; 8; 4; 6; 11; 8; 2; 10; 1; -1; -1; -1; -1; -1; -1; -1];
  [1; 2; 10; 3; 0; 11; 0; 6; 11; 0; 4; 6; -1; -1; -1; -1];
  [4; 11; 8; 4; 6; 11; 0; 2; 9; 2; 10; 9; -1; -1; -1; -1];
  [10; 9; 3; 10; 3; 2; 9; 4; 3; 11; 3; 6; 4; 6; 3; -1];
  [8; 2; 3; 8; 4; 2; 4; 6; 2; -1; -1; -1; -1; -1; -1; -1];
  [0; 4; 2; 4; 6; 2; -1; -1; -1; -1; -1; -1; -1; -1; -1; -1];
  [1; 9; 0; 2; 3; 4; 2; 4; 6; 4; 3; 8; -1; -1; -1; -1];
  [1; 9; 4; 1; 4; 2; 2; 4; 6; -1; -1; -1; -1; -1; -1; -1];
  [8; 1; 3; 8; 6; 1; 8; 4; 6; 6; 10; 1; -1; -1; -1; -1];
  [10; 1; 0; 10; 0; 6; 6; 0; 4; -1; -1; -1; -1; -1; -1; -1];
  [4; 6; 3; 4; 3; 8; 6; 10; 3; 0; 3; 9; 10; 9; 3; -1];
  [10; 9; 4; 6; 10; 4; -1; -1; -1; -1; -1; -1; -1; -1; -1; -1];
  [4; 9; 5; 7; 6; 11; -1; -1; -1; -1; -1; -1; -1; -1; -1; -1];
  [0; 8; 3; 4; 9; 5; 11; 7; 6; -1; -1; -1; -1; -1; -1; -1];
  [5; 0; 1; 5; 4; 0; 7; 6; 11; -1; -1; -1; -1; -1; -1; -1];
  [11; 7; 6; 8; 3; 4; 3; 5; 4; 3; 1; 5; -1; -1; -1; -1];
  [9; 5; 4; 10; 1; 2; 7; 6; 11; -1; -1; -1; -1; -1; -1; -1];
  [6; 11; 7; 1; 2; 10; 0; 8; 3; 4; 9; 5; -1; -1; -1; -1];
  [7; 6; 11; 5; 4; 10; 4; 2; 10; 4; 0; 2; -1; -1; -1; -1];
  [3; 4; 8; 3; 5; 4; 3; 2; 5; 10; 5; 2; 11; 7; 6; -1];
  [7; 2; 3; 7; 6; 2; 5; 4; 9; -1; -1; -1; -1; -1; -1; -1];
  [9; 5; 4; 0; 8; 6; 0; 6; 2; 6; 8; 7; -1; -1; -1; -1];
  [3; 6; 2; 3; 7; 6; 1; 5; 0; 5; 4; 0; -1; -1; -1; -1];
  [6; 2; 8; 6; 8; 7; 2; 1; 8; 4; 8; 5; 1; 5; 8; -1];
  [9; 5; 4; 10; 1; 6; 1; 7; 6; 1; 3; 7; -1; -1; -1; -1];
  [1; 6; 10; 1; 7; 6; 1; 0; 7; 8; 7; 0; 9; 5; 4; -1];
  [4; 0; 10; 4; 10; 5; 0; 3; 10; 6; 10; 7; 3; 7; 10; -1];
  [7; 6; 10; 7; 10; 8; 5; 4; 10; 4; 8; 10; -1; -1; -1; -1];
  [6; 9; 5; 6; 11; 9; 11; 8; 9; -1; -1; -1; -1; -1; -1; -1];
  [3; 6; 11; 0; 6; 3; 0; 5; 6; 0; 9; 5; -1; -1; -1; -1];
  [0; 11; 8; 0; 5; 11; 0; 1; 5; 5; 6; 11; -1; -1; -1; -1];
  [6; 11; 3; 6; 3; 5; 5; 3; 1; -1; -1; -1; -1; -1; -1; -1];
  [1; 2; 10; 9; 5; 11; 9; 11; 8; 11; 5; 6; -1; -1; -1; -1];
  [0; 11; 3; 0; 6; 11; 0; 9; 6; 5; 6; 9; 1; 2; 10; -1];
  [11; 8; 5; 11; 5; 6; 8; 0; 5; 10; 5; 2; 0; 2; 5; -1];
  [6; 11; 3; 6; 3; 5; 2; 10; 3; 10; 5; 3; -1; -1; -1; -1];
  [5; 8; 9; 5; 2; 8; 5; 6; 2; 3; 8; 2; -1; -1; -1; -1];
  [9; 5; 6; 9; 6; 0; 0; 6; 2; -1; -1; -1; -1; -1; -1; -1];
  [1; 5; 8; 1; 8; 0; 5; 6; 8; 3; 8; 2; 6; 2; 8; -1];
  [1; 5; 6; 2; 1; 6; -1; -1; -1; -1; -1; -1; -1; -1; -1; -1];
  [1; 3; 6; 1; 6; 10; 3; 8; 6; 5; 6; 9; 8; 9; 6; -1];
  [10; 1; 0; 10; 0; 6; 9; 5; 0; 5; 6; 0; -1; -1; -1; -1];
  [0; 3; 8; 5; 6; 10; -1; -1; -1; -1; -1; -1; -1; -1; -1; -1];
  [10; 5; 6; -1; -1; -1; -1; -1; -1; -1; -1; -1; -1; -1; -1; -1];
  [11; 5; 10; 7; 5; 11; -1; -1; -1; -1; -1; -1; -1; -1; -1; -1];
  [11; 5; 10; 11; 7; 5; 8; 3; 0; -1; -1; -1; -1; -1; -1; -1];
  [5; 11; 7; 5; 10; 11; 1; 9; 0; -1; -1; -1; -1; -1; -1; -1];
  [10; 7; 5; 10; 11; 7; 9; 8; 1; 8; 3; 1; -1; -1; -1; -1];
  [11; 1; 2; 11; 7; 1; 7; 5; 1; -1; -1; -1; -1; -1; -1; -1];
  [0; 8; 3; 1; 2; 7; 1; 7; 5; 7; 2; 11; -1; -1; -1; -1];
  [9; 7; 5; 9; 2; 7; 9; 0; 2; 2; 11; 7; -1; -1; -1; -1];
  [7; 5; 2; 7; 2; 11; 5; 9; 2; 3; 2; 8; 9; 8; 2; -1];
  [2; 5; 10; 2; 3; 5; 3; 7; 5; -1; -1; -1; -1; -1; -1; -1];
  [8; 2; 0; 8; 5; 2; 8; 7; 5; 10; 2; 5; -1; -1; -1; -1];
  [9; 0; 1; 5; 10; 3; 5; 3; 7; 3; 10; 2; -1; -1; -1; -1];
  [9; 8; 2; 9; 2; 1; 8; 7; 2; 10; 2; 5; 7; 5; 2; -1];
  [1; 3; 5; 3; 7; 5; -1; -1; -1; -1; -1; -1; -1; -1; -1; -1];
  [0; 8; 7; 0; 7; 1; 1; 7; 5; -1; -1; -1; -1; -1; -1; -1];
  [9; 0; 3; 9; 3; 5; 5; 3; 7; -1; -1; -1; -1; -1; -1; -1];
  [9; 8; 7; 5; 9; 7; -1; -1; -1; -1; -1; -1; -1; -1; -1; -1];
  [5; 8; 4; 5; 10; 8; 10; 11; 8; -1; -1; -1; -1; -1; -1; -1];
  [5; 0; 4; 5; 11; 0; 5; 10; 11; 11; 3; 0; -1; -1; -1; -1];
  [0; 1; 9; 8; 4; 10; 8; 10; 11; 10; 4; 5; -1; -1; -1; -1];
  [10; 11; 4; 10; 4; 5; 11; 3; 4; 9; 4; 1; 3; 1; 4; -1];
  [2; 5; 1; 2; 8; 5; 2; 11; 8; 4; 5; 8; -1; -1; -1; -1];
  [0; 4; 11; 0; 11; 3; 4; 5; 11; 2; 11; 1; 5; 1; 11; -1];
  [0; 2; 5; 0; 5; 9; 2; 11; 5; 4; 5; 8; 11; 8; 5; -1];
  [9; 4; 5; 2; 11; 3; -1; -1; -1; -1; -1; -1; -1; -1; -1; -1];
  [2; 5; 10; 3; 5; 2; 3; 4; 5; 3; 8; 4; -1; -1; -1; -1];
  [5; 10; 2; 5; 2; 4; 4; 2; 0; -1; -1; -1; -1; -1; -1; -1];
  [3; 10; 2; 3; 5; 10; 3; 8; 5; 4; 5; 8; 0; 1; 9; -1];
  [5; 10; 2; 5; 2; 4; 1; 9; 2; 9; 4; 2; -1; -1; -1; -1];
  [8; 4; 5; 8; 5; 3; 3; 5; 1; -1; -1; -1; -1; -1; -1; -1];
  [0; 4; 5; 1; 0; 5; -1; -1; -1; -1; -1; -1; -1; -1; -1; -1];
  [8; 4; 5; 8; 5; 3; 9; 0; 5; 0; 3; 5; -1; -1; -1; -1];
  [9; 4; 5; -1; -1; -1; -1; -1; -1; -1; -1; -1; -1; -1; -1; -1];
  [4; 11; 7; 4; 9; 11; 9; 10; 11; -1; -1; -1; -1; -1; -1; -1];
  [0; 8; 3; 4; 9; 7; 9; 11; 7; 9; 10; 11; -1; -1; -1; -1];
  [1; 10; 11; 1; 11; 4; 1; 4; 0; 7; 4; 11; -1; -1; -1; -1];
  [3; 1; 4; 3; 4; 8; 1; 10; 4; 7; 4; 11; 10; 11; 4; -1];
  [4; 11; 7; 9; 11; 4; 9; 2; 11; 9; 1; 2; -1; -1; -1; -1];
  [9; 7; 4; 9; 11; 7; 9; 1; 11; 2; 11; 1; 0; 8; 3; -1];
  [11; 7; 4; 11; 4; 2; 2; 4; 0; -1; -1; -1; -1; -1; -1; -1];
  [11; 7; 4; 11; 4; 2; 8; 3; 4; 3; 2; 4; -1; -1; -1; -1];
  [2; 9; 10; 2; 7; 9; 2; 3; 7; 7; 4; 9; -1; -1; -1; -1];
  [9; 10; 7; 9; 7; 4; 10; 2; 7; 8; 7; 0; 2; 0; 7; -1];
  [3; 7; 10; 3; 10; 2; 7; 4; 10; 1; 10; 0; 4; 0; 10; -1];
  [1; 10; 2; 8; 7; 4; -1; -1; -1; -1; -1; -1; -1; -1; -1; -1];
  [4; 9; 1; 4; 1; 7; 7; 1; 3; -1; -1; -1; -1; -1; -1; -1];
  [4; 9; 1; 4; 1; 7; 0; 8; 1; 8; 7; 1; -1; -1; -1; -1];
  [4; 0; 3; 7; 4; 3; -1; -1; -1; -1; -1; -1; -1; -1; -1; -1];
  [4; 8; 7; -1; -1; -1; -1; -1; -1; -1; -1; -1; -1; -1; -1; -1];
  [9; 10; 8; 10; 11; 8; -1; -1; -1; -1; -1; -1; -1; -1; -1; -1];
  [3; 0; 9; 3; 9; 11; 11; 9; 10; -1; -1; -1; -1; -1; -1; -1];
  [0; 1; 10; 0; 10; 8; 8; 10; 11; -1; -1; -1; -1; -1; -1; -1];
  [3; 1; 10; 11; 3; 10; -1; -1; -1; -1; -1; -1; -1; -1; -1; -1];
  [1; 2; 11; 1; 11; 9; 9; 11; 8; -1; -1; -1; -1; -1; -1; -1];
  [3; 0; 9; 3; 9; 11; 1; 2; 9; 2; 11; 9; -1; -1; -1; -1];
  [0; 2; 11; 8; 0; 11; -1; -1; -1; -1; -1; -1; -1; -1; -1; -1];
  [3; 2; 11; -1; -1; -1; -1; -1; -1; -1; -1; -1; -1; -1; -1; -1];
  [2; 3; 8; 2; 8; 10; 10; 8; 9; -1; -1; -1; -1; -1; -1; -1];
  [9; 10; 2; 0; 9; 2; -1; -1; -1; -1; -1; -1; -1; -1; -1; -1];
  [2; 3; 8; 2; 8; 10; 0; 1; 8; 1; 10; 8; -1; -1; -1; -1];
  [1; 10; 2; -1; -1; -1; -1; -1; -1; -1; -1; -1; -1; -1; -1; -1];
  [1; 3; 8; 9; 1; 8; -1; -1; -1; -1; -1; -1; -1; -1; -1; -1];
  [0; 9; 1; -1; -1; -1; -1; -1; -1; -1; -1; -1; -1; -1; -1; -1];
  [0; 3; 8; -1; -1; -1; -1; -1; -1; -1; -1; -1; -1; -1; -1; -1];
  [-1; -1; -1; -1; -1; -1; -1; -1; -1; -1; -1; -1; -1; -1; -1; -1]
].

(** [triTable[cubeIndex][i]] *)
Definition triEntry (cubeIndex i : Z) : option Z :=
  row ← aget triTable cubeIndex; aget row i.

Section Mesh.

Variable srgbToLinearLUT : Z -> f32.

(** [if (edges & bit) interpolate(&edgePoints[n], samples[a], samples[b]);] *)
Definition interpolateEdge (edges bit : Z) (n a b : Z) : M unit :=
  if Z.land edges bit =? 0 then mret tt
  else
    ss ← readSamples;
    sa ← liftOpt (aget ss a);
    sb ← liftOpt (aget ss b);
    es ← readEdgePoints;
    es' ← liftOpt (aset es n (interpolate srgbToLinearLUT sa sb));
    writeEdgePoints es'.

(** The body of the triangle loop for one non-terminating entry [i]. *)
Definition emitTriangle (cubeIndex i : Z) : M unit :=
  i0 ← liftOpt (triEntry cubeIndex i);
  i1 ← liftOpt (triEntry cubeIndex (i + 1));
  i2 ← liftOpt (triEntry cubeIndex (i + 2));
  es ← readEdgePoints;
  p0 ← liftOpt (aget es i0);
  p1 ← liftOpt (aget es i1);
  p2 ← liftOpt (aget es i2);
  let normal := computeNormal (edge_position p0) (edge_position p1) (edge_position p2) in
  _ ← pushVec3 pushPosition (edge_position p0);
  _ ← pushVec3 pushPosition (edge_position p1);
  _ ← pushVec3 pushPosition (edge_position p2);
  _ ← pushVec3 pushNormal normal;
  _ ← pushVec3 pushNormal normal;
  _ ← pushVec3 pushNormal normal;
  _ ← pushColor (edge_r p0); _ ← pushColor (edge_g p0); _ ← pushColor (edge_b p0);
  _ ← pushColor (edge_r p1); _ ← pushColor (edge_g p1); _ ← pushColor (edge_b p1);
  _ ← pushColor (edge_r p2); _ ← pushColor (edge_g p2); pushColor (edge_b p2).

(** [for (int i = 0; i < 16; i += 3) { if (triTable[cubeIndex][i] == -1)
    break; ... }]; six rounds reach [i = 18]. *)
Fixpoint triangleLoop (rounds : nat) (cubeIndex i : Z) : M unit :=
  match rounds with
  | O => mret tt
  | S rounds' =>
      if i <? 16 then
        edgeIndex ← liftOpt (triEntry cubeIndex i);
        if edgeIndex =? -1 then mret tt
        else _ ← emitTriangle cubeIndex i; triangleLoop rounds' cubeIndex (i + 3)
      else mret tt
  end.

(** The body of the marching loop for the cell at [(lx, ly, lz)]. *)
Definition marchCell (ly lz lx : Z) : M unit :=
  _ ← loadSample 0 lx ly lz;
  _ ← loadSample 1 lx (ly + 1) lz;
  _ ← loadSample 2 (lx + 1) (ly + 1) lz;
  _ ← loadSample 3 (lx + 1) ly lz;
  _ ← loadSample 4 lx ly (lz + 1);
  _ ← loadSample 5 lx (ly + 1) (lz + 1);
  _ ← loadSample 6 (lx + 1) (ly + 1) (lz + 1);
  _ ← loadSample 7 (lx + 1) ly (lz + 1);
  ss ← readSamples;
  cubeIndex ← liftOpt (cubeIndexOf ss);
  edges ← liftOpt (aget edgeTable cubeIndex);
  if edges =? 0 then mret tt   (* continue *)
  else
    _ ← interpolateEdge edges 1 0 0 1;
    _ ← interpolateEdge edges 2 1 1 2;
    _ ← interpolateEdge edges 4 2 2 3;
    _ ← interpolateEdge edges 8 3 3 0;
    _ ← interpolateEdge edges 16 4 4 5;
    _ ← interpolateEdge edges 32 5 5 6;
    _ ← interpolateEdge edges 64 6 6 7;
    _ ← interpolateEdge edges 128 7 7 4;
    _ ← interpolateEdge edges 256 8 0 4;
    _ ← interpolateEdge edges 512 9 1 5;
    _ ← interpolateEdge edges 1024 10 2 6;
    _ ← interpolateEdge edges 2048 11 3 7;
    triangleLoop 6 cubeIndex 0.

(** [mesh(voxels, chunk, out)]: [voxels] and [out] are the world and the
    geometry of the memory, [chunk] the index of the chunk in the world. *)
Definition mesh (chunk : Z) : M unit :=
  _ ← resetCounts;
  _ ← forRange SAMPLE_GRID_SIZE (fun ly =>
        forRange SAMPLE_GRID_SIZE (fun lz =>
          forRange SAMPLE_GRID_SIZE (fun lx => presample chunk ly lz lx)));
  forRange CHUNK_SIZE (fun ly =>
    forRange CHUNK_SIZE (fun lz =>
      forRange CHUNK_SIZE (fun lx => marchCell ly lz lx))).

End Mesh.

(** ** Raycaster *)

Record RaycastResult := mkRaycastResult {
  hit : bool;
  positionX : f32;
  positionY : f32;
  positionZ : f32;
  normalX : f32;
  normalY : f32;
  normalZ : f32;
  hit_value : Z;
  hit_r : Z;
  hit_g : Z;
  hit_b : Z;
  distance : f32;
  voxelX : Z;
  voxelY : Z;
  voxelZ : Z
}.

(** [out->hit = false]: the other fields of [*out] keep what they held. *)
Definition setNoHit (out : RaycastResult) : RaycastResult :=
  mkRaycastResult false (positionX out) (positionY out) (positionZ out)
                  (normalX out) (normalY out) (normalZ out)
                  (hit_value out) (hit_r out) (hit_g out) (hit_b out)
                  (distance out) (voxelX out) (voxelY out) (voxelZ out).

(** A result object before any call: every field zero. *)
Definition emptyResult : RaycastResult :=
  mkRaycastResult false F32.zero F32.zero F32.zero F32.zero F32.zero F32.zero
                  0 0 0 0 F32.zero 0 0 0.

(** The local variables of [raycastVoxels] that change in its loop. *)
Record RayState := mkRayState {
  ray_x : Z;
  ray_y : Z;
  ray_z : Z;
  tMaxX : f32;
  tMaxY : f32;
  tMaxZ : f32;
  hitNormalX : f32;
  hitNormalY : f32;
  hitNormalZ : f32;
  ray_distance : f32
}.

Inductive LoopStep :=
| Continue (s : RayState)
| Return (out : RaycastResult).

(** [dir >= 0 ? 1 : -1] *)
Definition stepOf (dir : f32) : Z := if (dir >=? F32.zero)%f32 then 1 else -1.

(** [dir != 0.0f ? std::abs(1.0f / dir) : FLT_MAX] *)
Definition tDeltaOf (dir : f32) : f32 :=
  if F32.neb dir F32.zero then F32.abs (F32.one / dir)%f32 else F32.FLT_MAX.

(** The initial [tMax] of one axis. *)
Definition tMaxInit (dir tOrigin : f32) : f32 :=
  if (dir >=? F32.zero)%f32
  then ((F32.floor tOrigin + F32.one - tOrigin) / dir)%f32
  else ((tOrigin - F32.floor tOrigin) / - dir)%f32.

(** The exit distance of one axis from the chunk slab [[chunkMin, chunkMax]]. *)
Definition tExitOf (dir tOrigin : f32) (chunkMin chunkMax : Z) (dist : f32) : f32 :=
  if (dir >? F32.zero)%f32 then
    let t := ((F32.of_int chunkMax - tOrigin) / dir)%f32 in
    if (t >? dist)%f32 then t else F32.FLT_MAX
  else if (dir <? F32.zero)%f32 then
    let t := ((F32.of_int chunkMin - tOrigin) / dir)%f32 in
    if (t >? dist)%f32 then t else F32.FLT_MAX
  else F32.FLT_MAX.

(** [tMax] of one axis recomputed at voxel coordinate [x] after a jump. *)
Definition tMaxAt (dir tOrigin : f32) (x : Z) (old : f32) : f32 :=
  if F32.neb dir F32.zero then
    if (dir >=? F32.zero)%f32
    then ((F32.of_int (x + 1) - tOrigin) / dir)%f32
    else ((tOrigin - F32.of_int x) / - dir)%f32
  else old.

Section Raycast.

Variable voxels : Voxels.
Variables originX originY originZ : f32.
Variables dirX dirY dirZ : f32.
Variable maxDistance : f32.

Definition tOriginX : f32 := (originX + F32.half)%f32.
Definition tOriginY : f32 := (originY + F32.half)%f32.
Definition tOriginZ : f32 := (originZ + F32.half)%f32.

Definition stepX : Z := stepOf dirX.
Definition stepY : Z := stepOf dirY.
Definition stepZ : Z := stepOf dirZ.

Definition tDeltaX : f32 := tDeltaOf dirX.
Definition tDeltaY : f32 := tDeltaOf dirY.
Definition tDeltaZ : f32 := tDeltaOf dirZ.

(** The state on entry to the loop. *)
Definition rayInit : RayState :=
  mkRayState (F32.floorZ tOriginX) (F32.floorZ tOriginY) (F32.floorZ tOriginZ)
             (tMaxInit dirX tOriginX) (tMaxInit dirY tOriginY) (tMaxInit dirZ tOriginZ)
             F32.zero F32.zero F32.zero F32.zero.

(** The branch taken when the chunk of the current voxel is absent or has
    [sum == 0]: jump to where the ray leaves the chunk. *)
Definition skipChunk (out : RaycastResult) (cx cy cz : Z) (s : RayState) : LoopStep :=
  let chunkMinX := cx * CHUNK_SIZE in
  let chunkMinY := cy * CHUNK_SIZE in
  let chunkMinZ := cz * CHUNK_SIZE in
  let chunkMaxX := chunkMinX + CHUNK_SIZE in
  let chunkMaxY := chunkMinY + CHUNK_SIZE in
  let chunkMaxZ := chunkMinZ + CHUNK_SIZE in
  let tExitX := tExitOf dirX tOriginX chunkMinX chunkMaxX (ray_distance s) in
  let tExitY := tExitOf dirY tOriginY chunkMinY chunkMaxY (ray_distance s) in
  let tExitZ := tExitOf dirZ tOriginZ chunkMinZ chunkMaxZ (ray_distance s) in
  let tExit := F32.min3 tExitX tExitY tExitZ in
  if (tExit >=? maxDistance)%f32 || F32.eqb tExit F32.FLT_MAX then
    Return (setNoHit out)
  else
    let epsilon := F32.lit 1 10000 in
    let exitX := (tOriginX + dirX * (tExit + epsilon))%f32 in
    let exitY := (tOriginY + dirY * (tExit + epsilon))%f32 in
    let exitZ := (tOriginZ + dirZ * (tExit + epsilon))%f32 in
    let x := F32.floorZ exitX in
    let y := F32.floorZ exitY in
    let z := F32.floorZ exitZ in
    let tmx := tMaxAt dirX tOriginX x (tMaxX s) in
    let tmy := tMaxAt dirY tOriginY y (tMaxY s) in
    let tmz := tMaxAt dirZ tOriginZ z (tMaxZ s) in
    if F32.eqb tExit tExitX then
      Continue (mkRayState x y z tmx tmy tmz
                           (F32.of_int (- stepX)) F32.zero F32.zero tExit)
    else if F32.eqb tExit tExitY then
      Continue (mkRayState x y z tmx tmy tmz
                           F32.zero (F32.of_int (- stepY)) F32.zero tExit)
    else
      Continue (mkRayState x y z tmx tmy tmz
                           F32.zero F32.zero (F32.of_int (- stepZ)) tExit).

(** The result written on a hit at the current voxel. *)
Definition hitResult (value r g b : Z) (s : RayState) : RaycastResult :=
  let hitPosX := (tOriginX + dirX * ray_distance s)%f32 in
  let hitPosY := (tOriginY + dirY * ray_distance s)%f32 in
  let hitPosZ := (tOriginZ + dirZ * ray_distance s)%f32 in
  mkRaycastResult true
                  (hitPosX - F32.half)%f32 (hitPosY - F32.half)%f32
                  (hitPosZ - F32.half)%f32
                  (hitNormalX s) (hitNormalY s) (hitNormalZ s)
                  value r g b (ray_distance s)
                  (ray_x s) (ray_y s) (ray_z s).

(** The step to the next voxel boundary: one voxel along the axis with the
    smallest [tMax]. *)
Definition advance (s : RayState) : RayState :=
  if (tMaxX s <? tMaxY s)%f32 && (tMaxX s <? tMaxZ s)%f32 then
    mkRayState (ray_x s + stepX) (ray_y s) (ray_z s)
               (tMaxX s + tDeltaX)%f32 (tMaxY s) (tMaxZ s)
               (F32.of_int (- stepX)) F32.zero F32.zero (tMaxX s)
  else if (tMaxY s <? tMaxZ s)%f32 then
    mkRayState (ray_x s) (ray_y s + stepY) (ray_z s)
               (tMaxX s) (tMaxY s + tDeltaY)%f32 (tMaxZ s)
               F32.zero (F32.of_int (- stepY)) F32.zero (tMaxY s)
  else
    mkRayState (ray_x s) (ray_y s) (ray_z s + stepZ)
               (tMaxX s) (tMaxY s) (tMaxZ s + tDeltaZ)%f32
               F32.zero F32.zero (F32.of_int (- stepZ)) (tMaxZ s).

(** The rest of the loop body: test the current voxel, report a hit or
    advance. *)
Definition testVoxel (s : RayState) : option LoopStep :=
  '(value, r, g, b) ← getVoxel voxels (ray_x s) (ray_y s) (ray_z s);
  if value >=? ISOLEVEL then Some (Return (hitResult value r g b s))
  else Some (Continue (advance s)).

(** [!inBounds || voxels->chunks[chunkIndex]->sum == 0] *)
Definition chunkAbsentOrEmpty (cx cy cz : Z) : option bool :=
  match chunkCoordinateToIndex cx cy cz (bounds voxels) with
  | None => Some true
  | Some chunkIndex =>
      chunk ← aget (chunks voxels) chunkIndex;
      Some (chunk_sum chunk =? 0)
  end.

(** One pass through the body of the [while] loop. *)
Definition rayStep (out : RaycastResult) (s : RayState) : option LoopStep :=
  let '(cx, cy, cz) := worldPositionToChunkCoordinates (ray_x s) (ray_y s) (ray_z s) in
  skip ← chunkAbsentOrEmpty cx cy cz;
  if skip : bool then Some (skipChunk out cx cy cz s) else testVoxel s.

(** [while (distance < maxDistance) { ... } out->hit = false;] with a bound
    on the number of passes; [None] when the bound is reached or an array
    is left. *)
Fixpoint rayLoop (fuel : nat) (out : RaycastResult) (s : RayState)
  : option RaycastResult :=
  match fuel with
  | O => None
  | S fuel' =>
      if (ray_distance s <? maxDistance)%f32 then
        r ← rayStep out s;
        match r with
        | Continue s' => rayLoop fuel' out s'
        | Return res => Some res
        end
      else Some (setNoHit out)
  end.

Definition raycastVoxels (fuel : nat) (out : RaycastResult) : option RaycastResult :=
  rayLoop fuel out rayInit.

(** The traversal the skipping is measured against: the same DDA with the
    empty-chunk branch left out, so that every voxel on the way is tested.
    This definition follows the specification, not a function of the
    source. *)
Fixpoint naiveLoop (fuel : nat) (out : RaycastResult) (s : RayState)
  : option RaycastResult :=
  match fuel with
  | O => None
  | S fuel' =>
      if (ray_distance s <? maxDistance)%f32 then
        r ← testVoxel s;
        match r with
        | Continue s' => naiveLoop fuel' out s'
        | Return res => Some res
        end
      else Some (setNoHit out)
  end.

Definition naiveRaycast (fuel : nat) (out : RaycastResult) : option RaycastResult :=
  naiveLoop fuel out rayInit.

End Raycast.

(** ** Simplex noise and fractal Brownian motion *)

Definition perm : list Z := [
  151; 160; 137; 91; 90; 15; 131; 13; 201; 95; 96; 53; 194; 233; 7; 225;
  140; 36; 103; 30; 69; 142; 8; 99; 37; 240; 21; 10; 23; 190; 6; 148;
  247; 120; 234; 75; 0; 26; 197; 62; 94; 252; 219; 203; 117; 35; 11; 32;
  57; 177; 33; 88; 237; 149; 56; 87; 174; 20; 125; 136; 171; 168; 68; 175;
  74; 165; 71; 134; 139; 48; 27; 166; 77; 146; 158; 231; 83; 111; 229; 122;
  60; 211; 133; 230; 220; 105; 92; 41; 55; 46; 245; 40; 244; 102; 143; 54;
  65; 25; 63; 161; 1; 216; 80; 73; 209; 76; 132; 187; 208; 89; 18; 169;
  200; 196; 135; 130; 116; 188; 159; 86; 164; 100; 109; 198; 173; 186; 3; 64;
  52; 217; 226; 250; 124; 123; 5; 202; 38; 147; 118; 126; 255; 82; 85; 212;
  207; 206; 59; 227; 47; 16; 58; 17; 182; 189; 28; 42; 223; 183; 170; 213;
  119; 248; 152; 2; 44; 154; 163; 70; 221; 153; 101; 155; 167; 43; 172; 9;
  129; 22; 39; 253; 19; 98; 108; 110; 79; 113; 224; 232; 178; 185; 112; 104;
  218; 246; 97; 228; 251; 34; 242; 193; 238; 210; 144; 12; 191; 179; 162; 241;
  81; 51; 145; 235; 249; 14; 239; 107; 49; 192; 214; 31; 181; 199; 106; 157;
  184; 84; 204; 176; 115; 121; 50; 45; 127; 4; 150; 254; 138; 236; 205; 93;
  222; 114; 67; 29; 24; 72; 243; 141; 128; 195; 78; 66; 215; 61; 156; 180;
  151; 160; 137; 91; 90; 15; 131; 13; 201; 95; 96; 53; 194; 233; 7; 225;
  140; 36; 103; 30; 69; 142; 8; 99; 37; 240; 21; 10; 23; 190; 6; 148;
  247; 120; 234; 75; 0; 26; 197; 62; 94; 252; 219; 203; 117; 35; 11; 32;
  57; 177; 33; 88; 237; 149; 56; 87; 174; 20; 125; 136; 171; 168; 68; 175;
  74; 165; 71; 134; 139; 48; 27; 166; 77; 146; 158; 231; 83; 111; 229; 122;
  60; 211; 133; 230; 220; 105; 92; 41; 55; 46; 245; 40; 244; 102; 143; 54;
  65; 25; 63; 161; 1; 216; 80; 73; 209; 76; 132; 187; 208; 89; 18; 169;
  200; 196; 135; 130; 116; 188; 159; 86; 164; 100; 109; 198; 173; 186; 3; 64;
  52; 217; 226; 250; 124; 123; 5; 202; 38; 147; 118; 126; 255; 82; 85; 212;
  207; 206; 59; 227; 47; 16; 58; 17; 182; 189; 28; 42; 223; 183; 170; 213;
  119; 248; 152; 2; 44; 154; 163; 70; 221; 153; 101; 155; 167; 43; 172; 9;
  129; 22; 39; 253; 19; 98; 108; 110; 79; 113; 224; 232; 178; 185; 112; 104;
  218; 246; 97; 228; 251; 34; 242; 193; 238; 210; 144; 12; 191; 179; 162; 241;
  81; 51; 145; 235; 249; 14; 239; 107; 49; 192; 214; 31; 181; 199; 106; 157;
  184; 84; 204; 176; 115; 121; 50; 45; 127; 4; 150; 254; 138; 236; 205; 93;
  222; 114; 67; 29; 24; 72; 243; 141; 128; 195; 78; 66; 215; 61; 156; 180
].

Definition grad3 : list (Z * Z * Z) := [
  (1, 1, 0); (-1, 1, 0); (1, -1, 0); (-1, -1, 0);
  (1, 0, 1); (-1, 0, 1); (1, 0, -1); (-1, 0, -1);
  (0, 1, 1); (0, -1, 1); (0, 1, -1); (0, -1, -1)
].

(** [g[0]*x + g[1]*y + g[2]*z] for the row [g] of [grad3]. *)
Definition dot3 (g : Z * Z * Z) (x y z : f32) : f32 :=
  let '(g0, g1, g2) := g in
  (F32.of_int g0 * x + F32.of_int g1 * y + F32.of_int g2 * z)%f32.

(** One corner contribution: [t = 0.6f - x*x - y*y - z*z; if (t < 0) n = 0;
    else { t *= t; n = t * t * dot3(grad3[gi], x, y, z); }] *)
Definition cornerNoise (gi : Z) (x y z : f32) : option f32 :=
  let t := (F32.lit 6 10 - x * x - y * y - z * z)%f32 in
  if (t <? F32.zero)%f32 then Some F32.zero
  else
    g ← aget grad3 gi;
    let t := (t * t)%f32 in
    Some (t * t * dot3 g x y z)%f32.

(** [perm[a + perm[b + perm[c]]] % 12] *)
Definition gradIndex (a b c : Z) : option Z :=
  pc ← aget perm c;
  pb ← aget perm (b + pc);
  pa ← aget perm (a + pb);
  Some (Z.rem pa 12).

(** The offsets [(i1, j1, k1, i2, j2, k2)] of the second and third corner of
    the simplex that contains the point. *)
Definition simplexOrder (x0 y0 z0 : f32) : Z * Z * Z * Z * Z * Z :=
  if (x0 >=? y0)%f32 then
    if (y0 >=? z0)%f32 then (1, 0, 0, 1, 1, 0)
    else if (x0 >=? z0)%f32 then (1, 0, 0, 1, 0, 1)
    else (0, 0, 1, 1, 0, 1)
  else
    if (y0 <? z0)%f32 then (0, 0, 1, 0, 1, 1)
    else if (x0 <? z0)%f32 then (0, 1, 0, 0, 1, 1)
    else (0, 1, 0, 1, 1, 0).

Definition simplexNoise3D (x y z : f32) (seed : Z) : option f32 :=
  let x := (x + F32.of_int seed * F32.lit 123 1000)%f32 in
  let y := (y + F32.of_int seed * F32.lit 456 1000)%f32 in
  let z := (z + F32.of_int seed * F32.lit 789 1000)%f32 in
  let F3 := (F32.one / F32.of_int 3)%f32 in
  let G3 := (F32.one / F32.of_int 6)%f32 in
  let s := ((x + y + z) * F3)%f32 in
  let i := F32.floorZ (x + s)%f32 in
  let j := F32.floorZ (y + s)%f32 in
  let k := F32.floorZ (z + s)%f32 in
  let t := (F32.of_int (i + j + k) * G3)%f32 in
  let X0 := (F32.of_int i - t)%f32 in
  let Y0 := (F32.of_int j - t)%f32 in
  let Z0 := (F32.of_int k - t)%f32 in
  let x0 := (x - X0)%f32 in
  let y0 := (y - Y0)%f32 in
  let z0 := (z - Z0)%f32 in
  let '(i1, j1, k1, i2, j2, k2) := simplexOrder x0 y0 z0 in
  let two := F32.of_int 2 in
  let three := F32.of_int 3 in
  let x1 := (x0 - F32.of_int i1 + G3)%f32 in
  let y1 := (y0 - F32.of_int j1 + G3)%f32 in
  let z1 := (z0 - F32.of_int k1 + G3)%f32 in
  let x2 := (x0 - F32.of_int i2 + two * G3)%f32 in
  let y2 := (y0 - F32.of_int j2 + two * G3)%f32 in
  let z2 := (z0 - F32.of_int k2 + two * G3)%f32 in
  let x3 := (x0 - F32.one + three * G3)%f32 in
  let y3 := (y0 - F32.one + three * G3)%f32 in
  let z3 := (z0 - F32.one + three * G3)%f32 in
  let ii := Z.land i 255 in
  let jj := Z.land j 255 in
  let kk := Z.land k 255 in
  gi0 ← gradIndex ii jj kk;
  gi1 ← gradIndex (ii + i1) (jj + j1) (kk + k1);
  gi2 ← gradIndex (ii + i2) (jj + j2) (kk + k2);
  gi3 ← gradIndex (ii + 1) (jj + 1) (kk + 1);
  n0 ← cornerNoise gi0 x0 y0 z0;
  n1 ← cornerNoise gi1 x1 y1 z1;
  n2 ← cornerNoise gi2 x2 y2 z2;
  n3 ← cornerNoise gi3 x3 y3 z3;
  Some (F32.of_int 32 * (n0 + n1 + n2 + n3))%f32.

(** The loop of [fbm3]; the state is [(amplitude, frequency, sum, maxValue)]
    and [i] counts the octaves done. *)
Fixpoint fbmLoop (octaves : nat) (i : Z) (x y z : f32) (seed : Z)
         (lacunarity gain : f32) (st : f32 * f32 * f32 * f32)
  : option (f32 * f32 * f32 * f32) :=
  match octaves with
  | O => Some st
  | S octaves' =>
      let '(amplitude, frequency, sum, maxValue) := st in
      n ← simplexNoise3D (x * frequency)%f32 (y * frequency)%f32 (z * frequency)%f32
                         (seed + i);
      fbmLoop octaves' (i + 1) x y z seed lacunarity gain
              ((amplitude * gain)%f32, (frequency * lacunarity)%f32,
               (sum + amplitude * n)%f32, (maxValue + amplitude)%f32)
  end.

Definition fbm3 (x y z : f32) (seed : Z) (octaves : Z) (lacunarity gain : f32)
  : option f32 :=
  '(_, _, sum, maxValue) ← fbmLoop (Z.to_nat octaves) 0 x y z seed lacunarity gain
                                    (F32.one, F32.one, F32.zero, F32.zero);
  Some (sum / maxValue)%f32.

(** ** Chunk generation *)

Definition isoScale : f32 := F32.lit 125 10000.
Definition threshold : f32 := F32.lit 5 100.

(** The smoothstep factor of the voxel at world coordinate [(wx, wy, wz)]. *)
Definition solidityAt (wx wy wz seed : Z) : option f32 :=
  n ← fbm3 (F32.of_int wx * isoScale)%f32 (F32.of_int wy * isoScale)%f32
           (F32.of_int wz * isoScale)%f32 seed 5 (F32.of_int 2) F32.half;
  let t := ((n - (threshold - F32.lit 2 10)) / F32.lit 4 10)%f32 in
  let t := F32.max F32.zero (F32.min F32.one t) in
  Some (t * t * (F32.of_int 3 - F32.of_int 2 * t))%f32.

(** The colour block inside [if (solidity > 0.01f)]: the voxel
    [(density, finalR, finalG, finalB)] that is stored. *)
Definition solidVoxel (wx wy wz seed : Z) (solidity : f32) : option (Z * Z * Z * Z) :=
  let c4 := F32.lit 4 1000 in
  n ← fbm3 (F32.of_int wz * c4)%f32 (F32.of_int wx * c4)%f32 (F32.of_int wy * c4)%f32
           (seed + 1000) 3 (F32.of_int 2) (F32.lit 6 10);
  let h := ((n + F32.one) * F32.half)%f32 in
  let sCol := F32.lit 8 10 in
  let vCol := F32.one in
  let six := F32.of_int 6 in
  let ih := F32.floorZ (h * six)%f32 in
  let fh := (h * six - F32.of_int ih)%f32 in
  let p := (vCol * (F32.one - sCol))%f32 in
  let q := (vCol * (F32.one - fh * sCol))%f32 in
  let t := (vCol * (F32.one - (F32.one - fh) * sCol))%f32 in
  let '(r, g, b) :=
    match Z.rem ih 6 with
    | 0 => (vCol, t, p)
    | 1 => (q, vCol, p)
    | 2 => (p, vCol, t)
    | 3 => (p, q, vCol)
    | 4 => (t, p, vCol)
    | 5 => (vCol, p, q)
    | _ => (F32.one, F32.one, F32.one)
    end in
  let c255 := F32.of_int 255 in
  let finalR := to_uint8 (r * solidity * c255)%f32 in
  let finalG := to_uint8 (g * solidity * c255)%f32 in
  let finalB := to_uint8 (b * solidity * c255)%f32 in
  let density := to_uint8 (solidity * c255)%f32 in
  Some (density, finalR, finalG, finalB).

(** What one pass of the innermost loop stores at the voxel, if anything:
    [None] inside stands for the untaken [if (solidity > 0.01f)]. *)
Definition generatedVoxel (wx wy wz seed : Z) : option (option (Z * Z * Z * Z)) :=
  solidity ← solidityAt wx wy wz seed;
  if (solidity >? F32.lit 1 100)%f32
  then v ← solidVoxel wx wy wz seed solidity; Some (Some v)
  else Some None.

(** The body of the innermost loop on the chunk. *)
Definition generateVoxel (cx cy cz seed : Z) (lz ly lx : Z) (chunk : VoxelChunk)
  : option VoxelChunk :=
  let wx := cx * CHUNK_SIZE + lx in
  let wy := cy * CHUNK_SIZE + ly in
  let wz := cz * CHUNK_SIZE + lz in
  gv ← generatedVoxel wx wy wz seed;
  match gv with
  | None => Some chunk
  | Some (density, finalR, finalG, finalB) =>
      let idx := to_size_t (lx + lz * CHUNK_SIZE + ly * CHUNK_SIZE * CHUNK_SIZE) in
      vals ← aset (chunk_value chunk) idx density;
      c0 ← aset (chunk_color chunk) (idx * 3 + 0) finalR;
      c1 ← aset c0 (idx * 3 + 1) finalG;
      c2 ← aset c1 (idx * 3 + 2) finalB;
      Some (set_color (set_value chunk vals) c2)
  end.

(** [for (int i = lo; i < lo + n; i++) s = body(i, s)] on a state that can
    fail. *)
Fixpoint forEach {S} (n : nat) (i : Z) (body : Z -> S -> option S) (s : S) : option S :=
  match n with
  | O => Some s
  | S n' => s' ← body i s; forEach n' (i + 1) body s'
  end.

(** The three nested loops of [generateChunk] over [lz], [ly], [lx]. *)
Definition generateVoxels (cx cy cz seed : Z) (chunk : VoxelChunk) : option VoxelChunk :=
  forEach (Z.to_nat CHUNK_SIZE) 0 (fun lz =>
    forEach (Z.to_nat CHUNK_SIZE) 0 (fun ly =>
      forEach (Z.to_nat CHUNK_SIZE) 0 (fun lx =>
        generateVoxel cx cy cz seed lz ly lx))) chunk.

(** [generateChunk] on the chunk object behind a non-null pointer. *)
Definition generateChunkBody (chunk : VoxelChunk) (cx cy cz seed : Z) : option VoxelChunk :=
  chunk' ← generateVoxels cx cy cz seed chunk;
  '(_, chunk'') ← recomputeChunkSum chunk';
  Some chunk''.

(** [generateChunk(chunk, cx, cy, cz, seed)]; the pointer [chunk] is [None]
    for [nullptr] and the index of a chunk of the world otherwise. *)
Definition generateChunk (world : Voxels) (chunk : option Z) (cx cy cz seed : Z)
  : option Voxels :=
  match chunk with
  | None => Some world
  | Some i =>
      c ← aget (chunks world) i;
      c' ← generateChunkBody c cx cy cz seed;
      Some (set_chunk world i c')
  end.

(** ** Well-formed bounds, chunks and worlds *)

Definition INT_MAX : Z := 2 ^ 31 - 1.

Definition spanX (b : ChunkBounds) : Z := xmax b - xmin b + 1.
Definition spanY (b : ChunkBounds) : Z := ymax b - ymin b + 1.
Definition spanZ (b : ChunkBounds) : Z := zmax b - zmin b + 1.

(** The number of lattice positions inside the bounds. *)
Definition chunkCount (b : ChunkBounds) : Z := spanX b * spanY b * spanZ b.

(** [min <= max] on each axis. *)
Definition ordered (b : ChunkBounds) : Prop :=
  xmin b <= xmax b /\ ymin b <= ymax b /\ zmin b <= zmax b.

(** The extents are computed in [int] without overflow and the chunk count
    is a [size_t]. *)
Definition bounds_ok (b : ChunkBounds) : Prop :=
  ordered b /\
  spanX b <= INT_MAX /\ spanY b <= INT_MAX /\ spanZ b <= INT_MAX /\
  chunkCount b < 2 ^ SIZE_BITS.

Definition inBounds (b : ChunkBounds) (x y z : Z) : Prop :=
  xmin b <= x <= xmax b /\ ymin b <= y <= ymax b /\ zmin b <= z <= zmax b.

(** The row-major position of a chunk coordinate, without wrap-around. *)
Definition flatIndex (b : ChunkBounds) (x y z : Z) : Z :=
  ((x - xmin b) * spanY b + (y - ymin b)) * spanZ b + (z - zmin b).

Definition wf_chunk (c : VoxelChunk) : Prop :=
  Z.of_nat (length (chunk_value c)) = CHUNK_VOXELS /\
  Z.of_nat (length (chunk_color c)) = CHUNK_VOXELS * 3.

(** A world is the dense lattice of chunks over its bounds. *)
Definition wf_world (w : Voxels) : Prop :=
  bounds_ok (bounds w) /\
  Z.of_nat (length (chunks w)) = chunkCount (bounds w) /\
  Forall wf_chunk (chunks w).

(** [isChunkDirty(getChunkAt(world, cx, cy, cz))]; [None] for an absent
    chunk. *)
Definition isDirtyAt (w : Voxels) (cx cy cz : Z) : option bool :=
  i ← getChunkAt w cx cy cz;
  c ← aget (chunks w) i;
  Some (isChunkDirty c).

(** The owning chunk and the local offset of a world voxel coordinate. *)
Definition chunkOf (wx wy wz : Z) : Z * Z * Z :=
  worldPositionToChunkCoordinates wx wy wz.
Definition localOf (wx wy wz : Z) : Z * Z * Z :=
  worldPositionToChunkPosition wx wy wz.

(** ** Dirty propagation, as a table

    The 26 conditional calls of [markChunkDirty] at the end of [setVoxel],
    in source order, each with the condition under which it runs. *)

Definition dirtyTargets (lx ly lz cx cy cz : Z) : list (bool * (Z * Z * Z)) :=
  let lo := 0 in
  let hi := CHUNK_SIZE - 1 in
  [ (lx =? lo, (cx - 1, cy, cz));
    (negb (lx =? lo) && (lx =? hi), (cx + 1, cy, cz));
    (ly =? lo, (cx, cy - 1, cz));
    (negb (ly =? lo) && (ly =? hi), (cx, cy + 1, cz));
    (lz =? lo, (cx, cy, cz - 1));
    (negb (lz =? lo) && (lz =? hi), (cx, cy, cz + 1));
    ((lx =? lo) && (ly =? lo), (cx - 1, cy - 1, cz));
    ((lx =? lo) && (ly =? hi), (cx - 1, cy + 1, cz));
    ((lx =? hi) && (ly =? lo), (cx + 1, cy - 1, cz));
    ((lx =? hi) && (ly =? hi), (cx + 1, cy + 1, cz));
    ((lx =? lo) && (lz =? lo), (cx - 1, cy, cz - 1));
    ((lx =? lo) && (lz =? hi), (cx - 1, cy, cz + 1));
    ((lx =? hi) && (lz =? lo), (cx + 1, cy, cz - 1));
    ((lx =? hi) && (lz =? hi), (cx + 1, cy, cz + 1));
    ((ly =? lo) && (lz =? lo), (cx, cy - 1, cz - 1));
    ((ly =? lo) && (lz =? hi), (cx, cy - 1, cz + 1));
    ((ly =? hi) && (lz =? lo), (cx, cy + 1, cz - 1));
    ((ly =? hi) && (lz =? hi), (cx, cy + 1, cz + 1));
    ((lx =? lo) && (ly =? lo) && (lz =? lo), (cx - 1, cy - 1, cz - 1));
    ((lx =? lo) && (ly =? lo) && (lz =? hi), (cx - 1, cy - 1, cz + 1));
    ((lx =? lo) && (ly =? hi) && (lz =? lo), (cx - 1, cy + 1, cz - 1));
    ((lx =? lo) && (ly =? hi) && (lz =? hi), (cx - 1, cy + 1, cz + 1));
    ((lx =? hi) && (ly =? lo) && (lz =? lo), (cx + 1, cy - 1, cz - 1));
    ((lx =? hi) && (ly =? lo) && (lz =? hi), (cx + 1, cy - 1, cz + 1));
    ((lx =? hi) && (ly =? hi) && (lz =? lo), (cx + 1, cy + 1, cz - 1));
    ((lx =? hi) && (ly =? hi) && (lz =? hi), (cx + 1, cy + 1, cz + 1)) ].

(** Running a table of conditional marks from left to right. *)
Fixpoint markList (ts : list (bool * (Z * Z * Z))) (w : Voxels) : option Voxels :=
  match ts with
  | [] => Some w
  | (c, (x, y, z)) :: ts' => w' ← markIf c x y z w; markList ts' w'
  end.

Definition coord_eqb (p q : Z * Z * Z) : bool :=
  let '(a, b, c) := p in
  let '(x, y, z) := q in
  (a =? x) && (b =? y) && (c =? z).

(** [q] is the target of a call of the table that runs. *)
Definition markedBy (ts : list (bool * (Z * Z * Z))) (q : Z * Z * Z) : bool :=
  existsb (fun t => fst t && coord_eqb q (snd t)) ts.

(** [w] is [w0] with the dirty flag raised on the chunks selected by [S] and
    nothing else changed. *)
Definition marks_rel (w0 w : Voxels) (S : Z * Z * Z -> bool) : Prop :=
  bounds w = bounds w0 /\
  length (chunks w) = length (chunks w0) /\
  forall x y z c0,
    inBounds (bounds w0) x y z ->
    aget (chunks w0) (flatIndex (bounds w0) x y z) = Some c0 ->
    aget (chunks w) (flatIndex (bounds w0) x y z)
    = Some (set_dirtyMesh c0 (chunk_dirtyMesh c0 || S (x, y, z))).

(** The chunk after the stores of [setVoxel] at voxel index [k]. *)
Definition editedChunk (c : VoxelChunk) (k : Z) (prev value r g b : Z) : VoxelChunk :=
  set_dirtyMesh
    (set_sum
       (set_color
          (set_value c (<[Z.to_nat k := value]> (chunk_value c)))
          (<[Z.to_nat (k * 3 + 2) := b]>
             (<[Z.to_nat (k * 3 + 1) := g]>
                (<[Z.to_nat (k * 3 + 0) := r]> (chunk_color c)))))
       (chunk_sum c + (value - prev)))
    true.

(** The seven neighbours across the low faces, edges and corner of the chunk
    [(cx, cy, cz)]: three face-, three edge- and one corner-adjacent. *)
Definition lowNeighbours (cx cy cz : Z) : list (Z * Z * Z) :=
  [ (cx - 1, cy, cz); (cx, cy - 1, cz); (cx, cy, cz - 1);
    (cx - 1, cy - 1, cz); (cx - 1, cy, cz - 1); (cx, cy - 1, cz - 1);
    (cx - 1, cy - 1, cz - 1) ].

Definition interior (a : Z) : bool := (0 <? a) && (a <? CHUNK_SIZE - 1).

(** A local offset on exactly one boundary plane of its chunk, with the
    direction of the face-adjacent neighbour across that plane. *)
Definition pureFace (lx ly lz : Z) : option (Z * Z * Z) :=
  if (lx =? 0) && interior ly && interior lz then Some (-1, 0, 0)
  else if (lx =? CHUNK_SIZE - 1) && interior ly && interior lz then Some (1, 0, 0)
  else if interior lx && (ly =? 0) && interior lz then Some (0, -1, 0)
  else if interior lx && (ly =? CHUNK_SIZE - 1) && interior lz then Some (0, 1, 0)
  else if interior lx && interior ly && (lz =? 0) then Some (0, 0, -1)
  else if interior lx && interior ly && (lz =? CHUNK_SIZE - 1) then Some (0, 0, 1)
  else None.

(** The chunk that owns the world voxel [(wx, wy, wz)] lies within the
    bounds of [w]. *)
Definition ownerInBounds (w : Voxels) (wx wy wz : Z) : Prop :=
  let '(cx, cy, cz) := chunkOf wx wy wz in inBounds (bounds w) cx cy cz.

(** ** The edit history of a world *)

(** The worlds that [initVoxels] followed by any finite sequence of
    [setVoxel] and [generateChunk] calls produces. *)
Inductive reachable : Voxels -> Prop :=
| reach_initVoxels x0 x1 y0 y1 z0 z1 :
    reachable (initVoxels x0 x1 y0 y1 z0 z1)
| reach_setVoxel w wx wy wz value r g b w' :
    reachable w ->
    is_uint8 value -> is_uint8 r -> is_uint8 g -> is_uint8 b ->
    setVoxel w wx wy wz value r g b = Some w' ->
    reachable w'
| reach_generateChunk w chunk cx cy cz seed w' :
    reachable w ->
    generateChunk w chunk cx cy cz seed = Some w' ->
    reachable w'.

(** The sum of the elements of an array. *)
Definition sumZ (l : list Z) : Z := foldr Z.add 0 l.

(** The stored [sum] of a chunk is what [recomputeChunkSum] computes. *)
Definition sum_ok (c : VoxelChunk) : Prop :=
  sumValues (Z.to_nat CHUNK_VOXELS) 0 (chunk_value c) 0 = Some (chunk_sum c).

(** ** Interpolation on the sample grid, checked by evaluation *)

Definition zrange (n : nat) : list Z := List.map Z.of_nat (List.seq 0 n).

(** The densities lie on opposite sides of the iso level. *)
Definition straddles (va vb : Z) : bool :=
  ((va <? ISOLEVEL) && (ISOLEVEL <=? vb)) || ((vb <? ISOLEVEL) && (ISOLEVEL <=? va)).

(** [p] is a number (not NaN, not infinite) with [lo <= p <= hi]. *)
Definition betweenF (lo hi p : f32) : bool :=
  F32.is_finite p && F32.leb lo p && F32.leb p hi.

Definition stepInUnit (t : f32) : bool := betweenF F32.zero F32.one t.

(** The unit edges [k, k+1] of the 17-point sample grid along one axis. *)
Definition gridEdges : list (f32 * f32) :=
  List.map (fun k => (F32.of_int k, F32.of_int (k + 1))) (zrange 16).

(** Moving by [t] from either end of every unit edge stays on the edge. *)
Definition unitMoves (edges : list (f32 * f32)) (t : f32) : bool :=
  let up := F32.mul t (F32.of_int 1) in
  let down := F32.mul t (F32.of_int (-1)) in
  forallb (fun e : f32 * f32 =>
             betweenF (fst e) (snd e) (F32.add (fst e) up)
             && betweenF (fst e) (snd e) (F32.add (snd e) down)) edges.

Definition interpolateCheckAt (edges : list (f32 * f32)) (va vb : Z) : bool :=
  let t := interpolateStep va vb in
  stepInUnit t
  && (if straddles va vb || (va =? vb) then unitMoves edges t else true).

(** Bit-for-bit equality of two floats, as a boolean. *)
Definition sameFloat (a b : f32) : bool :=
  match a, b with
  | S754_zero s, S754_zero s' => Bool.eqb s s'
  | S754_infinity s, S754_infinity s' => Bool.eqb s s'
  | S754_nan, S754_nan => true
  | S754_finite s m e, S754_finite s' m' e' => Bool.eqb s s' && (m =? m')%positive && (e =? e')
  | _, _ => false
  end.

(** A key under which a parameter is remembered once it has passed
    [unitMoves]; equal parameters have equal keys. *)
Definition keyOf (t : f32) : positive :=
  match t with
  | S754_finite _ m e => (m * 256 + Z.to_pos (e + 200))%positive
  | _ => 1%positive
  end.

(** [unitMoves] for the parameter [t]: looked up among the parameters [seen]
    that passed before, evaluated otherwise; [None] when it fails. *)
Definition checkMoves (edges : list (f32 * f32)) (seen : FMapPositive.PositiveMap.t f32)
           (t : f32) : option (FMapPositive.PositiveMap.t f32) :=
  match FMapPositive.PositiveMap.find (keyOf t) seen with
  | Some v =>
      if sameFloat v t then Some seen
      else if unitMoves edges t then Some seen else None
  | None =>
      if unitMoves edges t
      then Some (FMapPositive.PositiveMap.add (keyOf t) t seen) else None
  end.

(** [interpolateCheckAt] over a list of density pairs, with [unitMoves]
    evaluated once per distinct parameter. *)
Fixpoint interpolateCheckAll (edges : list (f32 * f32)) (pairs : list (Z * Z))
         (seen : FMapPositive.PositiveMap.t f32) : bool :=
  match pairs with
  | [] => true
  | (va, vb) :: rest =>
      let t := interpolateStep va vb in
      stepInUnit t
      && (if straddles va vb || (va =? vb)
          then match checkMoves edges seen t with
               | Some seen' => interpolateCheckAll edges rest seen'
               | None => false
               end
          else interpolateCheckAll edges rest seen)
  end.

(** All pairs of 8-bit densities. *)
Definition densityPairs : list (Z * Z) := list_prod (zrange 256) (zrange 256).

(** The arithmetic of the grid coordinates [0..16] that [lerp] performs
    around the multiplication by the parameter. *)
Definition gridArithmeticAt (k : Z) : bool :=
  let fk := F32.of_int k in
  let fk1 := F32.of_int (k + 1) in
  sameFloat (F32.sub fk fk) (S754_zero false)
  && sameFloat (F32.add fk (S754_zero false)) fk
  && sameFloat (F32.add fk (S754_zero true)) fk
  && betweenF fk fk fk
  && sameFloat (F32.sub fk1 fk) (F32.of_int 1)
  && sameFloat (F32.sub fk fk1) (F32.of_int (-1)).

(** [b] is [a] or a neighbour of [a] on the sample grid axis [0..16]. *)
Definition adjacent (a b : Z) : Prop :=
  0 <= a <= CHUNK_SIZE /\ 0 <= b <= CHUNK_SIZE /\ -1 <= b - a <= 1.

(** The coordinate [p] computed between the corner coordinates [a] and [b]:
    a number between them, and [a] itself when they coincide. *)
Definition onAxis (a b : Z) (p : f32) : Prop :=
  betweenF (F32.of_int (Z.min a b)) (F32.of_int (Z.max a b)) p = true /\
  (a = b -> p = F32.of_int a).

(** ** Worlds described by their densities *)

(** The density that [getVoxel] reports. *)
Definition densityAt (w : Voxels) (x y z : Z) : option Z :=
  '(value, _, _, _) ← getVoxel w x y z; Some value.

(** The density is 255 at the voxel [p] and 0 at every other coordinate. *)
Definition onlySolidAt (w : Voxels) (p : Z * Z * Z) : Prop :=
  forall x y z, densityAt w x y z = Some (if decide ((x, y, z) = p) then 255 else 0).

(** Every chunk of the world stores the sum of its densities. *)
Definition sums_ok (w : Voxels) : Prop :=
  forall i c, aget (chunks w) i = Some c -> sum_ok c.

(** The local offset stored at position [k] of a chunk's density array. *)
Definition offsetOfIndex (k : Z) : Z * Z * Z :=
  (k mod CHUNK_SIZE, k / (CHUNK_SIZE * CHUNK_SIZE), (k / CHUNK_SIZE) mod CHUNK_SIZE).

(** ** Reading whole voxels of a chunk *)

(** The density and colour stored at position [k] of a chunk. *)
Definition voxelOf (c : VoxelChunk) (k : Z) : option (Z * Z * Z * Z) :=
  value ← aget (chunk_value c) k;
  r ← aget (chunk_color c) (k * 3 + 0);
  g ← aget (chunk_color c) (k * 3 + 1);
  b ← aget (chunk_color c) (k * 3 + 2);
  Some (value, r, g, b).

(** The turn of array position [k] in the loops of [generateChunk], which
    run over [lz], then [ly], then [lx]. *)
Definition turnOf (k : Z) : Z :=
  let '(lx, ly, lz) := offsetOfIndex k in (lz * CHUNK_SIZE + ly) * CHUNK_SIZE + lx.

(** What [generateChunk] leaves at position [k] of a chunk with coordinate
    [(cx, cy, cz)]: the generated voxel where the solidity exceeds 0.01, the
    voxel that was there otherwise. *)
Definition generatedOrKept (c : VoxelChunk) (cx cy cz seed : Z) (k : Z)
  : option (Z * Z * Z * Z) :=
  let '(lx, ly, lz) := offsetOfIndex k in
  match generatedVoxel (cx * CHUNK_SIZE + lx) (cy * CHUNK_SIZE + ly)
                       (cz * CHUNK_SIZE + lz) seed with
  | Some (Some v) => Some v
  | _ => voxelOf c k
  end.

(** The loops of [generateChunk] have reached turn [pos]: the positions
    before it hold what the call leaves there, the others what the chunk [c]
    held at the start. *)
Definition generatedUpTo (c : VoxelChunk) (cx cy cz seed : Z) (pos : Z) (c' : VoxelChunk)
  : Prop :=
  wf_chunk c' /\
  forall k, 0 <= k < CHUNK_VOXELS ->
    voxelOf c' k = if turnOf k <? pos then generatedOrKept c cx cy cz seed k
                   else voxelOf c k.

(** ** Total correctness of mesher computations *)

(** [hoare P c Q]: from every memory that satisfies [P], the computation [c]
    returns, with a result and a memory that satisfy [Q]. *)
Definition hoare {A} (P : Memory -> Prop) (c : M A) (Q : A -> Memory -> Prop) : Prop :=
  forall m, P m -> exists a m', c m = Some (a, m') /\ Q a m'.

(** The scratch buffers have their declared sizes: [samples[8]],
    [edgePoints[12]] and the grid of 17 x 17 x 17 samples. *)
Definition scratch_ok (m : Memory) : Prop :=
  Z.of_nat (length (mem_samples m)) = 8 /\
  Z.of_nat (length (mem_edgePoints m)) = 12 /\
  Z.of_nat (length (grid_values (mem_gridBuffer m)))
  = SAMPLE_GRID_SIZE * SAMPLE_GRID_SIZE * SAMPLE_GRID_SIZE /\
  Z.of_nat (length (grid_colors (mem_gridBuffer m)))
  = SAMPLE_GRID_SIZE * SAMPLE_GRID_SIZE * SAMPLE_GRID_SIZE * 3.

(** The geometry buffers hold the worst case of 15 vertices per voxel. *)
Definition presized (g : ChunkGeometry) : Prop :=
  CHUNK_GEOMETRY_WORST_CASE_POSITIONS_COMPONENTS <= Z.of_nat (length (positions g)) /\
  CHUNK_GEOMETRY_WORST_CASE_NORMALS_COMPONENTS <= Z.of_nat (length (normals g)) /\
  CHUNK_GEOMETRY_WORST_CASE_COLORS_COMPONENTS <= Z.of_nat (length (colors g)).

(** A buffer with [cnt] appended elements: it has kept its length, and its
    elements from [cnt] on are those of the buffer [a0] it started from. *)
Definition bufAt (a0 : list f32) (cnt : Z) (a : list f32) : Prop :=
  0 <= cnt /\ length a = length a0 /\ forall j, cnt <= j -> aget a j = aget a0 j.

(** The geometry [g] holds [p], [n] and [c] appended components over the
    buffers of [g0]. *)
Definition geomAt (g0 : ChunkGeometry) (p n c : Z) (g : ChunkGeometry) : Prop :=
  positionsCount g = p /\ normalsCount g = n /\ colorsCount g = c /\
  positionsCapacity g = positionsCapacity g0 /\
  normalsCapacity g = normalsCapacity g0 /\
  colorsCapacity g = colorsCapacity g0 /\
  bufAt (positions g0) p (positions g) /\
  bufAt (normals g0) n (normals g) /\
  bufAt (colors g0) c (colors g).

(** The memory during [mesh] started from [m0]: the world is that of [m0]. *)
Definition meshMem (m0 : Memory) (p n c : Z) (m : Memory) : Prop :=
  mem_world m = mem_world m0 /\ scratch_ok m /\ geomAt (mem_out m0) p n c (mem_out m).

(** Each row of [triTable] ends a triangle list before entry 16: at a start
    [i] of a triple the entry is -1, or [i < 15] and the three entries name
    edges. *)
Definition triCheck (cubeIndex i : Z) : bool :=
  match triEntry cubeIndex i with
  | Some e =>
      if e =? -1 then true
      else if i =? 15 then false
      else match triEntry cubeIndex (i + 1), triEntry cubeIndex (i + 2) with
           | Some e1, Some e2 =>
               (0 <=? e) && (e <? 12) && (0 <=? e1) && (e1 <? 12)
               && (0 <=? e2) && (e2 <? 12)
           | _, _ => false
           end
  | None => false
  end.

(** At most 45 components per buffer and cell have been appended when the
    marching loops are at cell number [t]. *)
Definition marched (m0 : Memory) (t : Z) (m : Memory) : Prop :=
  exists k, 0 <= k <= 45 * t /\ meshMem m0 k k k m.

(** The memory before the first call of [mesh] on the world [w]: the static
    scratch buffers are zero-initialised and the geometry comes from
    [allocateChunkGeometry]. *)
Definition initialMemory (w : Voxels) : Memory :=
  let origin := mkVec3 F32.zero F32.zero F32.zero in
  mkMemory w allocateChunkGeometry
           (replicate 8 (mkSample origin 0 0 0 0))
           (replicate 12 (mkEdgePoint origin F32.zero F32.zero F32.zero))
           (mkSampleGrid
              (replicate (Z.to_nat (SAMPLE_GRID_SIZE * SAMPLE_GRID_SIZE * SAMPLE_GRID_SIZE)) 0)
              (replicate (Z.to_nat (SAMPLE_GRID_SIZE * SAMPLE_GRID_SIZE * SAMPLE_GRID_SIZE * 3))
                         0)).

(** ** Chunks touched by an edit *)

(** The side of the chunk on which a local coordinate lies: -1 on the low
    boundary plane, 1 on the high one, 0 inside. *)
Definition sideOf (l : Z) : Z :=
  if l =? 0 then -1 else if l =? CHUNK_SIZE - 1 then 1 else 0.

(** The chunks that contain or border the voxel at local offset
    [(lx, ly, lz)] of chunk [(cx, cy, cz)]: per axis the chunk itself or its
    neighbour on the side of the voxel. *)
Definition touched (lx ly lz cx cy cz : Z) : list (Z * Z * Z) :=
  [ (cx, cy, cz);
    (cx + sideOf lx, cy, cz); (cx, cy + sideOf ly, cz); (cx, cy, cz + sideOf lz);
    (cx + sideOf lx, cy + sideOf ly, cz); (cx + sideOf lx, cy, cz + sideOf lz);
    (cx, cy + sideOf ly, cz + sideOf lz);
    (cx + sideOf lx, cy + sideOf ly, cz + sideOf lz) ].

(** ** What identifies a chunk *)

(** The fields of a chunk that are set once by [initVoxels]: its id and its
    chunk coordinate. *)
Definition identityOf (c : VoxelChunk) : Z * (Z * Z * Z) :=
  (chunk_id c, (chunk_x c, chunk_y c, chunk_z c)).

(** ** Normals the raycaster can report *)


(** ** Finite vectors *)

(** Every component of the vector is a number (not NaN, not infinite). *)
Definition vecFinite (v : Vec3) : bool :=
  F32.is_finite (vec_x v) && F32.is_finite (vec_y v) && F32.is_finite (vec_z v).

(** [c - b], component by component. *)
Definition vecSub (c b : Vec3) : Vec3 :=
  mkVec3 (vec_x c - vec_x b)%f32 (vec_y c - vec_y b)%f32 (vec_z c - vec_z b)%f32.

(** ** Chunks without a surface *)

(** Every corner sample that [mesh] takes for the chunk (its own voxels and
    the first layer beyond its high faces) is on the same side of the iso
    level: solid when [solid], empty otherwise. *)
Definition cornersSide (solid : bool) (w : Voxels) (c : VoxelChunk) : Prop :=
  forall lx ly lz,
    0 <= lx < SAMPLE_GRID_SIZE -> 0 <= ly < SAMPLE_GRID_SIZE -> 0 <= lz < SAMPLE_GRID_SIZE ->
    exists v r g b, getVoxelRelative w c lx ly lz = Some (v, r, g, b)
                    /\ (v >=? ISOLEVEL) = solid.

(** The first [pos] densities of the sample grid are on that side. *)
Definition gridSide (solid : bool) (pos : Z) (m : Memory) : Prop :=
  forall j, 0 <= j < pos ->
    exists v, aget (grid_values (mem_gridBuffer m)) j = Some v /\ (v >=? ISOLEVEL) = solid.

(** The first [n] of the eight cell samples are on that side. *)
Definition samplesSide (solid : bool) (n : Z) (m : Memory) : Prop :=
  forall j, 0 <= j < n ->
    exists s, aget (mem_samples m) j = Some s /\ (sample_value s >=? ISOLEVEL) = solid.

(** * Properties *)

(** ** Machine integers and coordinates *)

Lemma size_wrap_small n : 0 <= n < 2 ^ SIZE_BITS -> size_wrap n = n.
Proof. intros H. unfold size_wrap. now apply Z.mod_small. Qed.

Lemma to_int_small n : 0 <= n <= INT_MAX -> to_int n = n.
Proof.
  unfold to_int, INT_MAX. intros H.
  rewrite Z.mod_small by lia. lia.
Qed.

Lemma inBounds_guard b x y z :
  inBounds b x y z <->
  ((x <? xmin b) || (x >? xmax b) || (y <? ymin b) || (y >? ymax b)
   || (z <? zmin b) || (z >? zmax b)) = false.
Proof.
  unfold inBounds. rewrite !orb_false_iff, !Z.ltb_ge, !Z.gtb_ltb, !Z.ltb_ge. lia.
Qed.

Lemma chunkCoordinateToIndex_None b x y z :
  chunkCoordinateToIndex x y z b = None <-> ~ inBounds b x y z.
Proof.
  rewrite inBounds_guard. unfold chunkCoordinateToIndex.
  destruct (_ || _); split; intros H; congruence.
Qed.

Lemma chunkCoordinateToIndex_inBounds b x y z i :
  chunkCoordinateToIndex x y z b = Some i -> inBounds b x y z.
Proof.
  intros H. apply inBounds_guard. unfold chunkCoordinateToIndex in H.
  destruct (_ || _); [discriminate | reflexivity].
Qed.

Lemma flatIndex_range b x y z :
  bounds_ok b -> inBounds b x y z -> 0 <= flatIndex b x y z < chunkCount b.
Proof.
  unfold bounds_ok, ordered, inBounds, flatIndex, chunkCount, spanX, spanY, spanZ.
  intros (Ho & _) Hin.
  set (a := x - xmin b). set (c := y - ymin b). set (d := z - zmin b).
  set (sx := xmax b - xmin b + 1). set (sy := ymax b - ymin b + 1).
  set (sz := zmax b - zmin b + 1).
  assert (0 <= a < sx /\ 0 <= c < sy /\ 0 <= d < sz) as (Ha & Hc & Hd) by lia.
  assert (0 <= a * sy + c < sx * sy) by nia.
  nia.
Qed.

Lemma mixed_radix_unique s a d a' d' :
  0 <= d < s -> 0 <= d' < s -> a * s + d = a' * s + d' -> a = a' /\ d = d'.
Proof.
  intros Hd Hd' Heq.
  assert (a = a') as ->.
  { destruct (Z.lt_trichotomy a a') as [H | [H | H]]; [exfalso | assumption | exfalso].
    - assert ((a + 1) * s <= a' * s) by (apply Z.mul_le_mono_nonneg_r; lia). lia.
    - assert ((a' + 1) * s <= a * s) by (apply Z.mul_le_mono_nonneg_r; lia). lia. }
  split; [reflexivity | lia].
Qed.

Lemma flatIndex_inj b x y z x' y' z' :
  bounds_ok b -> inBounds b x y z -> inBounds b x' y' z' ->
  flatIndex b x y z = flatIndex b x' y' z' -> (x, y, z) = (x', y', z').
Proof.
  unfold bounds_ok, ordered, inBounds, flatIndex, spanX, spanY, spanZ.
  intros (Ho & _) Hin Hin' Heq.
  apply mixed_radix_unique in Heq as (Hxy & Hz); [| lia | lia].
  apply mixed_radix_unique in Hxy as (Hx & Hy); [| lia | lia].
  f_equal; [f_equal |]; lia.
Qed.

Lemma chunkCoordinateToIndex_flat b x y z :
  bounds_ok b -> inBounds b x y z ->
  chunkCoordinateToIndex x y z b = Some (flatIndex b x y z).
Proof.
  intros Hok Hin.
  pose proof (flatIndex_range b x y z Hok Hin) as Hr.
  unfold chunkCoordinateToIndex.
  rewrite (proj1 (inBounds_guard b x y z) Hin).
  destruct Hok as ((Hx & Hy & Hz) & Sx & Sy & Sz & Hc).
  unfold flatIndex, chunkCount, spanX, spanY, spanZ, inBounds, INT_MAX in *.
  set (sx := xmax b - xmin b + 1) in *. set (sy := ymax b - ymin b + 1) in *.
  set (sz := zmax b - zmin b + 1) in *.
  set (a := x - xmin b) in *. set (c := y - ymin b) in *. set (d := z - zmin b) in *.
  assert (0 <= a < sx /\ 0 <= c < sy /\ 0 <= d < sz) as (Ha & Hc' & Hd) by lia.
  assert (0 <= a * sy + c < sx * sy) by nia.
  assert (0 <= a * sy <= a * sy + c) by nia.
  assert (sx * sy <= sx * sy * sz) by nia.
  assert (0 <= (a * sy + c) * sz <= (a * sy + c) * sz + d) by nia.
  unfold size_add, size_mul, to_size_t.
  rewrite !(size_wrap_small a), !(size_wrap_small c), !(size_wrap_small d),
    !(size_wrap_small sy), !(size_wrap_small sz) by (unfold SIZE_BITS in *; lia).
  rewrite (size_wrap_small (a * sy)) by lia.
  rewrite (size_wrap_small (a * sy + c)) by lia.
  rewrite (size_wrap_small ((a * sy + c) * sz)) by lia.
  rewrite size_wrap_small by lia.
  reflexivity.
Qed.

Lemma totalChunks_count b : bounds_ok b -> totalChunks b = chunkCount b.
Proof.
  intros ((Hx & Hy & Hz) & Sx & Sy & Sz & Hc).
  unfold totalChunks, chunkCount, size_mul, to_size_t, spanX, spanY, spanZ, INT_MAX in *.
  set (sx := xmax b - xmin b + 1) in *. set (sy := ymax b - ymin b + 1) in *.
  set (sz := zmax b - zmin b + 1) in *.
  assert (1 <= sx /\ 1 <= sy /\ 1 <= sz) as (Hsx & Hsy & Hsz) by lia.
  assert (0 <= sx * sy <= sx * sy * sz) by nia.
  rewrite !(size_wrap_small sx), !(size_wrap_small sy), !(size_wrap_small sz)
    by (unfold SIZE_BITS in *; lia).
  rewrite (size_wrap_small (sx * sy)) by lia.
  apply size_wrap_small. lia.
Qed.

Lemma chunkIndexToCoordinate_flat b x y z :
  bounds_ok b -> inBounds b x y z ->
  chunkIndexToCoordinate (flatIndex b x y z) b = (x, y, z).
Proof.
  intros Hok Hin.
  destruct Hok as ((Hx & Hy & Hz) & Sx & Sy & Sz & Hc).
  unfold chunkIndexToCoordinate, flatIndex, chunkCount, spanX, spanY, spanZ,
    inBounds, INT_MAX, size_mul, to_size_t in *.
  set (sx := xmax b - xmin b + 1) in *. set (sy := ymax b - ymin b + 1) in *.
  set (sz := zmax b - zmin b + 1) in *.
  set (a := x - xmin b) in *. set (c := y - ymin b) in *. set (d := z - zmin b) in *.
  assert (0 <= a < sx /\ 0 <= c < sy /\ 0 <= d < sz) as (Ha & Hc' & Hd) by lia.
  assert (1 <= sy * sz <= sx * sy * sz) by nia.
  assert (0 <= c * sz + d < sy * sz) by nia.
  rewrite !(size_wrap_small sy), !(size_wrap_small sz) by (unfold SIZE_BITS in *; lia).
  rewrite (size_wrap_small (sy * sz)) by lia.
  set (i := (a * sy + c) * sz + d).
  assert (i / (sy * sz) = a) as ->
    by (symmetry; apply Z.div_unique with (c * sz + d); subst i; lia).
  assert (i mod (sy * sz) = c * sz + d) as ->
    by (symmetry; apply Z.mod_unique with a; subst i; lia).
  assert ((c * sz + d) / sz = c) as ->
    by (symmetry; apply Z.div_unique with d; lia).
  assert ((c * sz + d) mod sz = d) as ->
    by (symmetry; apply Z.mod_unique with c; lia).
  rewrite !to_int_small by (unfold INT_MAX; lia).
  subst a c d. f_equal; [f_equal |]; lia.
Qed.

Lemma coordinate_of_index b i :
  bounds_ok b -> 0 <= i < chunkCount b ->
  exists x y z, chunkIndexToCoordinate i b = (x, y, z) /\
                inBounds b x y z /\ flatIndex b x y z = i.
Proof.
  intros Hok Hi.
  destruct Hok as ((Hx & Hy & Hz) & Sx & Sy & Sz & Hc).
  unfold chunkIndexToCoordinate, flatIndex, chunkCount, spanX, spanY, spanZ,
    inBounds, INT_MAX, size_mul, to_size_t in *.
  set (sx := xmax b - xmin b + 1) in *. set (sy := ymax b - ymin b + 1) in *.
  set (sz := zmax b - zmin b + 1) in *.
  assert (1 <= sx /\ 1 <= sy /\ 1 <= sz) as (Hsx & Hsy & Hsz) by lia.
  assert (1 <= sy * sz <= sx * sy * sz) by nia.
  rewrite !(size_wrap_small sy), !(size_wrap_small sz) by (unfold SIZE_BITS in *; lia).
  rewrite (size_wrap_small (sy * sz)) by lia.
  set (p := sy * sz) in *.
  pose proof (Z.div_mod i p ltac:(lia)) as Hdm.
  pose proof (Z.mod_pos_bound i p ltac:(lia)) as Hm.
  set (rem := i mod p) in *. set (q := i / p) in *.
  pose proof (Z.div_mod rem sz ltac:(lia)) as Hdm2.
  pose proof (Z.mod_pos_bound rem sz ltac:(lia)) as Hm2.
  set (oz := rem mod sz) in *. set (oy := rem / sz) in *.
  assert (0 <= q < sx) by (subst p; nia).
  assert (0 <= oy < sy) by (subst p; nia).
  rewrite !to_int_small by (unfold INT_MAX; lia).
  eexists _, _, _. split; [reflexivity |]. split; [lia |].
  replace (q + xmin b - xmin b) with q by lia.
  replace (oy + ymin b - ymin b) with oy by lia.
  replace (oz + zmin b - zmin b) with oz by lia.
  subst p. nia.
Qed.
(** ** Arrays *)

Lemma aget_lookup {A} (a : list A) i : 0 <= i -> aget a i = a !! Z.to_nat i.
Proof.
  intros H. unfold aget. destruct (Z.ltb_spec i 0) as [Hlt | Hge]; [lia | reflexivity].
Qed.

Lemma aget_Some_range {A} (a : list A) i v :
  aget a i = Some v -> 0 <= i < Z.of_nat (length a).
Proof.
  unfold aget. destruct (Z.ltb_spec i 0) as [Hlt | Hge]; [discriminate |].
  intros Hl%lookup_lt_Some. lia.
Qed.

Lemma aget_in_range {A} (a : list A) i :
  0 <= i < Z.of_nat (length a) -> exists v, aget a i = Some v.
Proof.
  intros H. rewrite aget_lookup by lia.
  apply lookup_lt_is_Some_2. lia.
Qed.

Lemma aset_in_range {A} (a : list A) i v :
  0 <= i < Z.of_nat (length a) -> aset a i v = Some (<[Z.to_nat i := v]> a).
Proof.
  intros H. unfold aset.
  destruct (Z.leb_spec 0 i) as [H0 | H0]; [| lia].
  destruct (Z.ltb_spec i (Z.of_nat (length a))) as [H1 | H1]; [| lia].
  reflexivity.
Qed.

Lemma aget_insert_eq {A} (a : list A) i v :
  0 <= i < Z.of_nat (length a) -> aget (<[Z.to_nat i := v]> a) i = Some v.
Proof.
  intros H. rewrite aget_lookup by lia. apply list_lookup_insert_eq. lia.
Qed.

Lemma aget_insert_ne {A} (a : list A) i j v :
  0 <= i -> 0 <= j -> i <> j -> aget (<[Z.to_nat i := v]> a) j = aget a j.
Proof.
  intros Hi Hj Hne. rewrite !aget_lookup by lia.
  apply list_lookup_insert_ne. lia.
Qed.

(** ** Local offsets and voxel indices *)

Lemma land_mask_range w : 0 <= Z.land w CHUNK_MASK < CHUNK_SIZE.
Proof.
  change CHUNK_MASK with (Z.ones 4). change CHUNK_SIZE with (2 ^ 4).
  rewrite Z.land_ones by lia. apply Z.mod_pos_bound. lia.
Qed.

Lemma getVoxelIndex_small lx ly lz :
  0 <= lx < CHUNK_SIZE -> 0 <= ly < CHUNK_SIZE -> 0 <= lz < CHUNK_SIZE ->
  getVoxelIndex lx ly lz = lx + lz * 16 + ly * 256 /\
  0 <= getVoxelIndex lx ly lz < CHUNK_VOXELS.
Proof.
  change CHUNK_SIZE with 16. change CHUNK_VOXELS with 4096. intros Hx Hy Hz.
  unfold getVoxelIndex, size_add, size_mul, to_size_t. change CHUNK_SIZE with 16.
  rewrite !(size_wrap_small lx), !(size_wrap_small ly), !(size_wrap_small lz)
    by (unfold SIZE_BITS; lia).
  rewrite (size_wrap_small (lz * 16)), (size_wrap_small (ly * 16)) by (unfold SIZE_BITS; lia).
  rewrite (size_wrap_small (lx + lz * 16)), (size_wrap_small (ly * 16 * 16))
    by (unfold SIZE_BITS; lia).
  rewrite size_wrap_small by (unfold SIZE_BITS; lia).
  lia.
Qed.

(** ** Marking chunks dirty *)

Lemma set_dirtyMesh_id c : set_dirtyMesh c (chunk_dirtyMesh c || false) = c.
Proof. destruct c. unfold set_dirtyMesh. simpl. now rewrite orb_false_r. Qed.

Lemma set_dirtyMesh_twice c d d' : set_dirtyMesh (set_dirtyMesh c d) d' = set_dirtyMesh c d'.
Proof. reflexivity. Qed.

Lemma coord_eqb_eq p q : coord_eqb p q = true <-> p = q.
Proof.
  destruct p as [[a b] c], q as [[x y] z]. unfold coord_eqb.
  rewrite !andb_true_iff, !Z.eqb_eq. split.
  - intros [[-> ->] ->]. reflexivity.
  - intros [= -> -> ->]. auto.
Qed.

Lemma marks_rel_refl w : marks_rel w w (fun _ => false).
Proof.
  repeat split. intros x y z c0 _ H. now rewrite set_dirtyMesh_id.
Qed.

Lemma marks_rel_ext w0 w S S' :
  (forall q, S q = S' q) -> marks_rel w0 w S -> marks_rel w0 w S'.
Proof.
  intros HS (Hb & Hl & H). repeat split; try assumption.
  intros x y z c0 Hin Hc. rewrite <- HS. now apply H.
Qed.

Lemma markChunkDirty_rel w0 w S x y z :
  bounds_ok (bounds w0) ->
  Z.of_nat (length (chunks w0)) = chunkCount (bounds w0) ->
  marks_rel w0 w S ->
  exists w', markChunkDirty w x y z = Some w' /\
             marks_rel w0 w' (fun q => S q || coord_eqb q (x, y, z)).
Proof.
  intros Hok Hlen (Hb & Hl & H). unfold markChunkDirty. rewrite Hb.
  destruct (chunkCoordinateToIndex x y z (bounds w0)) as [i |] eqn:Hi.
  - pose proof (chunkCoordinateToIndex_inBounds _ _ _ _ _ Hi) as Hin.
    rewrite chunkCoordinateToIndex_flat in Hi by assumption. injection Hi as <-.
    pose proof (flatIndex_range _ _ _ _ Hok Hin) as Hr.
    destruct (aget_in_range (chunks w0) (flatIndex (bounds w0) x y z)) as [c0 Hc0]; [lia |].
    rewrite (H _ _ _ _ Hin Hc0). simpl.
    eexists. split; [reflexivity |].
    split; [assumption |]. split; [simpl; now rewrite length_insert |].
    intros x' y' z' c1 Hin' Hc1. cbv beta. simpl chunks.
    pose proof (flatIndex_range _ _ _ _ Hok Hin') as Hr'.
    destruct (Z.eq_dec (flatIndex (bounds w0) x y z) (flatIndex (bounds w0) x' y' z'))
      as [Heq | Hne].
    + rewrite <- Heq in *. rewrite aget_insert_eq by lia.
      apply flatIndex_inj in Heq; try assumption. injection Heq as <- <- <-.
      assert (c1 = c0) as -> by congruence.
      rewrite (proj2 (coord_eqb_eq (x, y, z) (x, y, z)) eq_refl), !orb_true_r.
      reflexivity.
    + rewrite aget_insert_ne by lia. rewrite (H _ _ _ _ Hin' Hc1).
      destruct (coord_eqb (x', y', z') (x, y, z)) eqn:E.
      * apply coord_eqb_eq in E. injection E as -> -> ->. congruence.
      * now rewrite orb_false_r.
  - apply chunkCoordinateToIndex_None in Hi.
    eexists. split; [reflexivity |].
    split; [assumption |]. split; [assumption |].
    intros x' y' z' c1 Hin' Hc1. cbv beta. rewrite (H _ _ _ _ Hin' Hc1).
    destruct (coord_eqb (x', y', z') (x, y, z)) eqn:E.
    + apply coord_eqb_eq in E. injection E as -> -> ->. contradiction.
    + now rewrite orb_false_r.
Qed.

Lemma markList_rel ts : forall w0 w S,
  bounds_ok (bounds w0) ->
  Z.of_nat (length (chunks w0)) = chunkCount (bounds w0) ->
  marks_rel w0 w S ->
  exists w', markList ts w = Some w' /\
             marks_rel w0 w' (fun q => S q || markedBy ts q).
Proof.
  induction ts as [| [c [[x y] z]] ts IH]; intros w0 w S Hok Hlen Hrel.
  - exists w. split; [reflexivity |].
    eapply marks_rel_ext; [| exact Hrel]. intros q. simpl. now rewrite orb_false_r.
  - simpl. destruct c; simpl.
    + destruct (markChunkDirty_rel w0 w S x y z Hok Hlen Hrel) as (w1 & -> & Hrel1).
      simpl. destruct (IH w0 w1 _ Hok Hlen Hrel1) as (w' & -> & Hrel').
      exists w'. split; [reflexivity |].
      eapply marks_rel_ext; [| exact Hrel']. intros q. simpl. now rewrite orb_assoc.
    + destruct (IH w0 w S Hok Hlen Hrel) as (w' & -> & Hrel').
      exists w'. split; [reflexivity |]. exact Hrel'.
Qed.

Lemma markIfElse_markIf c1 a b c c2 a' b' c' w :
  markIfElse c1 (a, b, c) c2 (a', b', c') w
  = (w' ← markIf c1 a b c w; markIf (negb c1 && c2) a' b' c' w').
Proof.
  destruct c1, c2; simpl; try reflexivity; now destruct (markChunkDirty w a b c).
Qed.

Lemma propagateDirty_markList lx ly lz cx cy cz w :
  propagateDirty lx ly lz cx cy cz w = markList (dirtyTargets lx ly lz cx cy cz) w.
Proof.
  unfold propagateDirty, dirtyTargets, markList.
  repeat first
    [ rewrite markIfElse_markIf
    | match goal with
      | |- context [markIf ?c ?x ?y ?z ?v ≫= _] =>
          destruct (markIf c x y z v); simpl; [| reflexivity]
      end ].
  reflexivity.
Qed.

Lemma wf_world_chunk w i c : wf_world w -> aget (chunks w) i = Some c -> wf_chunk c.
Proof.
  intros (_ & _ & Hall) Hc.
  rewrite aget_lookup in Hc by (apply aget_Some_range in Hc; lia).
  rewrite Forall_lookup in Hall. eauto.
Qed.

Lemma setVoxel_spec w wx wy wz v r g b cx cy cz lx ly lz :
  wf_world w ->
  chunkOf wx wy wz = (cx, cy, cz) ->
  localOf wx wy wz = (lx, ly, lz) ->
  inBounds (bounds w) cx cy cz ->
  exists c0 prev w',
    aget (chunks w) (flatIndex (bounds w) cx cy cz) = Some c0 /\
    aget (chunk_value c0) (getVoxelIndex lx ly lz) = Some prev /\
    setVoxel w wx wy wz v r g b = Some w' /\
    marks_rel (set_chunk w (flatIndex (bounds w) cx cy cz)
                         (editedChunk c0 (getVoxelIndex lx ly lz) prev v r g b))
              w' (markedBy (dirtyTargets lx ly lz cx cy cz)).
Proof.
  intros Hwf HC HL Hin. pose proof Hwf as (Hok & Hlen & Hall).
  unfold chunkOf in HC. unfold localOf in HL. unfold setVoxel. rewrite HC, HL.
  rewrite chunkCoordinateToIndex_flat by assumption.
  pose proof (flatIndex_range _ _ _ _ Hok Hin) as Hr.
  destruct (aget_in_range (chunks w) (flatIndex (bounds w) cx cy cz)) as [c0 Hc0]; [lia |].
  pose proof (wf_world_chunk _ _ _ Hwf Hc0) as (Hv & Hcol).
  assert (0 <= lx < CHUNK_SIZE /\ 0 <= ly < CHUNK_SIZE /\ 0 <= lz < CHUNK_SIZE)
    as (Hlx & Hly & Hlz).
  { unfold worldPositionToChunkPosition in HL. injection HL as <- <- <-.
    auto using land_mask_range. }
  destruct (getVoxelIndex_small lx ly lz Hlx Hly Hlz) as (_ & Hk).
  set (k := getVoxelIndex lx ly lz) in *.
  destruct (aget_in_range (chunk_value c0) k) as [prev Hprev]; [lia |].
  exists c0, prev. rewrite Hc0. simpl. rewrite Hprev. simpl.
  change CHUNK_VOXELS with 4096 in *.
  rewrite (aset_in_range (chunk_value c0) k v) by lia. simpl.
  rewrite (aset_in_range (chunk_color c0) (k * 3 + 0) r) by lia. simpl.
  rewrite (aset_in_range _ (k * 3 + 1) g) by (rewrite length_insert; lia). simpl.
  rewrite (aset_in_range _ (k * 3 + 2) b) by (rewrite !length_insert; lia). simpl.
  rewrite propagateDirty_markList.
  match goal with
  | |- context [markList _ ?w1] =>
      destruct (markList_rel (dirtyTargets lx ly lz cx cy cz) w1 w1 (fun _ => false))
        as (w' & Hw' & Hrel)
  end.
  - exact Hok.
  - simpl. rewrite length_insert. exact Hlen.
  - apply marks_rel_refl.
  - exists w'. repeat split; try assumption; apply Hrel.
Qed.

Lemma set_dirtyMesh_edited c k prev v r g b d :
  set_dirtyMesh (editedChunk c k prev v r g b) (true || d) = editedChunk c k prev v r g b.
Proof. reflexivity. Qed.

(** The chunk array after [setVoxel], read at any chunk coordinate inside the
    bounds. *)
Lemma setVoxel_chunks w wx wy wz v r g b cx cy cz lx ly lz :
  wf_world w ->
  chunkOf wx wy wz = (cx, cy, cz) ->
  localOf wx wy wz = (lx, ly, lz) ->
  inBounds (bounds w) cx cy cz ->
  exists c0 prev w',
    aget (chunks w) (flatIndex (bounds w) cx cy cz) = Some c0 /\
    aget (chunk_value c0) (getVoxelIndex lx ly lz) = Some prev /\
    setVoxel w wx wy wz v r g b = Some w' /\
    bounds w' = bounds w /\
    length (chunks w') = length (chunks w) /\
    aget (chunks w') (flatIndex (bounds w) cx cy cz)
    = Some (editedChunk c0 (getVoxelIndex lx ly lz) prev v r g b) /\
    forall x y z c,
      inBounds (bounds w) x y z -> (x, y, z) <> (cx, cy, cz) ->
      aget (chunks w) (flatIndex (bounds w) x y z) = Some c ->
      aget (chunks w') (flatIndex (bounds w) x y z)
      = Some (set_dirtyMesh c (chunk_dirtyMesh c
                               || markedBy (dirtyTargets lx ly lz cx cy cz) (x, y, z))).
Proof.
  intros Hwf HC HL Hin. pose proof Hwf as (Hok & Hlen & Hall).
  destruct (setVoxel_spec w wx wy wz v r g b _ _ _ _ _ _ Hwf HC HL Hin)
    as (c0 & prev & w' & Hc0 & Hprev & Hset & Hb & Hl & Hrel).
  pose proof (flatIndex_range _ _ _ _ Hok Hin) as Hr.
  exists c0, prev, w'. simpl in Hb, Hl, Hrel. rewrite length_insert in Hl.
  repeat split; try assumption.
  - rewrite (Hrel cx cy cz (editedChunk c0 (getVoxelIndex lx ly lz) prev v r g b) Hin).
    + reflexivity.
    + apply aget_insert_eq. lia.
  - intros x y z c Hin' Hne Hc.
    pose proof (flatIndex_range _ _ _ _ Hok Hin') as Hr'.
    apply Hrel; [assumption |].
    rewrite aget_insert_ne; [assumption | lia | lia |].
    intros Heq. apply Hne. symmetry. now apply (flatIndex_inj (bounds w)).
Qed.

Lemma isDirtyAt_flat w x y z :
  bounds_ok (bounds w) -> inBounds (bounds w) x y z ->
  isDirtyAt w x y z
  = (c ← aget (chunks w) (flatIndex (bounds w) x y z); Some (chunk_dirtyMesh c)).
Proof.
  intros Hok Hin. unfold isDirtyAt, getChunkAt.
  now rewrite chunkCoordinateToIndex_flat.
Qed.

Lemma markedBy_filter ts q :
  markedBy ts q = existsb (coord_eqb q) (List.map snd (List.filter fst ts)).
Proof.
  unfold markedBy. induction ts as [| [c p] ts IH]; [reflexivity |].
  simpl. rewrite IH. now destruct c.
Qed.

Lemma existsb_coord_eqb q l : existsb (coord_eqb q) l = true <-> q ∈ l.
Proof.
  induction l as [| p l IH]; simpl.
  - split; [discriminate | intros H; inversion H].
  - rewrite orb_true_iff, IH, coord_eqb_eq, elem_of_cons. reflexivity.
Qed.

(** How the dirty flag of any chunk inside the bounds changes in an edit. *)
Lemma setVoxel_isDirtyAt w wx wy wz v r g b cx cy cz lx ly lz :
  wf_world w ->
  chunkOf wx wy wz = (cx, cy, cz) ->
  localOf wx wy wz = (lx, ly, lz) ->
  inBounds (bounds w) cx cy cz ->
  exists w',
    setVoxel w wx wy wz v r g b = Some w' /\
    bounds w' = bounds w /\
    forall x y z (marked : list (Z * Z * Z)),
      inBounds (bounds w) x y z ->
      (forall q, markedBy (dirtyTargets lx ly lz cx cy cz) q = true <-> q ∈ marked) ->
      isDirtyAt w' x y z
      = if decide ((x, y, z) ∈ (cx, cy, cz) :: marked) then Some true
        else isDirtyAt w x y z.
Proof.
  intros Hwf HC HL Hin. pose proof Hwf as (Hok & Hlen & Hall).
  destruct (setVoxel_chunks w wx wy wz v r g b _ _ _ _ _ _ Hwf HC HL Hin)
    as (c0 & prev & w' & Hc0 & Hprev & Hset & Hb & Hl & Hown & Hoth).
  exists w'. split; [assumption |]. split; [assumption |].
  intros x y z marked Hin' Hmarked.
  pose proof (flatIndex_range _ _ _ _ Hok Hin') as Hr'.
  rewrite !isDirtyAt_flat by (rewrite ?Hb; assumption). rewrite Hb.
  destruct (decide ((x, y, z) = (cx, cy, cz))) as [Heq | Hne].
  - injection Heq as -> -> ->. rewrite Hown. simpl.
    rewrite decide_True by (apply elem_of_cons; auto). reflexivity.
  - destruct (aget_in_range (chunks w) (flatIndex (bounds w) x y z)) as [c Hc]; [lia |].
    rewrite (Hoth _ _ _ _ Hin' Hne Hc), Hc.
    destruct (markedBy (dirtyTargets lx ly lz cx cy cz) (x, y, z)) eqn:Hm; simpl.
    + rewrite decide_True by (apply elem_of_cons; right; now apply Hmarked).
      now rewrite orb_true_r.
    + rewrite decide_False; [now rewrite orb_false_r |].
      rewrite elem_of_cons. intros [? | Hmem]; [contradiction |].
      apply Hmarked in Hmem. congruence.
Qed.

Lemma offset_cases a :
  0 <= a < CHUNK_SIZE ->
  a = 0 \/ a = CHUNK_SIZE - 1 \/
  ((a =? 0) = false /\ (a =? CHUNK_SIZE - 1) = false /\ interior a = true).
Proof.
  change CHUNK_SIZE with 16. unfold interior. change (CHUNK_SIZE - 1) with 15. intros H.
  destruct (Z.eq_dec a 0) as [-> | H0]; [auto |].
  destruct (Z.eq_dec a 15) as [-> | H15]; [auto |].
  right. right. rewrite !(proj2 (Z.eqb_neq _ _)) by assumption.
  rewrite (proj2 (Z.ltb_lt 0 a)), (proj2 (Z.ltb_lt a 15)) by lia. auto.
Qed.

Lemma localOf_range wx wy wz lx ly lz :
  localOf wx wy wz = (lx, ly, lz) ->
  0 <= lx < CHUNK_SIZE /\ 0 <= ly < CHUNK_SIZE /\ 0 <= lz < CHUNK_SIZE.
Proof.
  unfold localOf, worldPositionToChunkPosition. intros [= <- <- <-].
  auto using land_mask_range.
Qed.

Lemma triple_eq (a b c a' b' c' : Z) :
  a = a' -> b = b' -> c = c' -> (a, b, c) = (a', b', c').
Proof. now intros -> -> ->. Qed.

Ltac coord_mem :=
  intros q; rewrite markedBy_filter, existsb_coord_eqb;
  cbn [List.filter List.map fst snd];
  rewrite ?elem_of_cons, ?elem_of_nil;
  destruct q as [[qx qy] qz];
  split; intros Hq; repeat destruct Hq as [Hq | Hq]; try contradiction;
  injection Hq as -> -> ->; auto 10;
  left; apply triple_eq; lia.

(** C2: in a well-formed world, [setVoxel] at a coordinate whose chunk
    [(cx, cy, cz)] lies within the bounds returns, and among the chunks
    within the bounds: an edit at local offset (0, 0, 0) sets the dirty flag
    of the edited chunk and of its three face-, three edge- and one
    corner-adjacent neighbours on the low side, and of no other chunk; an
    edit at an offset on exactly one boundary plane sets the dirty flag of
    the edited chunk and of the one face-adjacent neighbour across that
    plane, and of no other chunk. Every other chunk keeps its flag. *)
Theorem setVoxel_dirty_propagation w wx wy wz v r g b cx cy cz lx ly lz :
  wf_world w ->
  chunkOf wx wy wz = (cx, cy, cz) ->
  localOf wx wy wz = (lx, ly, lz) ->
  inBounds (bounds w) cx cy cz ->
  exists w',
    setVoxel w wx wy wz v r g b = Some w' /\
    bounds w' = bounds w /\
    ((lx, ly, lz) = (0, 0, 0) ->
     forall x y z, inBounds (bounds w) x y z ->
       isDirtyAt w' x y z
       = if decide ((x, y, z) ∈ (cx, cy, cz) :: lowNeighbours cx cy cz)
         then Some true else isDirtyAt w x y z) /\
    (forall dx dy dz, pureFace lx ly lz = Some (dx, dy, dz) ->
     forall x y z, inBounds (bounds w) x y z ->
       isDirtyAt w' x y z
       = if decide ((x, y, z) ∈ [(cx, cy, cz); (cx + dx, cy + dy, cz + dz)])
         then Some true else isDirtyAt w x y z).
Proof.
  intros Hwf HC HL Hin.
  destruct (setVoxel_isDirtyAt w wx wy wz v r g b _ _ _ _ _ _ Hwf HC HL Hin)
    as (w' & Hset & Hb & Hd).
  exists w'. split; [assumption |]. split; [assumption |]. split.
  - intros [= -> -> ->] x y z Hin'. apply Hd; [assumption |].
    unfold dirtyTargets, lowNeighbours.
    change (0 =? 0) with true. change (0 =? CHUNK_SIZE - 1) with false. simpl andb.
    coord_mem.
  - intros dx dy dz Hface x y z Hin'. apply Hd; [assumption |].
    destruct (localOf_range _ _ _ _ _ _ HL) as (Hx & Hy & Hz).
    unfold pureFace in Hface. unfold dirtyTargets.
    destruct (offset_cases lx Hx) as [-> | [-> | (Ex0 & Ex1 & Ex)]];
    destruct (offset_cases ly Hy) as [-> | [-> | (Ey0 & Ey1 & Ey)]];
    destruct (offset_cases lz Hz) as [-> | [-> | (Ez0 & Ez1 & Ez)]];
    rewrite ?Ex0, ?Ex1, ?Ex, ?Ey0, ?Ey1, ?Ey, ?Ez0, ?Ez1, ?Ez in *;
    try discriminate Hface;
    injection Hface as <- <- <-;
    change (0 =? 0) with true; change (0 =? CHUNK_SIZE - 1) with false;
    change (CHUNK_SIZE - 1 =? 0) with false;
    change (CHUNK_SIZE - 1 =? CHUNK_SIZE - 1) with true; simpl andb; simpl negb;
    coord_mem.
Qed.
(** ** Worlds created by [initVoxels] *)

Lemma initVoxels_aget x0 x1 y0 y1 z0 z1 i :
  bounds_ok (mkChunkBounds x0 x1 y0 y1 z0 z1) ->
  0 <= i < chunkCount (mkChunkBounds x0 x1 y0 y1 z0 z1) ->
  aget (chunks (initVoxels x0 x1 y0 y1 z0 z1)) i
  = Some (newChunk i (mkChunkBounds x0 x1 y0 y1 z0 z1)).
Proof.
  intros Hok Hi. rewrite aget_lookup by lia. unfold initVoxels. cbn [chunks].
  rewrite totalChunks_count by assumption.
  rewrite list_lookup_fmap, lookup_seq_lt by lia. simpl. f_equal. f_equal. lia.
Qed.

Lemma newChunk_wf i b : wf_chunk (newChunk i b).
Proof.
  unfold newChunk. destruct (chunkIndexToCoordinate i b) as [[cx cy] cz].
  split; cbn [chunk_value chunk_color]; rewrite length_replicate; reflexivity.
Qed.

Lemma initVoxels_wf x0 x1 y0 y1 z0 z1 :
  bounds_ok (mkChunkBounds x0 x1 y0 y1 z0 z1) -> wf_world (initVoxels x0 x1 y0 y1 z0 z1).
Proof.
  intros Hok. split; [exact Hok |]. split.
  - unfold initVoxels. cbn [chunks bounds]. rewrite length_fmap, length_seq.
    rewrite totalChunks_count by assumption.
    pose proof (flatIndex_range _ x0 y0 z0 Hok) as H.
    destruct Hok as ((? & ? & ?) & _). cbn [xmin xmax ymin ymax zmin zmax] in *.
    rewrite Z2Nat.id; [reflexivity |].
    unfold inBounds in H. cbn [xmin xmax ymin ymax zmin zmax] in H. lia.
  - unfold initVoxels. cbn [chunks]. apply Forall_fmap, Forall_forall.
    intros n _. apply newChunk_wf.
Qed.

(** Every chunk of a new world is zero-filled and clean. *)
Lemma newChunk_fields i b :
  chunk_value (newChunk i b) = replicate (Z.to_nat CHUNK_VOXELS) 0 /\
  chunk_color (newChunk i b) = replicate (Z.to_nat (CHUNK_VOXELS * 3)) 0 /\
  chunk_sum (newChunk i b) = 0 /\ chunk_dirtyMesh (newChunk i b) = false /\
  (chunk_x (newChunk i b), chunk_y (newChunk i b), chunk_z (newChunk i b))
  = chunkIndexToCoordinate i b.
Proof.
  unfold newChunk. destruct (chunkIndexToCoordinate i b) as [[cx cy] cz].
  cbn [chunk_value chunk_color chunk_sum chunk_dirtyMesh chunk_x chunk_y chunk_z]. auto.
Qed.

Lemma bounds_ok_dec_true b :
  (xmin b <=? xmax b) && (ymin b <=? ymax b) && (zmin b <=? zmax b)
  && (spanX b <=? INT_MAX) && (spanY b <=? INT_MAX) && (spanZ b <=? INT_MAX)
  && (chunkCount b <? 2 ^ SIZE_BITS) = true ->
  bounds_ok b.
Proof.
  rewrite !andb_true_iff, !Z.leb_le, Z.ltb_lt. unfold bounds_ok, ordered. tauto.
Qed.

(** ** Round trip between chunk coordinates and indices *)

(** C10, as stated, fails where the chunk count leaves [size_t]: with 65537
    by 65536 chunks the coordinate (65536, 0, 0) is given index 0, which maps
    back to (0, 0, 0). *)
Lemma index_roundtrip_wraps :
  ~ (forall b x y z,
        ordered b -> inBounds b x y z ->
        exists i, chunkCoordinateToIndex x y z b = Some i /\
                  chunkIndexToCoordinate i b = (x, y, z)).
Proof.
  intros H.
  destruct (H (mkChunkBounds 0 65536 0 65535 0 0) 65536 0 0) as (i & Hi & Hc).
  - unfold ordered. simpl. lia.
  - unfold inBounds. simpl. lia.
  - vm_compute in Hi. injection Hi as <-. vm_compute in Hc. discriminate Hc.
Qed.

(** C10 (amended): for bounds with [min <= max] on each axis whose extents
    fit [int] and whose chunk count fits [size_t], the index of every
    coordinate inside the bounds maps back to that coordinate; consequently
    every chunk created by [initVoxels] stores the coordinate of its own
    position in the chunk array. *)
Theorem index_coordinate_roundtrip x0 x1 y0 y1 z0 z1 :
  let b := mkChunkBounds x0 x1 y0 y1 z0 z1 in
  bounds_ok b ->
  (forall x y z, inBounds b x y z ->
     exists i, chunkCoordinateToIndex x y z b = Some i /\
               chunkIndexToCoordinate i b = (x, y, z)) /\
  Z.of_nat (length (chunks (initVoxels x0 x1 y0 y1 z0 z1))) = chunkCount b /\
  (forall i c, aget (chunks (initVoxels x0 x1 y0 y1 z0 z1)) i = Some c ->
     chunkCoordinateToIndex (chunk_x c) (chunk_y c) (chunk_z c) b = Some i).
Proof.
  intros b Hok. subst b. set (b := mkChunkBounds x0 x1 y0 y1 z0 z1) in *.
  split; [| split].
  - intros x y z Hin. exists (flatIndex b x y z).
    split; [now apply chunkCoordinateToIndex_flat | now apply chunkIndexToCoordinate_flat].
  - apply (initVoxels_wf _ _ _ _ _ _ Hok).
  - intros i c Hc. pose proof (aget_Some_range _ _ _ Hc) as Hr.
    pose proof (initVoxels_wf _ _ _ _ _ _ Hok) as (_ & Hlen & _).
    rewrite Hlen in Hr. cbn [bounds initVoxels] in Hr. fold b in Hr.
    rewrite initVoxels_aget in Hc by assumption. injection Hc as <-. fold b.
    destruct (coordinate_of_index b i Hok Hr) as (x & y & z & Hxyz & Hin & Hflat).
    destruct (newChunk_fields i b) as (_ & _ & _ & _ & Hco).
    rewrite Hxyz in Hco.
    pose proof (f_equal (fun p => fst (fst p)) Hco) as Hx.
    pose proof (f_equal (fun p => snd (fst p)) Hco) as Hy.
    pose proof (f_equal snd Hco) as Hz.
    cbn [fst snd] in Hx, Hy, Hz. rewrite Hx, Hy, Hz.
    rewrite chunkCoordinateToIndex_flat by assumption. now rewrite Hflat.
Qed.

Lemma index_coordinate_roundtrip_witness :
  bounds_ok (mkChunkBounds (-1) 1 (-2) 0 3 4) /\
  chunkCoordinateToIndex 1 (-2) 4 (mkChunkBounds (-1) 1 (-2) 0 3 4) = Some 13 /\
  chunkIndexToCoordinate 13 (mkChunkBounds (-1) 1 (-2) 0 3 4) = (1, -2, 4).
Proof.
  assert (Hok : bounds_ok (mkChunkBounds (-1) 1 (-2) 0 3 4))
    by (apply bounds_ok_dec_true; reflexivity).
  split; [exact Hok |].
  destruct (index_coordinate_roundtrip (-1) 1 (-2) 0 3 4 Hok) as (Hrt & _).
  destruct (Hrt 1 (-2) 4) as (i & Hi & Hc).
  - unfold inBounds. simpl. lia.
  - assert (i = 13) as -> by (vm_compute in Hi; congruence).
    split; assumption.
Defined.
(** ** Reading back an edit *)

Lemma editedChunk_reads c k prev v r g b :
  wf_chunk c -> 0 <= k < CHUNK_VOXELS ->
  let e := editedChunk c k prev v r g b in
  aget (chunk_value e) k = Some v /\
  aget (chunk_color e) (k * 3 + 0) = Some r /\
  aget (chunk_color e) (k * 3 + 1) = Some g /\
  aget (chunk_color e) (k * 3 + 2) = Some b.
Proof.
  intros (Hv & Hc) Hk. change CHUNK_VOXELS with 4096 in *.
  unfold editedChunk. cbn [chunk_value chunk_color set_dirtyMesh set_sum set_color set_value].
  split; [| split; [| split]].
  - apply aget_insert_eq. lia.
  - rewrite aget_insert_ne, aget_insert_ne by lia. apply aget_insert_eq. lia.
  - rewrite aget_insert_ne by lia. apply aget_insert_eq. rewrite length_insert. lia.
  - apply aget_insert_eq. rewrite !length_insert. lia.
Qed.

Lemma single_chunk_wf : wf_world (initVoxels 0 0 0 0 0 0).
Proof. apply initVoxels_wf, bounds_ok_dec_true. reflexivity. Qed.

Lemma getVoxel_written w x y z d r g b :
  wf_world w -> ownerInBounds w x y z ->
  exists w', setVoxel w x y z d r g b = Some w' /\
             getVoxel w' x y z = Some (d, r, g, b).
Proof.
  intros Hwf Hin. unfold ownerInBounds in Hin.
  destruct (chunkOf x y z) as [[cx cy] cz] eqn:HC.
  destruct (localOf x y z) as [[lx ly] lz] eqn:HL.
  destruct (setVoxel_chunks w x y z d r g b _ _ _ _ _ _ Hwf HC HL Hin)
    as (c0 & prev & w' & Hc0 & Hprev & Hset & Hb & Hl & Hown & _).
  exists w'. split; [assumption |].
  destruct (localOf_range _ _ _ _ _ _ HL) as (Hx & Hy & Hz).
  destruct (getVoxelIndex_small lx ly lz Hx Hy Hz) as (_ & Hk).
  destruct (editedChunk_reads c0 (getVoxelIndex lx ly lz) prev d r g b
              (wf_world_chunk _ _ _ Hwf Hc0) Hk) as (Ev & Er & Eg & Eb).
  unfold getVoxel. unfold chunkOf in HC. unfold localOf in HL. rewrite HC, HL, Hb.
  rewrite chunkCoordinateToIndex_flat by apply Hwf || assumption.
  rewrite Hown. cbn [mbind option_bind]. rewrite Ev. cbn [mbind option_bind].
  rewrite Er. cbn [mbind option_bind]. rewrite Eg. cbn [mbind option_bind].
  rewrite Eb. reflexivity.
Qed.

(** C4: in a well-formed world, [getVoxel] after [setVoxel] at a coordinate
    whose owning chunk lies within the bounds returns exactly the density
    and colour that were written. *)
Theorem getVoxel_setVoxel w x y z d r g b :
  wf_world w -> ownerInBounds w x y z ->
  exists w', setVoxel w x y z d r g b = Some w' /\
             getVoxel w' x y z = Some (d, r, g, b).
Proof. apply getVoxel_written. Qed.

Lemma getVoxel_setVoxel_witness :
  wf_world (initVoxels 0 0 0 0 0 0) /\
  ownerInBounds (initVoxels 0 0 0 0 0 0) 5 5 5 /\
  exists w', setVoxel (initVoxels 0 0 0 0 0 0) 5 5 5 255 10 20 30 = Some w' /\
             getVoxel w' 5 5 5 = Some (255, 10, 20, 30).
Proof.
  pose proof single_chunk_wf as Hwf.
  assert (Hin : ownerInBounds (initVoxels 0 0 0 0 0 0) 5 5 5)
    by (vm_compute; intuition discriminate).
  split; [exact Hwf |]. split; [exact Hin |].
  exact (getVoxel_setVoxel _ 5 5 5 255 10 20 30 Hwf Hin).
Defined.

(** ** Edits outside the bounds *)

Lemma setVoxel_ignored w x y z d r g b :
  ~ ownerInBounds w x y z -> setVoxel w x y z d r g b = Some w.
Proof.
  unfold ownerInBounds, chunkOf, setVoxel. intros Hout.
  destruct (worldPositionToChunkCoordinates x y z) as [[cx cy] cz].
  destruct (worldPositionToChunkPosition x y z) as [[lx ly] lz].
  apply chunkCoordinateToIndex_None in Hout. now rewrite Hout.
Qed.

(** C8: [setVoxel] at a coordinate whose owning chunk lies outside the
    bounds returns normally and returns the world it was given: no density,
    colour, sum or dirty flag of any chunk differs. *)
Theorem setVoxel_outside_bounds w x y z d r g b :
  ~ ownerInBounds w x y z -> setVoxel w x y z d r g b = Some w.
Proof. apply setVoxel_ignored. Qed.

Lemma setVoxel_outside_bounds_witness :
  ~ ownerInBounds (initVoxels 0 0 0 0 0 0) 16 (-1) 40 /\
  setVoxel (initVoxels 0 0 0 0 0 0) 16 (-1) 40 200 1 2 3 = Some (initVoxels 0 0 0 0 0 0).
Proof.
  assert (Hout : ~ ownerInBounds (initVoxels 0 0 0 0 0 0) 16 (-1) 40).
  { vm_compute. intuition congruence. }
  split; [exact Hout |].
  exact (setVoxel_outside_bounds _ 16 (-1) 40 200 1 2 3 Hout).
Defined.

Lemma setVoxel_dirty_propagation_witness :
  let w := initVoxels (-1) 0 (-1) 0 (-1) 0 in
  wf_world w /\ chunkOf 0 0 0 = (0, 0, 0) /\ localOf 0 0 0 = (0, 0, 0) /\
  inBounds (bounds w) 0 0 0 /\
  exists w', setVoxel w 0 0 0 255 1 2 3 = Some w' /\
             isDirtyAt w' (-1) (-1) (-1) = Some true /\
             isDirtyAt w' 0 (-1) 0 = Some true.
Proof.
  intros w.
  assert (Hwf : wf_world w) by (apply initVoxels_wf, bounds_ok_dec_true; reflexivity).
  assert (Hin : inBounds (bounds w) 0 0 0) by (unfold inBounds; cbn; lia).
  split; [exact Hwf |]. split; [reflexivity |]. split; [reflexivity |].
  split; [exact Hin |].
  destruct (setVoxel_dirty_propagation w 0 0 0 255 1 2 3 0 0 0 0 0 0
              Hwf eq_refl eq_refl Hin) as (w' & Hset & _ & Hcorner & _).
  exists w'. split; [exact Hset |]. split.
  - rewrite (Hcorner eq_refl (-1) (-1) (-1)) by (unfold inBounds; cbn; lia).
    reflexivity.
  - rewrite (Hcorner eq_refl 0 (-1) 0) by (unfold inBounds; cbn; lia).
    reflexivity.
Defined.

(** ** The sum invariant *)

Lemma sumValues_take n : forall i vals s,
  (i + n <= length vals)%nat ->
  sumValues n (Z.of_nat i) vals s = Some (s + sumZ (take n (drop i vals))).
Proof.
  induction n as [| n IH]; intros i vals s Hlen; simpl.
  - unfold sumZ. simpl. f_equal. lia.
  - rewrite aget_lookup by lia. rewrite Nat2Z.id.
    destruct (lookup_lt_is_Some_2 vals i) as [v Hv]; [lia |].
    rewrite Hv. cbn [mbind option_bind].
    replace (Z.of_nat i + 1) with (Z.of_nat (S i)) by lia.
    rewrite IH by lia.
    rewrite (drop_S _ _ _ Hv). cbn [take]. unfold sumZ. cbn [foldr]. f_equal. lia.
Qed.

Lemma sumValues_Some_length n : forall i vals s r,
  sumValues n (Z.of_nat i) vals s = Some r -> n = 0%nat \/ (i + n <= length vals)%nat.
Proof.
  induction n as [| n IH]; intros i vals s r H; simpl in H; [now left | right].
  rewrite aget_lookup, Nat2Z.id in H by lia.
  destruct (vals !! i) as [v |] eqn:Hv; [| discriminate].
  cbn [mbind option_bind] in H.
  replace (Z.of_nat i + 1) with (Z.of_nat (S i)) in H by lia.
  apply lookup_lt_Some in Hv. apply IH in H as [-> | H]; lia.
Qed.

Lemma sumZ_app l1 l2 : sumZ (l1 ++ l2) = sumZ l1 + sumZ l2.
Proof. unfold sumZ. induction l1 as [| a l1 IH]; simpl; lia. Qed.

Lemma sumZ_insert l : forall k v prev,
  l !! k = Some prev -> sumZ (<[k := v]> l) = sumZ l + (v - prev).
Proof.
  induction l as [| a l IH]; intros [| k] v prev H; try discriminate.
  - injection H as ->. unfold sumZ. simpl. lia.
  - simpl in H. change (<[S k := v]> (a :: l)) with (a :: <[k := v]> l).
    unfold sumZ in *. simpl. rewrite (IH k v prev H). lia.
Qed.

(** The incremental update of [setVoxel] keeps the stored sum right. *)
Lemma sum_ok_edit c k prev v r g b :
  sum_ok c -> 0 <= k < CHUNK_VOXELS ->
  aget (chunk_value c) k = Some prev ->
  sum_ok (editedChunk c k prev v r g b).
Proof.
  unfold sum_ok. change (Z.to_nat CHUNK_VOXELS) with 4096%nat.
  change CHUNK_VOXELS with 4096. intros Hs Hk Hprev.
  pose proof (sumValues_Some_length _ 0 _ _ _ Hs) as [Hlen | Hlen]; [discriminate |].
  rewrite (sumValues_take _ 0) in Hs by assumption. injection Hs as Hs.
  unfold editedChunk.
  cbn [chunk_value chunk_sum set_dirtyMesh set_sum set_color set_value].
  rewrite (sumValues_take _ 0) by (rewrite length_insert; assumption).
  rewrite aget_lookup in Hprev by lia.
  rewrite !drop_0 in *. rewrite take_insert_lt by lia.
  rewrite (sumZ_insert _ _ _ prev) by (rewrite lookup_take_lt by lia; assumption).
  f_equal. lia.
Qed.

Lemma sum_ok_dirty c d : sum_ok (set_dirtyMesh c d) <-> sum_ok c.
Proof. reflexivity. Qed.

Lemma all_chunks_insert (P : VoxelChunk -> Prop) (l : list VoxelChunk) i c :
  Forall P l -> P c -> Forall P (<[i := c]> l).
Proof. intros Hl Hc. now apply Forall_insert. Qed.

Lemma markChunkDirty_all (P : VoxelChunk -> Prop) w x y z w' :
  (forall c d, P c -> P (set_dirtyMesh c d)) ->
  markChunkDirty w x y z = Some w' ->
  Forall P (chunks w) -> Forall P (chunks w').
Proof.
  intros HP Hm Hall. unfold markChunkDirty in Hm.
  destruct (chunkCoordinateToIndex x y z (bounds w)) as [i |]; [| congruence].
  destruct (aget (chunks w) i) as [c |] eqn:Hc; [| discriminate].
  injection Hm as <-. cbn [chunks set_chunk].
  apply all_chunks_insert; [assumption |]. apply HP.
  rewrite aget_lookup in Hc by (apply aget_Some_range in Hc; lia).
  rewrite Forall_lookup in Hall. eauto.
Qed.

Lemma markList_all (P : VoxelChunk -> Prop) ts : forall w w',
  (forall c d, P c -> P (set_dirtyMesh c d)) ->
  markList ts w = Some w' ->
  Forall P (chunks w) -> Forall P (chunks w').
Proof.
  induction ts as [| [c [[x y] z]] ts IH]; intros w w' HP Hm Hall.
  - injection Hm as <-. assumption.
  - simpl in Hm. destruct c; simpl in Hm.
    + destruct (markChunkDirty w x y z) as [w1 |] eqn:H1; [| discriminate].
      simpl in Hm. eapply IH; eauto using markChunkDirty_all.
    + eauto.
Qed.

Lemma setVoxel_all (P : VoxelChunk -> Prop) w wx wy wz v r g b w' :
  (forall c d, P c -> P (set_dirtyMesh c d)) ->
  (forall c k prev, P c -> 0 <= k < CHUNK_VOXELS ->
                    aget (chunk_value c) k = Some prev ->
                    0 <= k * 3 + 2 < Z.of_nat (length (chunk_color c)) ->
                    P (editedChunk c k prev v r g b)) ->
  setVoxel w wx wy wz v r g b = Some w' ->
  Forall P (chunks w) -> Forall P (chunks w').
Proof.
  intros HPd HPe Hset Hall. unfold setVoxel in Hset.
  destruct (worldPositionToChunkCoordinates wx wy wz) as [[cx cy] cz].
  destruct (worldPositionToChunkPosition wx wy wz) as [[lx ly] lz] eqn:HL.
  destruct (chunkCoordinateToIndex cx cy cz (bounds w)) as [i |]; [| congruence].
  destruct (aget (chunks w) i) as [c |] eqn:Hc; [| discriminate].
  cbn [mbind option_bind] in Hset.
  destruct (localOf_range _ _ _ _ _ _ HL) as (Hx & Hy & Hz).
  destruct (getVoxelIndex_small lx ly lz Hx Hy Hz) as (_ & Hk).
  set (k := getVoxelIndex lx ly lz) in *.
  destruct (aget (chunk_value c) k) as [prev |] eqn:Hprev; [| discriminate].
  cbn [mbind option_bind] in Hset.
  unfold aset in Hset.
  repeat match type of Hset with
         | context [if ?t then _ else _] =>
             destruct t eqn:?; [| discriminate]; cbn [mbind option_bind] in Hset
         end.
  rewrite propagateDirty_markList in Hset.
  eapply markList_all; [exact HPd | exact Hset |].
  cbn [chunks set_chunk]. apply all_chunks_insert; [assumption |].
  apply (HPe c k prev); try assumption.
  - rewrite aget_lookup in Hc by (apply aget_Some_range in Hc; lia).
    rewrite Forall_lookup in Hall. eauto.
  - rewrite !length_insert in *. lia.
Qed.

Lemma recomputeChunkSum_Some c s c2 :
  recomputeChunkSum c = Some (s, c2) ->
  sumValues (Z.to_nat CHUNK_VOXELS) 0 (chunk_value c) 0 = Some s /\ c2 = set_sum c s.
Proof.
  unfold recomputeChunkSum.
  generalize (sumValues (Z.to_nat CHUNK_VOXELS) 0 (chunk_value c) 0).
  intros [s' |]; simpl; intros H; [| discriminate].
  injection H as <- <-. auto.
Qed.

Lemma recomputeChunkSum_intro c s :
  sumValues (Z.to_nat CHUNK_VOXELS) 0 (chunk_value c) 0 = Some s ->
  recomputeChunkSum c = Some (s, set_sum c s).
Proof.
  unfold recomputeChunkSum.
  generalize (sumValues (Z.to_nat CHUNK_VOXELS) 0 (chunk_value c) 0).
  intros o ->. reflexivity.
Qed.

Lemma generateChunkBody_sum_ok c cx cy cz seed c' :
  generateChunkBody c cx cy cz seed = Some c' -> sum_ok c'.
Proof.
  unfold generateChunkBody. intros H.
  apply bind_Some in H as (c1 & _ & H).
  apply bind_Some in H as ([s c2] & Hre & [= <-]).
  apply recomputeChunkSum_Some in Hre as (Hs & ->). exact Hs.
Qed.

Lemma newChunk_sum_ok i b : sum_ok (newChunk i b).
Proof.
  unfold sum_ok. destruct (newChunk_fields i b) as (-> & _ & -> & _).
  vm_compute. reflexivity.
Qed.

Lemma reachable_sums_ok w : reachable w -> Forall sum_ok (chunks w).
Proof.
  induction 1 as [x0 x1 y0 y1 z0 z1
                 | w wx wy wz v r g b w' _ IH _ _ _ _ Hset
                 | w chunk cx cy cz seed w' _ IH Hgen].
  - unfold initVoxels. cbn [chunks]. apply Forall_fmap, Forall_forall.
    intros n _. apply newChunk_sum_ok.
  - eapply setVoxel_all; [| | exact Hset | exact IH].
    + intros c d Hc. exact Hc.
    + intros c k prev Hc Hk Hprev _. now apply sum_ok_edit.
  - unfold generateChunk in Hgen. destruct chunk as [i |]; [| congruence].
    apply bind_Some in Hgen as (c & _ & Hgen).
    apply bind_Some in Hgen as (c' & Hc' & [= <-]).
    cbn [chunks set_chunk]. apply all_chunks_insert; [assumption |].
    eapply generateChunkBody_sum_ok; eassumption.
Qed.

(** C3: in every world produced by [initVoxels] and any finite sequence of
    [setVoxel] and [generateChunk] calls, the [sum] field of every chunk is
    the sum of its stored densities: [recomputeChunkSum] returns the stored
    value and leaves the chunk as it is. *)
Theorem sum_invariant w :
  reachable w ->
  forall i c, aget (chunks w) i = Some c ->
    chunk_sum c = sumZ (take (Z.to_nat CHUNK_VOXELS) (chunk_value c)) /\
    recomputeChunkSum c = Some (chunk_sum c, c).
Proof.
  intros Hreach i c Hc. pose proof (reachable_sums_ok w Hreach) as Hall.
  rewrite aget_lookup in Hc by (apply aget_Some_range in Hc; lia).
  rewrite Forall_lookup in Hall. pose proof (Hall _ _ Hc) as Hs. split.
  - unfold sum_ok in Hs.
    destruct (sumValues_Some_length _ 0 _ _ _ Hs) as [Hz | Hlen]; [discriminate |].
    rewrite (sumValues_take _ 0) in Hs by assumption. rewrite drop_0 in Hs.
    injection Hs as <-. lia.
  - rewrite (recomputeChunkSum_intro c _ Hs). now destruct c.
Qed.

Lemma sum_invariant_witness :
  exists w c,
    reachable w /\ aget (chunks w) 0 = Some c /\ chunk_sum c = 200 /\
    recomputeChunkSum c = Some (200, c).
Proof.
  pose proof single_chunk_wf as Hwf.
  assert (Hin : inBounds (bounds (initVoxels 0 0 0 0 0 0)) 0 0 0)
    by (vm_compute; intuition congruence).
  destruct (setVoxel_chunks (initVoxels 0 0 0 0 0 0) 5 5 5 200 1 2 3 0 0 0 5 5 5
              Hwf eq_refl eq_refl Hin)
    as (c0 & prev & w' & Hc0 & Hprev & Hset & _ & _ & Hown & _).
  assert (Hreach : reachable w').
  { eapply reach_setVoxel; [apply reach_initVoxels | | | | | exact Hset];
      unfold is_uint8; lia. }
  change (flatIndex (bounds (initVoxels 0 0 0 0 0 0)) 0 0 0) with 0 in Hown, Hc0.
  rewrite initVoxels_aget in Hc0
    by (try apply bounds_ok_dec_true; try reflexivity; vm_compute; intuition congruence).
  injection Hc0 as <-.
  assert (prev = 0) as -> by (vm_compute in Hprev; congruence).
  eexists w', _. split; [exact Hreach |]. split; [exact Hown |].
  pose proof (sum_invariant w' Hreach 0 _ Hown) as (_ & Hre).
  split; [reflexivity |]. exact Hre.
Defined.

(** ** Interpolation *)

Lemma gridArithmetic_true : forallb gridArithmeticAt (zrange 17) = true.
Proof. vm_compute. reflexivity. Qed.

Lemma zrange_In n k : 0 <= k < Z.of_nat n -> In k (zrange n).
Proof.
  intros H. unfold zrange. apply in_map_iff. exists (Z.to_nat k).
  split; [lia |]. apply in_seq. lia.
Qed.

Lemma sameFloat_eq a b : sameFloat a b = true -> a = b.
Proof.
  destruct a as [s | s | | s m e], b as [s' | s' | | s' m' e']; simpl; try discriminate;
    try reflexivity.
  - intros H%Bool.eqb_prop. now subst.
  - intros H%Bool.eqb_prop. now subst.
  - rewrite !andb_true_iff. intros [[H1%Bool.eqb_prop H2%Pos.eqb_eq] H3%Z.eqb_eq].
    now subst.
Qed.

Lemma checkMoves_ok edges seen t seen' :
  (forall k v, FMapPositive.PositiveMap.find k seen = Some v -> unitMoves edges v = true) ->
  checkMoves edges seen t = Some seen' ->
  unitMoves edges t = true /\
  (forall k v, FMapPositive.PositiveMap.find k seen' = Some v -> unitMoves edges v = true).
Proof.
  intros Hseen. unfold checkMoves.
  destruct (FMapPositive.PositiveMap.find (keyOf t) seen) as [v |] eqn:Hfind.
  - destruct (sameFloat v t) eqn:Hsame.
    + intros [= <-]. apply sameFloat_eq in Hsame. subst v. eauto.
    + destruct (unitMoves edges t) eqn:Hmoves; [| discriminate]. intros [= <-]. auto.
  - destruct (unitMoves edges t) eqn:Hmoves; [| discriminate]. intros [= <-].
    split; [reflexivity |]. intros k v.
    destruct (Pos.eq_dec k (keyOf t)) as [-> | Hne].
    + rewrite FMapPositive.PositiveMap.gss. now intros [= <-].
    + rewrite FMapPositive.PositiveMap.gso by exact Hne. apply Hseen.
Qed.

Lemma interpolateCheckAll_ok edges pairs : forall seen,
  (forall k v, FMapPositive.PositiveMap.find k seen = Some v -> unitMoves edges v = true) ->
  interpolateCheckAll edges pairs seen = true ->
  forall va vb, In (va, vb) pairs -> interpolateCheckAt edges va vb = true.
Proof.
  induction pairs as [| [a b] rest IH]; intros seen Hseen Hall va vb Hin; [destruct Hin |].
  cbn [interpolateCheckAll] in Hall. cbv zeta in Hall.
  apply andb_true_iff in Hall as (Hunit & Hrest).
  destruct (straddles a b || (a =? b)) eqn:Hpos.
  - destruct (checkMoves edges seen (interpolateStep a b)) as [seen' |] eqn:Hcheck;
      [| discriminate].
    destruct (checkMoves_ok _ _ _ _ Hseen Hcheck) as (Hmoves & Hseen').
    destruct Hin as [[= <- <-] | Hin].
    + unfold interpolateCheckAt. cbv zeta. now rewrite Hunit, Hpos, Hmoves.
    + exact (IH seen' Hseen' Hrest va vb Hin).
  - destruct Hin as [[= <- <-] | Hin].
    + unfold interpolateCheckAt. cbv zeta. now rewrite Hunit, Hpos.
    + exact (IH seen Hseen Hrest va vb Hin).
Qed.

Lemma interpolateCheckAll_true :
  interpolateCheckAll gridEdges densityPairs (FMapPositive.PositiveMap.empty f32) = true.
Proof. vm_cast_no_check (eq_refl true). Qed.

Lemma interpolateCheckAt_true va vb :
  is_uint8 va -> is_uint8 vb -> interpolateCheckAt gridEdges va vb = true.
Proof.
  unfold is_uint8. intros Ha Hb.
  apply (interpolateCheckAll_ok gridEdges densityPairs (FMapPositive.PositiveMap.empty f32)).
  - intros k v. rewrite FMapPositive.PositiveMap.gempty. discriminate.
  - exact interpolateCheckAll_true.
  - apply in_prod; apply zrange_In; lia.
Qed.

Lemma gridArithmetic k :
  0 <= k <= CHUNK_SIZE ->
  let fk := F32.of_int k in
  let fk1 := F32.of_int (k + 1) in
  F32.sub fk fk = S754_zero false /\
  (forall s, F32.add fk (S754_zero s) = fk) /\
  betweenF fk fk fk = true /\
  F32.sub fk1 fk = F32.of_int 1 /\
  F32.sub fk fk1 = F32.of_int (-1).
Proof.
  change CHUNK_SIZE with 16. intros H fk fk1.
  pose proof (proj1 (forallb_forall _ _) gridArithmetic_true k
                    (zrange_In 17 k ltac:(lia))) as Hk.
  unfold gridArithmeticAt in Hk. cbv zeta in Hk. fold fk fk1 in Hk.
  rewrite !andb_true_iff in Hk.
  destruct Hk as (((((H1 & H2) & H3) & H4) & H5) & H6).
  apply sameFloat_eq in H1, H2, H3, H5, H6.
  repeat split; try assumption. intros [|]; assumption.
Qed.

Lemma F32_mul_zero t :
  F32.is_finite t = true -> exists s, F32.mul t (S754_zero false) = S754_zero s.
Proof. destruct t as [s | s | | s m e]; try discriminate; intros _; eexists; reflexivity. Qed.

(** One coordinate of the interpolated point, for a parameter that passed
    the check. *)
Lemma lerp_onAxis t a b :
  stepInUnit t = true -> unitMoves gridEdges t = true ->
  adjacent a b -> onAxis a b (lerp t (F32.of_int a) (F32.of_int b)).
Proof.
  intros Ht Hmoves (Ha & Hb & Hd). unfold onAxis, lerp.
  assert (Hfin : F32.is_finite t = true).
  { unfold stepInUnit, betweenF in Ht. now rewrite !andb_true_iff in Ht. }
  assert (Hedge : forall k, 0 <= k < CHUNK_SIZE ->
            betweenF (F32.of_int k) (F32.of_int (k + 1))
                     (F32.add (F32.of_int k) (F32.mul t (F32.of_int 1))) = true /\
            betweenF (F32.of_int k) (F32.of_int (k + 1))
                     (F32.add (F32.of_int (k + 1)) (F32.mul t (F32.of_int (-1)))) = true).
  { intros k Hk. unfold unitMoves in Hmoves. cbv zeta in Hmoves.
    rewrite forallb_forall in Hmoves.
    specialize (Hmoves (F32.of_int k, F32.of_int (k + 1))).
    cbn [fst snd] in Hmoves. rewrite andb_true_iff in Hmoves. apply Hmoves.
    unfold gridEdges. apply in_map_iff. exists k. split; [reflexivity |].
    apply zrange_In. change CHUNK_SIZE with 16 in Hk. lia. }
  assert (b = a \/ b = a + 1 \/ a = b + 1) as [-> | [-> | ->]] by lia.
  - destruct (gridArithmetic a Ha) as (-> & Hz & Hself & _).
    destruct (F32_mul_zero t Hfin) as [s ->].
    rewrite Hz, Z.min_id, Z.max_id. split; [exact Hself | reflexivity].
  - destruct (gridArithmetic a Ha) as (_ & _ & _ & -> & _).
    rewrite Z.min_l, Z.max_r by lia. split; [apply Hedge; lia | lia].
  - destruct (gridArithmetic b Hb) as (_ & _ & _ & _ & ->).
    rewrite Z.min_r, Z.max_l by lia. split; [apply Hedge; lia | lia].
Qed.

(** C6: for corner samples with 8-bit densities, the interpolation parameter
    is a number in [0, 1] (never NaN), and 0.5 exactly when the densities
    are equal; the point is corner a moved by that parameter towards corner
    b; for corners of one cell of the sample grid whose densities lie on
    opposite sides of ISOLEVEL (or are equal), every coordinate of the point
    is a number between the coordinates of the two corners, and equals them
    where they agree, so the point lies on the segment between them. *)
Theorem interpolate_on_segment (srgbToLinearLUT : Z -> f32) (a b : Sample)
        (ax ay az bx by_ bz : Z) :
  is_uint8 (sample_value a) -> is_uint8 (sample_value b) ->
  sample_position a = mkVec3 (F32.of_int ax) (F32.of_int ay) (F32.of_int az) ->
  sample_position b = mkVec3 (F32.of_int bx) (F32.of_int by_) (F32.of_int bz) ->
  let t := interpolateStep (sample_value a) (sample_value b) in
  let p := edge_position (interpolate srgbToLinearLUT a b) in
  betweenF F32.zero F32.one t = true /\
  (sample_value a = sample_value b -> t = F32.half) /\
  p = mkVec3 (lerp t (F32.of_int ax) (F32.of_int bx))
             (lerp t (F32.of_int ay) (F32.of_int by_))
             (lerp t (F32.of_int az) (F32.of_int bz)) /\
  (straddles (sample_value a) (sample_value b) = true
   \/ sample_value a = sample_value b ->
   adjacent ax bx -> adjacent ay by_ -> adjacent az bz ->
   onAxis ax bx (vec_x p) /\ onAxis ay by_ (vec_y p) /\ onAxis az bz (vec_z p)).
Proof.
  intros Ha Hb Hpa Hpb t p.
  pose proof (interpolateCheckAt_true _ _ Ha Hb) as Hchk.
  unfold interpolateCheckAt in Hchk. cbv zeta in Hchk. fold t in Hchk.
  apply andb_true_iff in Hchk as (Ht & Hmoves).
  assert (Hp : p = mkVec3 (lerp t (F32.of_int ax) (F32.of_int bx))
                          (lerp t (F32.of_int ay) (F32.of_int by_))
                          (lerp t (F32.of_int az) (F32.of_int bz))).
  { subst p t. unfold interpolate. cbn [edge_position]. now rewrite Hpa, Hpb. }
  split; [exact Ht |]. split; [| split; [exact Hp |]].
  - intros Heq. subst t. unfold interpolateStep. now rewrite Heq, Z.eqb_refl.
  - intros Hside Hx Hy Hz.
    assert (Hcond : straddles (sample_value a) (sample_value b)
                    || (sample_value a =? sample_value b) = true).
    { destruct Hside as [-> | ->]; [reflexivity |]. rewrite Z.eqb_refl. apply orb_true_r. }
    rewrite Hcond in Hmoves. rewrite Hp. cbn [vec_x vec_y vec_z].
    repeat split; apply lerp_onAxis; assumption.
Qed.

Lemma interpolate_on_segment_witness :
  let a := mkSample (mkVec3 (F32.of_int 3) (F32.of_int 4) (F32.of_int 5)) 100 10 20 30 in
  let b := mkSample (mkVec3 (F32.of_int 3) (F32.of_int 5) (F32.of_int 5)) 200 40 50 60 in
  let p := edge_position (interpolate (fun _ => F32.zero) a b) in
  is_uint8 100 /\ is_uint8 200 /\ straddles 100 200 = true /\
  adjacent 3 3 /\ adjacent 4 5 /\ adjacent 5 5 /\
  betweenF F32.zero F32.one (interpolateStep 100 200) = true /\
  onAxis 3 3 (vec_x p) /\ onAxis 4 5 (vec_y p) /\ onAxis 5 5 (vec_z p).
Proof.
  intros a b p.
  assert (Ha : is_uint8 100) by (unfold is_uint8; lia).
  assert (Hb : is_uint8 200) by (unfold is_uint8; lia).
  assert (Hx : adjacent 3 3) by (unfold adjacent; change CHUNK_SIZE with 16; lia).
  assert (Hy : adjacent 4 5) by (unfold adjacent; change CHUNK_SIZE with 16; lia).
  assert (Hz : adjacent 5 5) by (unfold adjacent; change CHUNK_SIZE with 16; lia).
  destruct (interpolate_on_segment (fun _ => F32.zero) a b 3 4 5 3 5 5
              Ha Hb eq_refl eq_refl) as (Ht & _ & _ & Hseg).
  repeat (split; [assumption || reflexivity |]).
  apply Hseg; [left; reflexivity | assumption ..].
Defined.
(** ** From densities to chunk contents *)

Lemma chunkOf_local cx cy cz lx ly lz :
  0 <= lx < CHUNK_SIZE -> 0 <= ly < CHUNK_SIZE -> 0 <= lz < CHUNK_SIZE ->
  chunkOf (cx * CHUNK_SIZE + lx) (cy * CHUNK_SIZE + ly) (cz * CHUNK_SIZE + lz) = (cx, cy, cz) /\
  localOf (cx * CHUNK_SIZE + lx) (cy * CHUNK_SIZE + ly) (cz * CHUNK_SIZE + lz) = (lx, ly, lz).
Proof.
  change CHUNK_SIZE with 16. intros Hx Hy Hz.
  unfold chunkOf, localOf, worldPositionToChunkCoordinates, worldPositionToChunkPosition.
  change CHUNK_BITS with 4. change CHUNK_MASK with (Z.ones 4).
  rewrite !Z.shiftr_div_pow2, !Z.land_ones by lia. change (2 ^ 4) with 16.
  assert (E : forall c l, 0 <= l < 16 -> (c * 16 + l) / 16 = c /\ (c * 16 + l) mod 16 = l).
  { intros c l Hl. split.
    - symmetry. apply Z.div_unique with l; lia.
    - symmetry. apply Z.mod_unique with c; lia. }
  destruct (E cx lx Hx) as (-> & ->), (E cy ly Hy) as (-> & ->), (E cz lz Hz) as (-> & ->).
  split; reflexivity.
Qed.

Lemma offsetOfIndex_spec k :
  0 <= k < CHUNK_VOXELS ->
  let '(lx, ly, lz) := offsetOfIndex k in
  0 <= lx < CHUNK_SIZE /\ 0 <= ly < CHUNK_SIZE /\ 0 <= lz < CHUNK_SIZE /\
  getVoxelIndex lx ly lz = k.
Proof.
  unfold offsetOfIndex. change CHUNK_VOXELS with 4096. change CHUNK_SIZE with 16.
  intros Hk.
  pose proof (Z.mod_pos_bound k 16 ltac:(lia)).
  pose proof (Z.mod_pos_bound (k / 16) 16 ltac:(lia)).
  pose proof (Z.div_mod k 16 ltac:(lia)).
  pose proof (Z.div_mod (k / 16) 16 ltac:(lia)).
  assert (k / (16 * 16) = k / 16 / 16) as -> by (rewrite Z.div_div by lia; reflexivity).
  assert (0 <= k / 16 / 16 < 16).
  { split; [apply Z.div_pos; [apply Z.div_pos |]; lia |].
    apply Z.div_lt_upper_bound; [lia |]. apply Z.div_lt_upper_bound; lia. }
  repeat split; try lia.
  destruct (getVoxelIndex_small (k mod 16) (k / 16 / 16) ((k / 16) mod 16)) as (-> & _);
    change CHUNK_SIZE with 16; lia.
Qed.

(** The density that [getVoxel] reports inside a present chunk is the entry
    of the chunk's array. *)
Lemma densityAt_chunk w cx cy cz c k :
  wf_world w -> inBounds (bounds w) cx cy cz ->
  aget (chunks w) (flatIndex (bounds w) cx cy cz) = Some c ->
  0 <= k < CHUNK_VOXELS ->
  let '(lx, ly, lz) := offsetOfIndex k in
  densityAt w (cx * CHUNK_SIZE + lx) (cy * CHUNK_SIZE + ly) (cz * CHUNK_SIZE + lz)
  = aget (chunk_value c) k.
Proof.
  intros Hwf Hin Hc Hk. pose proof (offsetOfIndex_spec k Hk) as Hoff.
  destruct (offsetOfIndex k) as [[lx ly] lz]. destruct Hoff as (Hx & Hy & Hz & Hidx).
  destruct (chunkOf_local cx cy cz lx ly lz Hx Hy Hz) as (HC & HL).
  unfold chunkOf in HC. unfold localOf in HL.
  unfold densityAt, getVoxel. rewrite HC, HL.
  rewrite chunkCoordinateToIndex_flat by (apply Hwf || assumption).
  rewrite Hc, Hidx. cbn [mbind option_bind].
  destruct (wf_world_chunk _ _ _ Hwf Hc) as (Hv & Hcol).
  change CHUNK_VOXELS with 4096 in *.
  destruct (aget_in_range (chunk_value c) k) as [v ->]; [lia |].
  destruct (aget_in_range (chunk_color c) (k * 3 + 0)) as [r ->]; [lia |].
  destruct (aget_in_range (chunk_color c) (k * 3 + 1)) as [g ->]; [lia |].
  destruct (aget_in_range (chunk_color c) (k * 3 + 2)) as [b ->]; [lia |].
  reflexivity.
Qed.

Lemma sumZ_replicate n : sumZ (replicate n 0) = 0.
Proof. unfold sumZ. induction n as [| n IH]; simpl; lia. Qed.

(** A density array that is zero except for [v] at [k0] sums to [v]. *)
Lemma sumZ_single (vals : list Z) k0 v :
  Z.of_nat (length vals) = CHUNK_VOXELS -> 0 <= k0 < CHUNK_VOXELS ->
  (forall k, 0 <= k < CHUNK_VOXELS -> aget vals k = Some (if decide (k = k0) then v else 0)) ->
  sumZ vals = v.
Proof.
  change CHUNK_VOXELS with 4096. intros Hlen Hk0 Hvals.
  assert (vals = <[Z.to_nat k0 := v]> (replicate (length vals) 0)) as ->.
  { apply list_eq. intros i.
    destruct (decide (i < length vals)%nat) as [Hi | Hi].
    - specialize (Hvals (Z.of_nat i) ltac:(lia)).
      rewrite aget_lookup, Nat2Z.id in Hvals by lia. rewrite Hvals.
      destruct (decide (Z.of_nat i = k0)) as [<- | Hne].
      + rewrite Nat2Z.id, list_lookup_insert_eq by (rewrite length_replicate; lia).
        reflexivity.
      + rewrite list_lookup_insert_ne by lia.
        symmetry. apply lookup_replicate_2. lia.
    - rewrite !lookup_ge_None_2; [reflexivity | | lia].
      rewrite length_insert, length_replicate. lia. }
  rewrite (sumZ_insert _ _ _ 0), sumZ_replicate by (apply lookup_replicate_2; lia). lia.
Qed.

Lemma sumZ_zero (vals : list Z) :
  Z.of_nat (length vals) = CHUNK_VOXELS ->
  (forall k, 0 <= k < CHUNK_VOXELS -> aget vals k = Some 0) ->
  sumZ vals = 0.
Proof.
  change CHUNK_VOXELS with 4096. intros Hlen Hvals.
  assert (vals = replicate (length vals) 0) as ->.
  { apply list_eq. intros i.
    destruct (decide (i < length vals)%nat) as [Hi | Hi].
    - specialize (Hvals (Z.of_nat i) ltac:(lia)).
      rewrite aget_lookup, Nat2Z.id in Hvals by lia. rewrite Hvals.
      symmetry. apply lookup_replicate_2. lia.
    - rewrite !lookup_ge_None_2; [reflexivity | | lia].
      rewrite length_replicate. lia. }
  apply sumZ_replicate.
Qed.

Lemma sum_ok_sumZ c : wf_chunk c -> sum_ok c -> chunk_sum c = sumZ (chunk_value c).
Proof.
  intros (Hv & _) Hs. unfold sum_ok in Hs.
  change CHUNK_VOXELS with 4096 in Hv.
  rewrite (sumValues_take _ 0) in Hs by (change (Z.to_nat CHUNK_VOXELS) with 4096%nat; lia).
  injection Hs as <-. rewrite drop_0, take_ge by (change (Z.to_nat CHUNK_VOXELS) with 4096%nat; lia).
  lia.
Qed.

(** In a world whose only solid voxel is [(px, py, pz)]: the chunk that
    owns the voxel has a non-zero sum, every other chunk inside the bounds
    has sum 0. *)
Lemma onlySolid_chunk_sums w px py pz cx cy cz :
  wf_world w -> sums_ok w -> onlySolidAt w (px, py, pz) ->
  chunkAbsentOrEmpty w cx cy cz
  = Some (negb (coord_eqb (chunkOf px py pz) (cx, cy, cz))
          || negb (match chunkCoordinateToIndex cx cy cz (bounds w) with
                   | Some _ => true | None => false end)).
Proof.
  intros Hwf Hsums Hsolid. pose proof Hwf as (Hok & Hlen & _).
  unfold chunkAbsentOrEmpty.
  destruct (chunkCoordinateToIndex cx cy cz (bounds w)) as [i |] eqn:Hi;
    [| now rewrite orb_true_r].
  pose proof (chunkCoordinateToIndex_inBounds _ _ _ _ _ Hi) as Hin.
  rewrite chunkCoordinateToIndex_flat in Hi by assumption. injection Hi as <-.
  pose proof (flatIndex_range _ _ _ _ Hok Hin) as Hr.
  destruct (aget_in_range (chunks w) (flatIndex (bounds w) cx cy cz)) as [c Hc]; [lia |].
  rewrite Hc. cbn [mbind option_bind]. f_equal. rewrite orb_false_r.
  pose proof (wf_world_chunk _ _ _ Hwf Hc) as Hwfc.
  rewrite (sum_ok_sumZ c Hwfc (Hsums _ _ Hc)).
  assert (Hden : forall k, 0 <= k < CHUNK_VOXELS ->
            aget (chunk_value c) k
            = Some (let '(lx, ly, lz) := offsetOfIndex k in
                    if decide ((cx * CHUNK_SIZE + lx, cy * CHUNK_SIZE + ly,
                                cz * CHUNK_SIZE + lz) = (px, py, pz))
                    then 255 else 0)).
  { intros k Hk. pose proof (densityAt_chunk w cx cy cz c k Hwf Hin Hc Hk) as H.
    destruct (offsetOfIndex k) as [[lx ly] lz]. rewrite <- H. apply Hsolid. }
  destruct (chunkOf px py pz) as [[qx qy] qz] eqn:HC.
  destruct (localOf px py pz) as [[lx ly] lz] eqn:HL.
  destruct (localOf_range _ _ _ _ _ _ HL) as (Hx & Hy & Hz).
  assert (Hp : px = qx * CHUNK_SIZE + lx /\ py = qy * CHUNK_SIZE + ly
               /\ pz = qz * CHUNK_SIZE + lz).
  { unfold chunkOf, localOf, worldPositionToChunkCoordinates,
      worldPositionToChunkPosition in HC, HL.
    injection HC as <- <- <-. injection HL as <- <- <-.
    change CHUNK_BITS with 4. change CHUNK_MASK with (Z.ones 4). change CHUNK_SIZE with 16.
    rewrite !Z.shiftr_div_pow2, !Z.land_ones by lia. change (2 ^ 4) with 16.
    pose proof (Z.div_mod px 16 ltac:(lia)). pose proof (Z.div_mod py 16 ltac:(lia)).
    pose proof (Z.div_mod pz 16 ltac:(lia)). lia. }
  destruct Hp as (-> & -> & ->).
  destruct (coord_eqb (qx, qy, qz) (cx, cy, cz)) eqn:E; cbn [negb].
  - apply coord_eqb_eq in E. injection E as <- <- <-.
    destruct (getVoxelIndex_small lx ly lz Hx Hy Hz) as (Hidx & Hkr).
    rewrite (sumZ_single (chunk_value c) (getVoxelIndex lx ly lz) 255);
      [reflexivity | apply Hwfc | exact Hkr |].
    intros k Hk. rewrite (Hden k Hk).
    pose proof (offsetOfIndex_spec k Hk) as Hoff.
    destruct (offsetOfIndex k) as [[ox oy] oz]. destruct Hoff as (Hox & Hoy & Hoz & Hok').
    f_equal. change CHUNK_SIZE with 16 in *.
    destruct (decide (k = getVoxelIndex lx ly lz)) as [-> | Hne].
    + rewrite decide_True; [reflexivity |].
      destruct (getVoxelIndex_small ox oy oz) as (Ho & _); try (change CHUNK_SIZE with 16; lia).
      apply triple_eq; lia.
    + rewrite decide_False; [reflexivity |].
      intros [= E1 E2 E3]. apply Hne. rewrite <- Hok'.
      f_equal; lia.
  - rewrite (sumZ_zero (chunk_value c)); [reflexivity | apply Hwfc |].
    intros k Hk. rewrite (Hden k Hk).
    pose proof (offsetOfIndex_spec k Hk) as Hoff.
    destruct (offsetOfIndex k) as [[ox oy] oz]. destruct Hoff as (Hox & Hoy & Hoz & _).
    f_equal. rewrite decide_False; [reflexivity |].
    change CHUNK_SIZE with 16 in *. intros [= E1 E2 E3].
    assert ((qx, qy, qz) = (cx, cy, cz)) as Heq by (apply triple_eq; lia).
    apply coord_eqb_eq in Heq. congruence.
Qed.
(** ** What an edit leaves alone *)

Lemma setVoxel_wf w wx wy wz v r g b w' :
  wf_world w -> setVoxel w wx wy wz v r g b = Some w' -> wf_world w'.
Proof.
  intros Hwf Hset. pose proof Hwf as (Hok & Hlen & Hall).
  destruct (chunkOf wx wy wz) as [[cx cy] cz] eqn:HC.
  destruct (localOf wx wy wz) as [[lx ly] lz] eqn:HL.
  destruct (chunkCoordinateToIndex cx cy cz (bounds w)) as [i |] eqn:Hi.
  - apply chunkCoordinateToIndex_inBounds in Hi.
    destruct (setVoxel_chunks w wx wy wz v r g b _ _ _ _ _ _ Hwf HC HL Hi)
      as (c0 & prev & w1 & _ & _ & Hset1 & Hb & Hl & _).
    assert (w1 = w') as -> by congruence.
    split; [now rewrite Hb |]. split; [rewrite Hb; lia |].
    eapply setVoxel_all; [| | exact Hset | exact Hall].
    + intros c d Hc. exact Hc.
    + intros c k prev' (Hv & Hcol) Hk Hprev _. unfold wf_chunk, editedChunk.
      cbn [chunk_value chunk_color set_dirtyMesh set_sum set_color set_value].
      now rewrite !length_insert.
  - apply chunkCoordinateToIndex_None in Hi.
    rewrite setVoxel_ignored in Hset; [congruence |].
    unfold ownerInBounds. now rewrite HC.
Qed.

Lemma coordinate_split x :
  x = Z.shiftr x CHUNK_BITS * CHUNK_SIZE + Z.land x CHUNK_MASK.
Proof.
  change CHUNK_BITS with 4. change CHUNK_MASK with (Z.ones 4). change CHUNK_SIZE with 16.
  rewrite Z.shiftr_div_pow2, Z.land_ones by lia. change (2 ^ 4) with 16.
  pose proof (Z.div_mod x 16 ltac:(lia)). lia.
Qed.

Lemma getVoxelIndex_inj lx ly lz lx' ly' lz' :
  0 <= lx < CHUNK_SIZE -> 0 <= ly < CHUNK_SIZE -> 0 <= lz < CHUNK_SIZE ->
  0 <= lx' < CHUNK_SIZE -> 0 <= ly' < CHUNK_SIZE -> 0 <= lz' < CHUNK_SIZE ->
  getVoxelIndex lx ly lz = getVoxelIndex lx' ly' lz' -> (lx, ly, lz) = (lx', ly', lz').
Proof.
  intros Hx Hy Hz Hx' Hy' Hz'.
  destruct (getVoxelIndex_small lx ly lz Hx Hy Hz) as (-> & _).
  destruct (getVoxelIndex_small lx' ly' lz' Hx' Hy' Hz') as (-> & _).
  change CHUNK_SIZE with 16 in *. intros H. apply triple_eq; lia.
Qed.

(** The voxels that [setVoxel] does not address read as before. *)
Lemma getVoxel_elsewhere w x y z d r g b w' x' y' z' :
  wf_world w -> setVoxel w x y z d r g b = Some w' ->
  (x', y', z') <> (x, y, z) ->
  getVoxel w' x' y' z' = getVoxel w x' y' z'.
Proof.
  intros Hwf Hset Hne. pose proof Hwf as (Hok & Hlen & Hall).
  destruct (chunkOf x y z) as [[cx cy] cz] eqn:HC.
  destruct (localOf x y z) as [[lx ly] lz] eqn:HL.
  destruct (chunkCoordinateToIndex cx cy cz (bounds w)) as [i |] eqn:Hi.
  2:{ apply chunkCoordinateToIndex_None in Hi.
      rewrite setVoxel_ignored in Hset by (unfold ownerInBounds; now rewrite HC).
      congruence. }
  apply chunkCoordinateToIndex_inBounds in Hi.
  destruct (setVoxel_chunks w x y z d r g b _ _ _ _ _ _ Hwf HC HL Hi)
    as (c0 & prev & w1 & Hc0 & Hprev & Hset1 & Hb & Hl & Hown & Hoth).
  assert (w1 = w') as -> by congruence.
  destruct (chunkOf x' y' z') as [[cx' cy'] cz'] eqn:HC'.
  destruct (localOf x' y' z') as [[lx' ly'] lz'] eqn:HL'.
  destruct (localOf_range _ _ _ _ _ _ HL) as (Hx & Hy & Hz).
  destruct (localOf_range _ _ _ _ _ _ HL') as (Hx' & Hy' & Hz').
  unfold getVoxel. unfold chunkOf in HC'. unfold localOf in HL'. rewrite HC', HL', Hb.
  destruct (chunkCoordinateToIndex cx' cy' cz' (bounds w)) as [i' |] eqn:Hi';
    [| reflexivity].
  pose proof (chunkCoordinateToIndex_inBounds _ _ _ _ _ Hi') as Hin'.
  rewrite chunkCoordinateToIndex_flat in Hi' by assumption. injection Hi' as <-.
  pose proof (flatIndex_range _ _ _ _ Hok Hin') as Hr'.
  destruct (aget_in_range (chunks w) (flatIndex (bounds w) cx' cy' cz')) as [c Hc]; [lia |].
  destruct (decide ((cx', cy', cz') = (cx, cy, cz))) as [Heq | Hneq].
  - injection Heq as -> -> ->. rewrite Hown, Hc0. cbn [mbind option_bind].
    assert (Hk : getVoxelIndex lx' ly' lz' <> getVoxelIndex lx ly lz).
    { intros E. apply getVoxelIndex_inj in E; try assumption. injection E as -> -> ->.
      apply Hne. unfold chunkOf, localOf, worldPositionToChunkCoordinates,
        worldPositionToChunkPosition in *.
      injection HC as E1 E2 E3. injection HC' as E1' E2' E3'.
      injection HL as F1 F2 F3. injection HL' as F1' F2' F3'.
      apply triple_eq.
      - rewrite (coordinate_split x'), (coordinate_split x). congruence.
      - rewrite (coordinate_split y'), (coordinate_split y). congruence.
      - rewrite (coordinate_split z'), (coordinate_split z). congruence. }
    destruct (getVoxelIndex_small lx ly lz Hx Hy Hz) as (_ & Hkr).
    destruct (getVoxelIndex_small lx' ly' lz' Hx' Hy' Hz') as (_ & Hkr').
    set (k := getVoxelIndex lx ly lz) in *. set (k' := getVoxelIndex lx' ly' lz') in *.
    unfold editedChunk.
    cbn [chunk_value chunk_color set_dirtyMesh set_sum set_color set_value].
    rewrite (aget_insert_ne _ k k') by lia.
    rewrite !(aget_insert_ne _ _ (k' * 3 + 0)) by lia.
    rewrite !(aget_insert_ne _ _ (k' * 3 + 1)) by lia.
    rewrite !(aget_insert_ne _ _ (k' * 3 + 2)) by lia.
    reflexivity.
  - rewrite (Hoth _ _ _ _ Hin' Hneq Hc), Hc. reflexivity.
Qed.

Lemma aget_replicate {A} n (v : A) k :
  0 <= k < n -> aget (replicate (Z.to_nat n) v) k = Some v.
Proof. intros H. rewrite aget_lookup by lia. apply lookup_replicate_2. lia. Qed.

Lemma getVoxel_initVoxels x0 x1 y0 y1 z0 z1 x y z :
  bounds_ok (mkChunkBounds x0 x1 y0 y1 z0 z1) ->
  getVoxel (initVoxels x0 x1 y0 y1 z0 z1) x y z = Some (0, 0, 0, 0).
Proof.
  intros Hok. unfold getVoxel.
  destruct (worldPositionToChunkCoordinates x y z) as [[cx cy] cz].
  destruct (worldPositionToChunkPosition x y z) as [[lx ly] lz] eqn:HL.
  change (bounds (initVoxels x0 x1 y0 y1 z0 z1)) with (mkChunkBounds x0 x1 y0 y1 z0 z1).
  destruct (chunkCoordinateToIndex cx cy cz _) as [i |] eqn:Hi; [| reflexivity].
  pose proof (chunkCoordinateToIndex_inBounds _ _ _ _ _ Hi) as Hin.
  rewrite chunkCoordinateToIndex_flat in Hi by assumption. injection Hi as <-.
  rewrite initVoxels_aget by (try apply flatIndex_range; assumption).
  cbn [mbind option_bind].
  destruct (newChunk_fields (flatIndex (mkChunkBounds x0 x1 y0 y1 z0 z1) cx cy cz)
              (mkChunkBounds x0 x1 y0 y1 z0 z1)) as (-> & -> & _).
  destruct (localOf_range _ _ _ _ _ _ HL) as (Hx & Hy & Hz).
  destruct (getVoxelIndex_small lx ly lz Hx Hy Hz) as (_ & Hk).
  change CHUNK_VOXELS with 4096 in *.
  rewrite !aget_replicate by lia. reflexivity.
Qed.
(** ** Stepping the raycast loop *)

Section RayLoopSteps.

Variable w : Voxels.
Variables ox oy oz dx dy dz maxD : f32.

Lemma rayLoop_continue fuel out s s' :
  (ray_distance s <? maxD)%f32 = true ->
  rayStep w ox oy oz dx dy dz maxD out s = Some (Continue s') ->
  rayLoop w ox oy oz dx dy dz maxD (S fuel) out s
  = rayLoop w ox oy oz dx dy dz maxD fuel out s'.
Proof. intros Hg Hs. cbn [rayLoop]. now rewrite Hg, Hs. Qed.

Lemma rayLoop_return fuel out s res :
  (ray_distance s <? maxD)%f32 = true ->
  rayStep w ox oy oz dx dy dz maxD out s = Some (Return res) ->
  rayLoop w ox oy oz dx dy dz maxD (S fuel) out s = Some res.
Proof. intros Hg Hs. cbn [rayLoop]. now rewrite Hg, Hs. Qed.

Lemma rayStep_skip out s cx cy cz :
  worldPositionToChunkCoordinates (ray_x s) (ray_y s) (ray_z s) = (cx, cy, cz) ->
  chunkAbsentOrEmpty w cx cy cz = Some true ->
  rayStep w ox oy oz dx dy dz maxD out s
  = Some (skipChunk ox oy oz dx dy dz maxD out cx cy cz s).
Proof. intros Hc Ha. unfold rayStep. now rewrite Hc, Ha. Qed.

Lemma rayStep_miss out s cx cy cz r g b :
  worldPositionToChunkCoordinates (ray_x s) (ray_y s) (ray_z s) = (cx, cy, cz) ->
  chunkAbsentOrEmpty w cx cy cz = Some false ->
  getVoxel w (ray_x s) (ray_y s) (ray_z s) = Some (0, r, g, b) ->
  rayStep w ox oy oz dx dy dz maxD out s = Some (Continue (advance dx dy dz s)).
Proof.
  intros Hc Ha Hv. unfold rayStep. rewrite Hc, Ha. cbn [mbind option_bind].
  unfold testVoxel. now rewrite Hv.
Qed.

Lemma rayStep_hit out s cx cy cz r g b :
  worldPositionToChunkCoordinates (ray_x s) (ray_y s) (ray_z s) = (cx, cy, cz) ->
  chunkAbsentOrEmpty w cx cy cz = Some false ->
  getVoxel w (ray_x s) (ray_y s) (ray_z s) = Some (255, r, g, b) ->
  rayStep w ox oy oz dx dy dz maxD out s
  = Some (Return (hitResult ox oy oz dx dy dz 255 r g b s)).
Proof.
  intros Hc Ha Hv. unfold rayStep. rewrite Hc, Ha. cbn [mbind option_bind].
  unfold testVoxel. now rewrite Hv.
Qed.

End RayLoopSteps.

Lemma densityAt_getVoxel w x y z v :
  densityAt w x y z = Some v -> exists r g b, getVoxel w x y z = Some (v, r, g, b).
Proof.
  unfold densityAt. destruct (getVoxel w x y z) as [[[[v' r] g] b] |]; [| discriminate].
  intros [= <-]. eauto.
Qed.

Lemma onlySolid_present w px py pz :
  onlySolidAt w (px, py, pz) ->
  let '(cx, cy, cz) := chunkOf px py pz in
  exists i, chunkCoordinateToIndex cx cy cz (bounds w) = Some i.
Proof.
  intros Hs. specialize (Hs px py pz). rewrite decide_True in Hs by reflexivity.
  unfold densityAt, getVoxel, chunkOf in *.
  destruct (worldPositionToChunkCoordinates px py pz) as [[cx cy] cz].
  destruct (worldPositionToChunkPosition px py pz) as [[lx ly] lz].
  destruct (chunkCoordinateToIndex cx cy cz (bounds w)) as [i |]; [eauto | discriminate].
Qed.

(** C7: in every well-formed world whose only solid voxel is (5,5,5), with
    density 255 and all other densities 0, and whose chunks store their
    density sums, the ray from (5,5,-10) in direction (0,0,1) with
    maxDistance 100 reports a hit at voxel (5,5,5) with face normal
    (0,0,-1); the distance is 14.5, the distance to the entry face of the
    voxel, which is within half a voxel of 15. The chunk behind the ray's
    origin may be absent or present and empty. Seven passes of the loop
    suffice. *)
Theorem raycast_single_voxel w out n :
  wf_world w -> sums_ok w -> onlySolidAt w (5, 5, 5) ->
  exists res,
    raycastVoxels w (F32.of_int 5) (F32.of_int 5) (F32.of_int (-10))
                  F32.zero F32.zero F32.one (F32.of_int 100) (7 + n) out = Some res /\
    hit res = true /\
    (voxelX res, voxelY res, voxelZ res) = (5, 5, 5) /\
    distance res = F32.lit 29 2 /\
    betweenF (F32.lit 29 2) (F32.lit 31 2) (distance res) = true /\
    (normalX res, normalY res, normalZ res) = (F32.zero, F32.zero, F32.of_int (-1)) /\
    hit_value res = 255.
Proof.
  intros Hwf Hsums Hsolid.
  pose proof (onlySolid_chunk_sums w 5 5 5 0 0 (-1) Hwf Hsums Hsolid) as Hbehind.
  pose proof (onlySolid_chunk_sums w 5 5 5 0 0 0 Hwf Hsums Hsolid) as Hhere.
  destruct (onlySolid_present w 5 5 5 Hsolid) as [i Hi].
  change (chunkCoordinateToIndex 0 0 0 (bounds w) = Some i) in Hi.
  change (chunkOf 5 5 5) with (0, 0, 0) in Hbehind, Hhere.
  rewrite Hi in Hhere. cbn in Hbehind, Hhere.
  assert (Hair : forall z, z <> 5 -> exists r g b, getVoxel w 5 5 z = Some (0, r, g, b)).
  { intros z Hz. apply densityAt_getVoxel. rewrite Hsolid.
    rewrite decide_False; [reflexivity | congruence]. }
  destruct (densityAt_getVoxel w 5 5 5 255) as (r & g & b & Hrock).
  { rewrite Hsolid. now rewrite decide_True. }
  set (ox := F32.of_int 5). set (oz := F32.of_int (-10)). set (maxD := F32.of_int 100).
  set (d0 := F32.zero). set (d1 := F32.one).
  unfold raycastVoxels. change (7 + n)%nat with (S (S (S (S (S (S (S n))))))).
  (* pass 1: the chunk (0,0,-1) behind the origin is skipped *)
  let s0 := eval vm_compute in (rayInit ox ox oz d0 d0 d1) in
  change (rayInit ox ox oz d0 d0 d1) with s0.
  match goal with
  | |- context [rayLoop _ _ _ _ _ _ _ _ (S ?f) _ ?s] =>
      let r := eval vm_compute in (skipChunk ox ox oz d0 d0 d1 maxD out 0 0 (-1) s) in
      match r with
      | Continue ?s1 =>
          rewrite (rayLoop_continue w ox ox oz d0 d0 d1 maxD f out s s1);
          [| vm_compute; reflexivity
           | rewrite (rayStep_skip w ox ox oz d0 d0 d1 maxD out s 0 0 (-1) eq_refl Hbehind);
             vm_compute; reflexivity]
      end
  end.
  (* passes 2 to 6: the voxels (5,5,0) .. (5,5,4) are empty *)
  do 5 (match goal with
        | |- context [rayLoop _ _ _ _ _ _ _ _ (S ?f) _ ?s] =>
            let z := eval vm_compute in (ray_z s) in
            destruct (Hair z ltac:(lia)) as (r' & g' & b' & Hv);
            let s1 := eval vm_compute in (advance d0 d0 d1 s) in
            rewrite (rayLoop_continue w ox ox oz d0 d0 d1 maxD f out s s1);
            [| vm_compute; reflexivity
             | rewrite (rayStep_miss w ox ox oz d0 d0 d1 maxD out s 0 0 0 r' g' b'
                                   eq_refl Hhere Hv);
               vm_compute; reflexivity];
            clear r' g' b' Hv
        end).
  (* pass 7: the voxel (5,5,5) is hit *)
  match goal with
  | |- context [rayLoop _ _ _ _ _ _ _ _ (S ?f) _ ?s] =>
      rewrite (rayLoop_return w ox ox oz d0 d0 d1 maxD f out s
                 (hitResult ox ox oz d0 d0 d1 255 r g b s));
      [| vm_compute; reflexivity
       | exact (rayStep_hit w ox ox oz d0 d0 d1 maxD out s 0 0 0 r g b eq_refl Hhere Hrock)]
  end.
  eexists. split; [reflexivity |].
  repeat split; vm_compute; reflexivity.
Qed.

Lemma setVoxel_sums_ok w wx wy wz v r g b w' :
  Forall sum_ok (chunks w) -> setVoxel w wx wy wz v r g b = Some w' ->
  Forall sum_ok (chunks w').
Proof.
  intros Hall Hset. eapply setVoxel_all; [| | exact Hset | exact Hall].
  - intros c d Hc. exact Hc.
  - intros c k prev Hc Hk Hprev _. now apply sum_ok_edit.
Qed.

Lemma initVoxels_sums_ok x0 x1 y0 y1 z0 z1 :
  Forall sum_ok (chunks (initVoxels x0 x1 y0 y1 z0 z1)).
Proof.
  unfold initVoxels. cbn [chunks]. apply Forall_fmap, Forall_forall.
  intros n _. apply newChunk_sum_ok.
Qed.

(** A new world with one voxel set to density 255 is a world of the
    scenario. *)
Lemma single_voxel_world x0 x1 y0 y1 z0 z1 px py pz r g b w :
  bounds_ok (mkChunkBounds x0 x1 y0 y1 z0 z1) ->
  setVoxel (initVoxels x0 x1 y0 y1 z0 z1) px py pz 255 r g b = Some w ->
  ownerInBounds (initVoxels x0 x1 y0 y1 z0 z1) px py pz ->
  wf_world w /\ sums_ok w /\ onlySolidAt w (px, py, pz).
Proof.
  intros Hok Hset Hin. pose proof (initVoxels_wf _ _ _ _ _ _ Hok) as Hwf0.
  split; [eapply setVoxel_wf; eassumption |]. split.
  - intros i c Hc.
    pose proof (setVoxel_sums_ok _ _ _ _ _ _ _ _ _
                  (initVoxels_sums_ok x0 x1 y0 y1 z0 z1) Hset) as Hall.
    rewrite aget_lookup in Hc by (apply aget_Some_range in Hc; lia).
    rewrite Forall_lookup in Hall. eauto.
  - intros x y z. unfold densityAt.
    destruct (decide ((x, y, z) = (px, py, pz))) as [[= -> -> ->] | Hne].
    + destruct (getVoxel_written _ px py pz 255 r g b Hwf0 Hin) as (w1 & Hset1 & Hget).
      assert (w1 = w) as -> by congruence. now rewrite Hget.
    + rewrite (getVoxel_elsewhere _ _ _ _ _ _ _ _ _ _ _ _ Hwf0 Hset Hne).
      now rewrite getVoxel_initVoxels.
Qed.

Lemma raycast_single_voxel_witness :
  exists w res,
    wf_world w /\ sums_ok w /\ onlySolidAt w (5, 5, 5) /\
    raycastVoxels w (F32.of_int 5) (F32.of_int 5) (F32.of_int (-10))
                  F32.zero F32.zero F32.one (F32.of_int 100) 7 emptyResult = Some res /\
    hit res = true /\
    (voxelX res, voxelY res, voxelZ res) = (5, 5, 5) /\
    distance res = F32.lit 29 2.
Proof.
  assert (Hok : bounds_ok (mkChunkBounds 0 0 0 0 (-1) 0))
    by (apply bounds_ok_dec_true; reflexivity).
  assert (Hin : ownerInBounds (initVoxels 0 0 0 0 (-1) 0) 5 5 5)
    by (vm_compute; intuition congruence).
  destruct (getVoxel_written _ 5 5 5 255 200 100 50 (initVoxels_wf _ _ _ _ _ _ Hok) Hin)
    as (w & Hset & _).
  destruct (single_voxel_world _ _ _ _ _ _ _ _ _ _ _ _ _ Hok Hset Hin)
    as (Hwf & Hsums & Hsolid).
  destruct (raycast_single_voxel w emptyResult 0 Hwf Hsums Hsolid)
    as (res & Hres & Hhit & Hvox & Hdist & _).
  exists w, res. repeat (split; [assumption |]). assumption.
Defined.

(** ** The chunk skip against the per-voxel traversal *)

(** C1 (the source departs from it): a ray that leaves an absent chunk
    through its z face 0.00005 voxels before the next voxel boundary in x.
    The per-voxel traversal enters the solid voxel (0,0,0) and reports it;
    [raycastVoxels] jumps 0.0001 past the chunk exit, lands in voxel
    (1,0,0), never tests (0,0,0) and reports no hit. *)
Theorem skip_misses_clipped_voxel :
  let originX := F32.lit (-5) 100000 in
  let originY := F32.zero in
  let originZ := F32.of_int (-1) in
  let dir := F32.lit 70710678 100000000 in
  let maxDistance := F32.of_int 100 in
  exists w naive fast,
    setVoxel (initVoxels 0 0 0 0 0 0) 0 0 0 255 10 20 30 = Some w /\
    onlySolidAt w (0, 0, 0) /\
    chunkAbsentOrEmpty w 0 0 (-1) = Some true /\
    naiveRaycast w originX originY originZ dir F32.zero dir maxDistance 100 emptyResult
    = Some naive /\
    raycastVoxels w originX originY originZ dir F32.zero dir maxDistance 100 emptyResult
    = Some fast /\
    hit naive = true /\
    (voxelX naive, voxelY naive, voxelZ naive) = (0, 0, 0) /\
    hit fast = false.
Proof.
  intros originX originY originZ dir maxDistance.
  destruct (getVoxel_written (initVoxels 0 0 0 0 0 0) 0 0 0 255 10 20 30 single_chunk_wf)
    as (w & Hset & _).
  { vm_compute. intuition congruence. }
  destruct (single_voxel_world 0 0 0 0 0 0 0 0 0 10 20 30 w) as (_ & _ & Hsolid);
    [apply bounds_ok_dec_true; reflexivity | exact Hset
     | vm_compute; intuition congruence |].
  exists w.
  assert (Hw : Some w = setVoxel (initVoxels 0 0 0 0 0 0) 0 0 0 255 10 20 30)
    by (symmetry; exact Hset).
  vm_compute in Hw. injection Hw as ->.
  eexists _, _.
  split; [vm_compute; reflexivity |].
  split; [exact Hsolid |].
  split; [vm_compute; reflexivity |].
  split; [vm_compute; reflexivity |].
  split; [vm_compute; reflexivity |].
  repeat split.
Qed.
(** ** Noise never leaves its tables *)

Lemma perm_range_check :
  forallb (fun i => match aget perm i with
                    | Some v => (0 <=? v) && (v <=? 255)
                    | None => false
                    end) (zrange 512) = true.
Proof. vm_compute. reflexivity. Qed.

Lemma perm_lookup i :
  0 <= i < 512 -> exists v, aget perm i = Some v /\ 0 <= v <= 255.
Proof.
  intros Hi.
  pose proof (proj1 (forallb_forall _ _) perm_range_check i (zrange_In 512 i ltac:(lia))) as H.
  cbv beta in H. destruct (aget perm i) as [v |]; [| discriminate].
  exists v. split; [reflexivity | lia].
Qed.

Lemma gradIndex_total a b c :
  0 <= a <= 256 -> 0 <= b <= 256 -> 0 <= c <= 256 ->
  exists g, gradIndex a b c = Some g /\ 0 <= g < 12.
Proof.
  intros Ha Hb Hc. unfold gradIndex.
  destruct (perm_lookup c) as (pc & -> & Hpc); [lia |]. cbn [mbind option_bind].
  destruct (perm_lookup (b + pc)) as (pb & -> & Hpb); [lia |]. cbn [mbind option_bind].
  destruct (perm_lookup (a + pb)) as (pa & -> & Hpa); [lia |]. cbn [mbind option_bind].
  eexists. split; [reflexivity |].
  pose proof (Z.rem_bound_pos pa 12 ltac:(lia) ltac:(lia)). lia.
Qed.

Lemma cornerNoise_total gi x y z :
  0 <= gi < 12 -> exists n, cornerNoise gi x y z = Some n.
Proof.
  intros Hg. unfold cornerNoise.
  destruct (aget_in_range grad3 gi) as [g Hg3]; [simpl; lia |].
  destruct (F32.ltb _ _); [eauto |]. rewrite Hg3. cbn [mbind option_bind]. eauto.
Qed.

Lemma simplexOrder_range x0 y0 z0 :
  let '(i1, j1, k1, i2, j2, k2) := simplexOrder x0 y0 z0 in
  0 <= i1 <= 1 /\ 0 <= j1 <= 1 /\ 0 <= k1 <= 1 /\
  0 <= i2 <= 1 /\ 0 <= j2 <= 1 /\ 0 <= k2 <= 1.
Proof.
  unfold simplexOrder.
  destruct (F32.geb x0 y0), (F32.geb y0 z0), (F32.geb x0 z0),
    (F32.ltb y0 z0), (F32.ltb x0 z0); lia.
Qed.

Lemma land_255_range i : 0 <= Z.land i 255 <= 255.
Proof.
  change 255 with (Z.ones 8). rewrite Z.land_ones by lia.
  pose proof (Z.mod_pos_bound i (2 ^ 8) eq_refl) as H. change (2 ^ 8) with 256 in *. change (Z.ones 8) with 255. lia.
Qed.

Lemma simplexNoise3D_total x y z seed : exists n, simplexNoise3D x y z seed = Some n.
Proof.
  unfold simplexNoise3D. cbv zeta.
  match goal with
  | |- context [simplexOrder ?a ?b ?c] =>
      pose proof (simplexOrder_range a b c) as Hord;
      destruct (simplexOrder a b c) as [[[[[i1 j1] k1] i2] j2] k2]
  end.
  destruct Hord as (H1 & H2 & H3 & H4 & H5 & H6).
  repeat match goal with
         | |- context [gradIndex ?a ?b ?c] =>
             let g := fresh "g" in
             let Hg := fresh "Hg" in
             let Hr := fresh "Hr" in
             destruct (gradIndex_total a b c) as (g & Hg & Hr);
             [ match goal with |- context [Z.land ?i 255] =>
                 pose proof (land_255_range i); lia end ..
             | rewrite Hg; cbn [mbind option_bind] ]
         end.
  repeat match goal with
         | |- context [cornerNoise ?g ?a ?b ?c] =>
             let n := fresh "n" in
             let Hn := fresh "Hn" in
             destruct (cornerNoise_total g a b c) as (n & Hn);
             [ assumption | rewrite Hn; cbn [mbind option_bind] ]
         end.
  eauto.
Qed.

Lemma fbmLoop_total octaves : forall i x y z seed lacunarity gain st,
  exists st', fbmLoop octaves i x y z seed lacunarity gain st = Some st'.
Proof.
  induction octaves as [| n IH]; intros i x y z seed lacunarity gain st.
  - eexists. reflexivity.
  - destruct st as [[[amplitude frequency] sum] maxValue]. cbn [fbmLoop].
    destruct (simplexNoise3D_total (F32.mul x frequency) (F32.mul y frequency)
                (F32.mul z frequency) (seed + i)) as (n0 & ->).
    cbn [mbind option_bind]. apply IH.
Qed.

Lemma fbm3_total x y z seed octaves lacunarity gain :
  exists n, fbm3 x y z seed octaves lacunarity gain = Some n.
Proof.
  unfold fbm3.
  destruct (fbmLoop_total (Z.to_nat octaves) 0 x y z seed lacunarity gain
              (F32.one, F32.one, F32.zero, F32.zero)) as ([[[a f] s] m] & ->).
  cbn [mbind option_bind]. eauto.
Qed.

Lemma generatedVoxel_total wx wy wz seed :
  exists gv, generatedVoxel wx wy wz seed = Some gv.
Proof.
  unfold generatedVoxel, solidityAt.
  match goal with
  | |- context [fbm3 ?x ?y ?z ?s ?o ?l ?g] =>
      destruct (fbm3_total x y z s o l g) as (n & ->)
  end.
  cbn [mbind option_bind]. cbv zeta.
  match goal with |- context [if ?b then _ else _] => destruct b end; [| eauto].
  unfold solidVoxel.
  match goal with
  | |- context [fbm3 ?x ?y ?z ?s ?o ?l ?g] =>
      destruct (fbm3_total x y z s o l g) as (h & ->)
  end.
  cbn [mbind option_bind]. cbv zeta.
  repeat match goal with |- context [match ?t with _ => _ end] => destruct t end;
  eexists; reflexivity.
Qed.

(** ** Chunk generation, voxel by voxel *)

Lemma forEach_inv {St} (I : Z -> St -> Prop) (body : Z -> St -> option St) n :
  forall lo s,
    I lo s ->
    (forall i s, lo <= i < lo + Z.of_nat n -> I i s ->
                 exists s', body i s = Some s' /\ I (i + 1) s') ->
    exists s', forEach n lo body s = Some s' /\ I (lo + Z.of_nat n) s'.
Proof.
  induction n as [| n IH]; intros lo s H0 Hstep.
  - exists s. split; [reflexivity |]. now replace (lo + Z.of_nat 0) with lo by lia.
  - destruct (Hstep lo s ltac:(lia) H0) as (s1 & Hb & H1).
    destruct (IH (lo + 1) s1 H1) as (s2 & Hf & H2).
    { intros i s' Hi. apply Hstep. lia. }
    exists s2. cbn [forEach]. rewrite Hb. cbn [mbind option_bind].
    split; [exact Hf |]. now replace (lo + Z.of_nat (S n)) with (lo + 1 + Z.of_nat n) by lia.
Qed.

Lemma turnOf_spec k :
  0 <= k < CHUNK_VOXELS ->
  forall lx ly lz,
    0 <= lx < CHUNK_SIZE -> 0 <= ly < CHUNK_SIZE -> 0 <= lz < CHUNK_SIZE ->
    (turnOf k = (lz * CHUNK_SIZE + ly) * CHUNK_SIZE + lx <-> offsetOfIndex k = (lx, ly, lz)) /\
    (offsetOfIndex k = (lx, ly, lz) <-> k = lx + lz * 16 + ly * 256).
Proof.
  intros Hk lx ly lz Hx Hy Hz.
  pose proof (offsetOfIndex_spec k Hk) as Hspec. unfold turnOf.
  destruct (offsetOfIndex k) as [[ox oy] oz].
  destruct Hspec as (Hox & Hoy & Hoz & Hidx).
  destruct (getVoxelIndex_small ox oy oz Hox Hoy Hoz) as (Hsmall & _).
  rewrite Hsmall in Hidx.
  change CHUNK_SIZE with 16 in *.
  split; split; intros H.
  - assert (ox = lx /\ oy = ly /\ oz = lz) as (-> & -> & ->) by lia. reflexivity.
  - injection H as -> -> ->. reflexivity.
  - injection H as -> -> ->. lia.
  - assert (ox = lx /\ oy = ly /\ oz = lz) as (-> & -> & ->) by lia. reflexivity.
Qed.

Lemma voxelOf_written c k d r g b :
  wf_chunk c -> 0 <= k < CHUNK_VOXELS ->
  exists c',
    (vals ← aset (chunk_value c) k d;
     c0 ← aset (chunk_color c) (k * 3 + 0) r;
     c1 ← aset c0 (k * 3 + 1) g;
     c2 ← aset c1 (k * 3 + 2) b;
     Some (set_color (set_value c vals) c2)) = Some c' /\
    wf_chunk c' /\
    voxelOf c' k = Some (d, r, g, b) /\
    forall k', 0 <= k' -> k' <> k -> voxelOf c' k' = voxelOf c k'.
Proof.
  intros (Hv & Hc) Hk. change CHUNK_VOXELS with 4096 in *.
  rewrite (aset_in_range (chunk_value c) k d) by lia. cbn [mbind option_bind].
  rewrite (aset_in_range (chunk_color c) (k * 3 + 0) r) by lia. cbn [mbind option_bind].
  rewrite aset_in_range by (rewrite length_insert; lia). cbn [mbind option_bind].
  rewrite aset_in_range by (rewrite !length_insert; lia). cbn [mbind option_bind].
  eexists. split; [reflexivity |].
  split; [| split].
  - unfold wf_chunk. change CHUNK_VOXELS with 4096.
    split; cbn [chunk_value chunk_color set_color set_value]; rewrite ?length_insert; lia.
  - unfold voxelOf. cbn [chunk_value chunk_color set_color set_value].
    rewrite (aget_insert_eq (chunk_value c) k d) by lia. cbn [mbind option_bind].
    rewrite (aget_insert_ne _ (k * 3 + 2) (k * 3 + 0)) by lia.
    rewrite (aget_insert_ne _ (k * 3 + 1) (k * 3 + 0)) by lia.
    rewrite (aget_insert_eq (chunk_color c) (k * 3 + 0) r) by lia. cbn [mbind option_bind].
    rewrite (aget_insert_ne _ (k * 3 + 2) (k * 3 + 1)) by lia.
    rewrite (aget_insert_eq _ (k * 3 + 1) g) by (rewrite length_insert; lia).
    cbn [mbind option_bind].
    rewrite (aget_insert_eq _ (k * 3 + 2) b) by (rewrite !length_insert; lia). reflexivity.
  - intros k' Hk' Hne. unfold voxelOf. cbn [chunk_value chunk_color set_color set_value].
    rewrite (aget_insert_ne _ k k') by lia.
    rewrite !(aget_insert_ne _ (k * 3 + 2)) by lia.
    rewrite !(aget_insert_ne _ (k * 3 + 1)) by lia.
    rewrite !(aget_insert_ne _ (k * 3 + 0)) by lia.
    reflexivity.
Qed.

Lemma generateVoxel_step c cx cy cz seed lz ly lx c1 :
  0 <= lx < CHUNK_SIZE -> 0 <= ly < CHUNK_SIZE -> 0 <= lz < CHUNK_SIZE ->
  generatedUpTo c cx cy cz seed ((lz * CHUNK_SIZE + ly) * CHUNK_SIZE + lx) c1 ->
  exists c2, generateVoxel cx cy cz seed lz ly lx c1 = Some c2 /\
             generatedUpTo c cx cy cz seed ((lz * CHUNK_SIZE + ly) * CHUNK_SIZE + lx + 1) c2.
Proof.
  intros Hx Hy Hz (Hwf & Hinv).
  set (pos := (lz * CHUNK_SIZE + ly) * CHUNK_SIZE + lx) in *.
  set (idx := lx + lz * 16 + ly * 256).
  assert (Hidx : 0 <= idx < CHUNK_VOXELS)
    by (subst idx; change CHUNK_SIZE with 16 in *; change CHUNK_VOXELS with 4096; lia).
  assert (Hturn : forall k, 0 <= k < CHUNK_VOXELS ->
            (turnOf k = pos <-> offsetOfIndex k = (lx, ly, lz)) /\
            (offsetOfIndex k = (lx, ly, lz) <-> k = idx))
    by (intros k Hk; now apply turnOf_spec).
  assert (Hgen : generatedOrKept c cx cy cz seed idx
                 = match generatedVoxel (cx * CHUNK_SIZE + lx) (cy * CHUNK_SIZE + ly)
                                        (cz * CHUNK_SIZE + lz) seed with
                   | Some (Some v) => Some v
                   | _ => voxelOf c idx
                   end).
  { unfold generatedOrKept.
    destruct (Hturn idx Hidx) as (_ & Hoff). rewrite (proj2 Hoff eq_refl). reflexivity. }
  assert (Hhere : voxelOf c1 idx = voxelOf c idx).
  { rewrite (Hinv idx Hidx).
    destruct (Z.ltb_spec (turnOf idx) pos) as [Hlt | _]; [| reflexivity].
    destruct (Hturn idx Hidx) as (Ht & Hoff).
    pose proof (proj2 Ht (proj2 Hoff eq_refl)). lia. }
  unfold generateVoxel. cbv zeta.
  destruct (generatedVoxel_total (cx * CHUNK_SIZE + lx) (cy * CHUNK_SIZE + ly)
              (cz * CHUNK_SIZE + lz) seed) as (gv & Hgv).
  rewrite Hgv in *. cbn [mbind option_bind].
  destruct gv as [[[[d r] g] b] |].
  - replace (to_size_t (lx + lz * CHUNK_SIZE + ly * CHUNK_SIZE * CHUNK_SIZE)) with idx.
    2:{ unfold to_size_t. rewrite size_wrap_small.
        - subst idx. change CHUNK_SIZE with 16. lia.
        - change CHUNK_SIZE with 16 in *. change (2 ^ SIZE_BITS) with 4294967296. lia. }
    destruct (voxelOf_written c1 idx d r g b Hwf Hidx) as (c2 & -> & Hwf2 & Hat & Hother).
    exists c2. split; [reflexivity |]. split; [exact Hwf2 |].
    intros k Hk. destruct (Hturn k Hk) as (Ht & Hoff).
    destruct (Z.eq_dec k idx) as [-> | Hne].
    + rewrite Hat, Hgen.
      destruct (Z.ltb_spec (turnOf idx) (pos + 1)) as [_ | Hge]; [reflexivity |].
      pose proof (proj2 Ht (proj2 Hoff eq_refl)). lia.
    + rewrite Hother by lia. rewrite (Hinv k Hk).
      assert (turnOf k <> pos) by (intros He; apply Hne, Hoff, Ht, He).
      destruct (Z.ltb_spec (turnOf k) pos), (Z.ltb_spec (turnOf k) (pos + 1));
        try reflexivity; lia.
  - exists c1. split; [reflexivity |]. split; [exact Hwf |].
    intros k Hk. destruct (Hturn k Hk) as (Ht & Hoff).
    destruct (Z.eq_dec k idx) as [-> | Hne].
    + rewrite Hhere, Hgen.
      destruct (Z.ltb_spec (turnOf idx) (pos + 1)); reflexivity.
    + rewrite (Hinv k Hk).
      assert (turnOf k <> pos) by (intros He; apply Hne, Hoff, Ht, He).
      destruct (Z.ltb_spec (turnOf k) pos), (Z.ltb_spec (turnOf k) (pos + 1));
        try reflexivity; lia.
Qed.

Lemma generatedUpTo_pos c cx cy cz seed pos pos' c' :
  pos = pos' -> generatedUpTo c cx cy cz seed pos c' -> generatedUpTo c cx cy cz seed pos' c'.
Proof. now intros ->. Qed.

Lemma generateVoxels_spec c cx cy cz seed :
  wf_chunk c ->
  exists c', generateVoxels cx cy cz seed c = Some c' /\
             generatedUpTo c cx cy cz seed CHUNK_VOXELS c'.
Proof.
  intros Hwf. unfold generateVoxels.
  destruct (forEach_inv
              (fun lz => generatedUpTo c cx cy cz seed (lz * CHUNK_SIZE * CHUNK_SIZE))
              (fun lz => forEach (Z.to_nat CHUNK_SIZE) 0 (fun ly =>
                 forEach (Z.to_nat CHUNK_SIZE) 0 (fun lx =>
                   generateVoxel cx cy cz seed lz ly lx)))
              (Z.to_nat CHUNK_SIZE) 0 c) as (c' & Hrun & Hend).
  - split; [exact Hwf |]. intros k Hk.
    pose proof (offsetOfIndex_spec k Hk) as Hspec. unfold turnOf.
    destruct (offsetOfIndex k) as [[ox oy] oz]. change CHUNK_SIZE with 16 in *.
    destruct (Z.ltb_spec ((oz * 16 + oy) * 16 + ox) (0 * 16 * 16)); [lia | reflexivity].
  - intros lz c1 Hlz H1.
    destruct (forEach_inv
                (fun ly => generatedUpTo c cx cy cz seed ((lz * CHUNK_SIZE + ly) * CHUNK_SIZE))
                (fun ly => forEach (Z.to_nat CHUNK_SIZE) 0 (fun lx =>
                   generateVoxel cx cy cz seed lz ly lx))
                (Z.to_nat CHUNK_SIZE) 0 c1) as (c2 & Hrun & Hend).
    + eapply generatedUpTo_pos; [| exact H1]. lia.
    + intros ly c2 Hly H2.
      destruct (forEach_inv
                  (fun lx => generatedUpTo c cx cy cz seed
                               ((lz * CHUNK_SIZE + ly) * CHUNK_SIZE + lx))
                  (fun lx => generateVoxel cx cy cz seed lz ly lx)
                  (Z.to_nat CHUNK_SIZE) 0 c2) as (c3 & Hrun & Hend).
      * eapply generatedUpTo_pos; [| exact H2]. lia.
      * intros lx c3 Hlx H3.
        change (Z.of_nat (Z.to_nat CHUNK_SIZE)) with CHUNK_SIZE in *.
        destruct (generateVoxel_step c cx cy cz seed lz ly lx c3) as (c4 & Hc4 & H4);
          [lia | lia | lia | exact H3 |].
        exists c4. split; [exact Hc4 |].
        eapply generatedUpTo_pos; [| exact H4]. lia.
      * exists c3. split; [exact Hrun |].
        eapply generatedUpTo_pos; [| exact Hend].
        change (Z.of_nat (Z.to_nat CHUNK_SIZE)) with CHUNK_SIZE. lia.
    + exists c2. split; [exact Hrun |].
      eapply generatedUpTo_pos; [| exact Hend].
      change (Z.of_nat (Z.to_nat CHUNK_SIZE)) with CHUNK_SIZE. lia.
  - exists c'. split; [exact Hrun |].
    eapply generatedUpTo_pos; [| exact Hend]. reflexivity.
Qed.

Lemma sumValues_total c :
  wf_chunk c -> exists s, sumValues (Z.to_nat CHUNK_VOXELS) 0 (chunk_value c) 0 = Some s.
Proof.
  intros (Hv & _). eexists.
  apply (sumValues_take (Z.to_nat CHUNK_VOXELS) 0 (chunk_value c) 0).
  change CHUNK_VOXELS with 4096 in *. lia.
Qed.

Lemma generateChunkBody_spec c cx cy cz seed :
  wf_chunk c ->
  exists c', generateChunkBody c cx cy cz seed = Some c' /\
             wf_chunk c' /\ sum_ok c' /\
             forall k, 0 <= k < CHUNK_VOXELS ->
                       voxelOf c' k = generatedOrKept c cx cy cz seed k.
Proof.
  intros Hwf.
  destruct (generateVoxels_spec c cx cy cz seed Hwf) as (c1 & Hgen & Hwf1 & Hinv).
  destruct (sumValues_total c1 Hwf1) as (s & Hs).
  assert (Hbody : generateChunkBody c cx cy cz seed = Some (set_sum c1 s)).
  { unfold generateChunkBody. rewrite Hgen. cbn [mbind option_bind].
    rewrite (recomputeChunkSum_intro c1 s Hs). reflexivity. }
  exists (set_sum c1 s). split; [exact Hbody |].
  split; [exact Hwf1 |].
  split; [eapply generateChunkBody_sum_ok; exact Hbody |].
  intros k Hk. change (voxelOf (set_sum c1 s) k) with (voxelOf c1 k).
  rewrite (Hinv k Hk).
  pose proof (offsetOfIndex_spec k Hk) as Hspec. unfold turnOf.
  destruct (offsetOfIndex k) as [[ox oy] oz]. change CHUNK_SIZE with 16 in *.
  change CHUNK_VOXELS with 4096.
  destruct (Z.ltb_spec ((oz * 16 + oy) * 16 + ox) 4096); [reflexivity | lia].
Qed.

Lemma generatedOrKept_solidity c cx cy cz seed lx ly lz :
  0 <= lx < CHUNK_SIZE -> 0 <= ly < CHUNK_SIZE -> 0 <= lz < CHUNK_SIZE ->
  let k := getVoxelIndex lx ly lz in
  let wx := cx * CHUNK_SIZE + lx in
  let wy := cy * CHUNK_SIZE + ly in
  let wz := cz * CHUNK_SIZE + lz in
  exists solidity,
    solidityAt wx wy wz seed = Some solidity /\
    if (solidity >? F32.lit 1 100)%f32
    then exists r g b,
        solidVoxel wx wy wz seed solidity
        = Some (to_uint8 (solidity * F32.of_int 255)%f32, r, g, b) /\
        generatedOrKept c cx cy cz seed k
        = Some (to_uint8 (solidity * F32.of_int 255)%f32, r, g, b)
    else generatedOrKept c cx cy cz seed k = voxelOf c k.
Proof.
  intros Hx Hy Hz k wx wy wz.
  destruct (getVoxelIndex_small lx ly lz Hx Hy Hz) as (Hk & Hkr). fold k in Hk, Hkr.
  destruct (turnOf_spec k Hkr lx ly lz Hx Hy Hz) as (_ & Hoff).
  unfold generatedOrKept. rewrite (proj2 Hoff Hk). fold wx wy wz.
  destruct (generatedVoxel_total wx wy wz seed) as (gv & Hgv). rewrite Hgv.
  unfold generatedVoxel in Hgv.
  destruct (solidityAt wx wy wz seed) as [s |]; [| discriminate].
  cbn [mbind option_bind] in Hgv. exists s. split; [reflexivity |].
  destruct (s >? F32.lit 1 100)%f32.
  - destruct (solidVoxel wx wy wz seed s) as [v |] eqn:Hv; [| discriminate].
    cbn [mbind option_bind] in Hgv. injection Hgv as <-.
    assert (Hd : fst (fst (fst v)) = to_uint8 (s * F32.of_int 255)%f32).
    { revert Hv. unfold solidVoxel.
      destruct (fbm3 _ _ _ _ _ _ _) as [n |]; [| discriminate].
      cbn [mbind option_bind]. cbv zeta.
      repeat match goal with |- context [match ?t with _ => _ end] => destruct t end;
        intros [= <-]; reflexivity. }
    destruct v as [[[d r] g] b]. cbn [fst] in Hd. subst d.
    exists r, g, b. split; reflexivity.
  - injection Hgv as <-. reflexivity.
Qed.

Lemma generateChunk_spec w i c cx cy cz seed :
  aget (chunks w) i = Some c -> wf_chunk c ->
  exists c',
    generateChunk w (Some i) cx cy cz seed = Some (set_chunk w i c') /\
    aget (chunks (set_chunk w i c')) i = Some c' /\
    wf_chunk c' /\ sum_ok c' /\
    forall k, 0 <= k < CHUNK_VOXELS -> voxelOf c' k = generatedOrKept c cx cy cz seed k.
Proof.
  intros Hc Hwf.
  destruct (generateChunkBody_spec c cx cy cz seed Hwf) as (c' & Hbody & Hwf' & Hsum & Hvox).
  exists c'. split; [| split; [| auto]].
  - unfold generateChunk. rewrite Hc. cbn [mbind option_bind]. rewrite Hbody. reflexivity.
  - cbn [chunks set_chunk]. apply aget_insert_eq. eapply aget_Some_range, Hc.
Qed.

Lemma getVoxel_voxelOf w cx cy cz i c lx ly lz :
  chunkCoordinateToIndex cx cy cz (bounds w) = Some i ->
  aget (chunks w) i = Some c ->
  0 <= lx < CHUNK_SIZE -> 0 <= ly < CHUNK_SIZE -> 0 <= lz < CHUNK_SIZE ->
  getVoxel w (cx * CHUNK_SIZE + lx) (cy * CHUNK_SIZE + ly) (cz * CHUNK_SIZE + lz)
  = voxelOf c (getVoxelIndex lx ly lz).
Proof.
  intros Hi Hc Hx Hy Hz.
  destruct (chunkOf_local cx cy cz lx ly lz Hx Hy Hz) as (HC & HL).
  unfold chunkOf in HC. unfold localOf in HL.
  unfold getVoxel. rewrite HC, HL, Hi, Hc. reflexivity.
Qed.

(** ** Generation over an edited chunk *)

(** The voxel (64, 0, 0) has solidity 0 under seed 0, yet after an edit gave
    it density 200, [generateChunk] on its chunk leaves the 200 in place:
    the store is skipped when the solidity does not exceed 0.01. *)
Lemma generateChunk_keeps_old_voxel :
  exists w1 w2,
    setVoxel (initVoxels 4 4 0 0 0 0) 64 0 0 200 1 2 3 = Some w1 /\
    generateChunk w1 (getChunkAt w1 4 0 0) 4 0 0 0 = Some w2 /\
    solidityAt 64 0 0 0 = Some F32.zero /\
    to_uint8 (F32.zero * F32.of_int 255)%f32 = 0 /\
    getVoxel w2 64 0 0 = Some (200, 1, 2, 3).
Proof.
  assert (Hok : bounds_ok (mkChunkBounds 4 4 0 0 0 0))
    by (apply bounds_ok_dec_true; reflexivity).
  pose proof (initVoxels_wf _ _ _ _ _ _ Hok) as Hwf0.
  assert (Hin : inBounds (bounds (initVoxels 4 4 0 0 0 0)) 4 0 0)
    by (vm_compute; intuition congruence).
  destruct (setVoxel_chunks (initVoxels 4 4 0 0 0 0) 64 0 0 200 1 2 3 4 0 0 0 0 0
              Hwf0 eq_refl eq_refl Hin)
    as (c0 & prev & w1 & Hc0 & _ & Hset & Hb & _ & Hown & _).
  change (flatIndex (bounds (initVoxels 4 4 0 0 0 0)) 4 0 0) with 0 in Hown, Hc0.
  change (getVoxelIndex 0 0 0) with 0 in Hown.
  pose proof (setVoxel_wf _ _ _ _ _ _ _ _ _ Hwf0 Hset) as Hwf1.
  pose proof (wf_world_chunk _ _ _ Hwf0 Hc0) as Hwfc0.
  pose proof (wf_world_chunk _ _ _ Hwf1 Hown) as Hwfc1.
  assert (Hidx : chunkCoordinateToIndex 4 0 0 (bounds w1) = Some 0)
    by (rewrite Hb; reflexivity).
  destruct (editedChunk_reads c0 0 prev 200 1 2 3 Hwfc0 ltac:(vm_compute; intuition congruence))
    as (Ev & Er & Eg & Eb).
  set (c1 := editedChunk c0 0 prev 200 1 2 3) in *.
  destruct (generateChunk_spec w1 0 c1 4 0 0 0 Hown Hwfc1)
    as (c2 & Hgen & Hget & _ & _ & Hvox).
  exists w1, (set_chunk w1 0 c2).
  split; [exact Hset |].
  split; [unfold getChunkAt; rewrite Hidx; exact Hgen |].
  split; [vm_compute; reflexivity |].
  split; [vm_compute; reflexivity |].
  change (getVoxel (set_chunk w1 0 c2) 64 0 0)
    with (getVoxel (set_chunk w1 0 c2) (4 * CHUNK_SIZE + 0) (0 * CHUNK_SIZE + 0)
                   (0 * CHUNK_SIZE + 0)).
  rewrite (getVoxel_voxelOf (set_chunk w1 0 c2) 4 0 0 0 c2 0 0 0 Hidx Hget)
    by (vm_compute; intuition congruence).
  change (getVoxelIndex 0 0 0) with 0.
  rewrite (Hvox 0) by (vm_compute; intuition congruence).
  assert (Hkept : generatedOrKept c1 4 0 0 0 0 = voxelOf c1 0).
  { unfold generatedOrKept. change (offsetOfIndex 0) with (0, 0, 0).
    assert (Hnone : generatedVoxel (4 * CHUNK_SIZE + 0) (0 * CHUNK_SIZE + 0)
                                   (0 * CHUNK_SIZE + 0) 0 = Some None)
      by (vm_compute; reflexivity).
    cbv beta iota. rewrite Hnone. reflexivity. }
  rewrite Hkept. unfold voxelOf.
  rewrite Ev. cbn [mbind option_bind]. rewrite Er. cbn [mbind option_bind].
  rewrite Eg. cbn [mbind option_bind]. rewrite Eb. reflexivity.
Qed.

(** C5 (as the source has it): on a chunk with full-size arrays
    [generateChunk] returns, the chunk's [sum] is again the sum of its
    densities, and each of its 4096 local voxels either holds the generated
    voxel, whose density is the solidity (the smoothstep of the fbm value at
    its world coordinate) scaled to 0..255, when the solidity exceeds 0.01,
    or else holds the density and colour it had before the call. *)
Theorem generateChunk_voxels w i c cx cy cz seed :
  aget (chunks w) i = Some c -> wf_chunk c ->
  exists w' c',
    generateChunk w (Some i) cx cy cz seed = Some w' /\
    aget (chunks w') i = Some c' /\
    sum_ok c' /\
    forall lx ly lz,
      0 <= lx < CHUNK_SIZE -> 0 <= ly < CHUNK_SIZE -> 0 <= lz < CHUNK_SIZE ->
      let k := getVoxelIndex lx ly lz in
      let wx := cx * CHUNK_SIZE + lx in
      let wy := cy * CHUNK_SIZE + ly in
      let wz := cz * CHUNK_SIZE + lz in
      exists solidity,
        solidityAt wx wy wz seed = Some solidity /\
        if (solidity >? F32.lit 1 100)%f32
        then exists r g b,
            solidVoxel wx wy wz seed solidity
            = Some (to_uint8 (solidity * F32.of_int 255)%f32, r, g, b) /\
            voxelOf c' k = Some (to_uint8 (solidity * F32.of_int 255)%f32, r, g, b)
        else voxelOf c' k = voxelOf c k.
Proof.
  intros Hc Hwf.
  destruct (generateChunk_spec w i c cx cy cz seed Hc Hwf)
    as (c' & Hgen & Hget & _ & Hsum & Hvox).
  exists (set_chunk w i c'), c'. repeat (split; [assumption |]).
  intros lx ly lz Hx Hy Hz k wx wy wz.
  destruct (getVoxelIndex_small lx ly lz Hx Hy Hz) as (_ & Hkr). fold k in Hkr.
  rewrite (Hvox k Hkr).
  exact (generatedOrKept_solidity c cx cy cz seed lx ly lz Hx Hy Hz).
Qed.

Lemma generateChunk_voxels_witness :
  exists w' c',
    generateChunk (initVoxels 0 0 0 0 0 0) (Some 0) 0 0 0 0 = Some w' /\
    aget (chunks w') 0 = Some c' /\
    sum_ok c' /\
    voxelOf c' 0 = Some (123, 24, 105, 123).
Proof.
  assert (Hc : aget (chunks (initVoxels 0 0 0 0 0 0)) 0
               = Some (newChunk 0 (mkChunkBounds 0 0 0 0 0 0))) by reflexivity.
  destruct (generateChunk_voxels (initVoxels 0 0 0 0 0 0) 0 _ 0 0 0 0 Hc (newChunk_wf _ _))
    as (w' & c' & Hgen & Hget & Hsum & Hvox).
  exists w', c'. repeat (split; [assumption |]).
  destruct (Hvox 0 0 0 ltac:(vm_compute; intuition congruence)
              ltac:(vm_compute; intuition congruence)
              ltac:(vm_compute; intuition congruence)) as (s & Hs & Hif).
  change (getVoxelIndex 0 0 0) with 0 in Hif.
  assert (Hs0 : solidityAt (0 * CHUNK_SIZE + 0) (0 * CHUNK_SIZE + 0) (0 * CHUNK_SIZE + 0) 0
                = Some (S754_finite false 16187848 (-25))) by (vm_compute; reflexivity).
  rewrite Hs0 in Hs. injection Hs as <-.
  assert (Hgt : (S754_finite false 16187848 (-25) >? F32.lit 1 100)%f32 = true) by (vm_compute; reflexivity).
  rewrite Hgt in Hif. destruct Hif as (r & g & b & Hsolid & Hv).
  assert (Hsv : solidVoxel (0 * CHUNK_SIZE + 0) (0 * CHUNK_SIZE + 0) (0 * CHUNK_SIZE + 0) 0
                  (S754_finite false 16187848 (-25)) = Some (123, 24, 105, 123)) by (vm_compute; reflexivity).
  rewrite Hsv in Hsolid. rewrite Hv. exact (eq_sym Hsolid).
Defined.

(** ** The mesher leaves the world alone *)

Lemma hoare_ret {A} (P : Memory -> Prop) (a : A) (Q : A -> Memory -> Prop) :
  (forall m, P m -> Q a m) -> hoare P (mret a) Q.
Proof. intros H m Hm. exists a, m. split; [reflexivity | auto]. Qed.

Lemma hoare_bind {A B} (P : Memory -> Prop) (c : M A) (Q : A -> Memory -> Prop)
      (k : A -> M B) (R : B -> Memory -> Prop) :
  hoare P c Q -> (forall a, hoare (Q a) (k a) R) -> hoare P (c ≫= k) R.
Proof.
  intros Hc Hk m Hm. destruct (Hc m Hm) as (a & m1 & Hrun & Hq).
  destruct (Hk a m1 Hq) as (b & m2 & Hrun2 & Hr).
  exists b, m2. split; [| exact Hr].
  unfold mbind, M_bind, bind. rewrite Hrun. exact Hrun2.
Qed.

Lemma hoare_post {A} (P : Memory -> Prop) (c : M A) (Q Q' : A -> Memory -> Prop) :
  hoare P c Q -> (forall a m, Q a m -> Q' a m) -> hoare P c Q'.
Proof.
  intros Hc Hq m Hm. destruct (Hc m Hm) as (a & m1 & Hrun & H). eauto.
Qed.

Lemma hoare_pre {A} (P P' : Memory -> Prop) (c : M A) (Q : A -> Memory -> Prop) :
  (forall m, P' m -> P m) -> hoare P c Q -> hoare P' c Q.
Proof. intros Hp Hc m Hm. apply Hc, Hp, Hm. Qed.

Lemma hoare_liftOpt {A} (P : Memory -> Prop) (o : option A) a :
  o = Some a -> hoare P (liftOpt o) (fun r m => r = a /\ P m).
Proof. intros -> m Hm. exists a, m. split; [reflexivity | auto]. Qed.

Lemma hoare_forLoop (I : Z -> Memory -> Prop) (body : Z -> M unit) n :
  forall lo,
    (forall i, lo <= i < lo + Z.of_nat n -> hoare (I i) (body i) (fun _ => I (i + 1))) ->
    hoare (I lo) (forLoop n lo body) (fun _ => I (lo + Z.of_nat n)).
Proof.
  induction n as [| n IH]; intros lo Hbody.
  - intros m Hm. exists tt, m. split; [reflexivity |].
    now replace (lo + Z.of_nat 0) with lo by lia.
  - cbn [forLoop]. intros m Hm.
    destruct (Hbody lo ltac:(lia) m Hm) as ([] & m1 & Hrun & H1).
    destruct (IH (lo + 1) ltac:(intros i Hi; apply Hbody; lia) m1 H1) as ([] & m2 & Hrun2 & H2).
    exists tt, m2. split.
    + unfold bind. rewrite Hrun. exact Hrun2.
    + now replace (lo + Z.of_nat (S n)) with (lo + 1 + Z.of_nat n) by lia.
Qed.

Lemma hoare_forRange (I : Z -> Memory -> Prop) (body : Z -> M unit) hi :
  0 <= hi ->
  (forall i, 0 <= i < hi -> hoare (I i) (body i) (fun _ => I (i + 1))) ->
  hoare (I 0) (forRange hi body) (fun _ => I hi).
Proof.
  intros Hhi Hbody. unfold forRange.
  eapply hoare_post.
  - apply (hoare_forLoop I body (Z.to_nat hi) 0). intros i Hi. apply Hbody. lia.
  - intros u m Hm. cbv beta in Hm. now replace (0 + Z.of_nat (Z.to_nat hi)) with hi in Hm by lia.
Qed.

(** *** Reads of the world *)

Lemma getVoxel_total w x y z : wf_world w -> exists v, getVoxel w x y z = Some v.
Proof.
  intros Hwf. pose proof Hwf as (Hok & Hlen & Hall). unfold getVoxel.
  destruct (worldPositionToChunkCoordinates x y z) as [[cx cy] cz].
  destruct (worldPositionToChunkPosition x y z) as [[lx ly] lz] eqn:HL.
  destruct (localOf_range x y z lx ly lz HL) as (Hx & Hy & Hz).
  destruct (chunkCoordinateToIndex cx cy cz (bounds w)) as [i |] eqn:Hi; [| eauto].
  pose proof (chunkCoordinateToIndex_inBounds _ _ _ _ _ Hi) as Hin.
  rewrite (chunkCoordinateToIndex_flat _ _ _ _ Hok Hin) in Hi. injection Hi as <-.
  pose proof (flatIndex_range _ _ _ _ Hok Hin) as Hr.
  destruct (aget_in_range (chunks w) (flatIndex (bounds w) cx cy cz)) as (c & Hc); [lia |].
  rewrite Hc. cbn [mbind option_bind].
  destruct (wf_world_chunk _ _ _ Hwf Hc) as (Hv & Hcol).
  destruct (getVoxelIndex_small lx ly lz Hx Hy Hz) as (_ & Hk).
  change CHUNK_VOXELS with 4096 in *. cbv zeta.
  destruct (aget_in_range (chunk_value c) (getVoxelIndex lx ly lz)) as (v & ->); [lia |].
  destruct (aget_in_range (chunk_color c) (getVoxelIndex lx ly lz * 3 + 0)) as (r & ->); [lia |].
  destruct (aget_in_range (chunk_color c) (getVoxelIndex lx ly lz * 3 + 1)) as (g & ->); [lia |].
  destruct (aget_in_range (chunk_color c) (getVoxelIndex lx ly lz * 3 + 2)) as (b & ->); [lia |].
  cbn [mbind option_bind]. eauto.
Qed.

Lemma getVoxelRelative_total w c lx ly lz :
  wf_world w -> wf_chunk c -> exists v, getVoxelRelative w c lx ly lz = Some v.
Proof.
  intros Hwf (Hv & Hcol). unfold getVoxelRelative.
  destruct ((lx >=? 0) && (lx <? CHUNK_SIZE) && (ly >=? 0) && (ly <? CHUNK_SIZE)
            && (lz >=? 0) && (lz <? CHUNK_SIZE)) eqn:Hin.
  - change CHUNK_SIZE with 16 in Hin.
    destruct (getVoxelIndex_small lx ly lz) as (_ & Hk);
      [change CHUNK_SIZE with 16; lia .. |].
    change CHUNK_VOXELS with 4096 in *. cbv zeta.
    destruct (aget_in_range (chunk_value c) (getVoxelIndex lx ly lz)) as (v & ->); [lia |].
    destruct (aget_in_range (chunk_color c) (getVoxelIndex lx ly lz * 3 + 0)) as (r & ->);
      [lia |].
    destruct (aget_in_range (chunk_color c) (getVoxelIndex lx ly lz * 3 + 1)) as (g & ->);
      [lia |].
    destruct (aget_in_range (chunk_color c) (getVoxelIndex lx ly lz * 3 + 2)) as (b & ->);
      [lia |].
    cbn [mbind option_bind]. eauto.
  - cbv zeta. apply getVoxel_total, Hwf.
Qed.

(** *** The tables *)

Lemma triCheck_all :
  forallb (fun ci => forallb (triCheck ci) [0; 3; 6; 9; 12; 15]) (zrange 256) = true.
Proof. vm_compute. reflexivity. Qed.

Lemma triCheck_true ci i :
  0 <= ci < 256 -> In i [0; 3; 6; 9; 12; 15] -> triCheck ci i = true.
Proof.
  intros Hci Hi.
  pose proof (proj1 (forallb_forall _ _) triCheck_all ci (zrange_In 256 ci ltac:(lia))) as H.
  cbv beta in H. exact (proj1 (forallb_forall _ _) H i Hi).
Qed.

Lemma edgeTable_total ci : 0 <= ci < 256 -> exists e, aget edgeTable ci = Some e.
Proof.
  intros Hci. apply aget_in_range.
  assert (length edgeTable = 256%nat) as -> by reflexivity. lia.
Qed.

Lemma cubeIndexOf_total ss :
  Z.of_nat (length ss) = 8 -> exists ci, cubeIndexOf ss = Some ci /\ 0 <= ci < 256.
Proof.
  intros Hlen. unfold cubeIndexOf.
  destruct (aget_in_range ss 0) as (s0 & ->); [lia |].
  destruct (aget_in_range ss 1) as (s1 & ->); [lia |].
  destruct (aget_in_range ss 2) as (s2 & ->); [lia |].
  destruct (aget_in_range ss 3) as (s3 & ->); [lia |].
  destruct (aget_in_range ss 4) as (s4 & ->); [lia |].
  destruct (aget_in_range ss 5) as (s5 & ->); [lia |].
  destruct (aget_in_range ss 6) as (s6 & ->); [lia |].
  destruct (aget_in_range ss 7) as (s7 & ->); [lia |].
  cbn [mbind option_bind]. eexists. split; [reflexivity |].
  destruct (sample_value s0 >=? ISOLEVEL), (sample_value s1 >=? ISOLEVEL),
    (sample_value s2 >=? ISOLEVEL), (sample_value s3 >=? ISOLEVEL),
    (sample_value s4 >=? ISOLEVEL), (sample_value s5 >=? ISOLEVEL),
    (sample_value s6 >=? ISOLEVEL), (sample_value s7 >=? ISOLEVEL);
    vm_compute; intuition congruence.
Qed.

Lemma hoare_pure {A} (phi : Prop) (P : Memory -> Prop) (c : M A) (Q : A -> Memory -> Prop) :
  (phi -> hoare P c Q) -> hoare (fun m => phi /\ P m) c Q.
Proof. intros H m (Hphi & Hm). now apply H. Qed.

Lemma hoare_ex {A X} (P : X -> Memory -> Prop) (c : M A) (Q : A -> Memory -> Prop) :
  (forall x, hoare (P x) c Q) -> hoare (fun m => exists x, P x m) c Q.
Proof. intros H m (x & Hm). exact (H x m Hm). Qed.

Lemma worst_case_components :
  CHUNK_GEOMETRY_WORST_CASE_POSITIONS_COMPONENTS = 184320 /\
  CHUNK_GEOMETRY_WORST_CASE_NORMALS_COMPONENTS = 184320 /\
  CHUNK_GEOMETRY_WORST_CASE_COLORS_COMPONENTS = 184320.
Proof. repeat split; reflexivity. Qed.

Lemma bufAt_push a0 cnt a v :
  bufAt a0 cnt a -> cnt < Z.of_nat (length a0) ->
  aset a cnt v = Some (<[Z.to_nat cnt := v]> a) /\
  bufAt a0 (cnt + 1) (<[Z.to_nat cnt := v]> a).
Proof.
  intros (H0 & Hlen & Htail) Hlt. split.
  - apply aset_in_range. rewrite Hlen. lia.
  - split; [lia |]. split; [now rewrite length_insert |].
    intros j Hj. rewrite aget_insert_ne by lia. apply Htail. lia.
Qed.

Lemma bufAt_refl a : bufAt a 0 a.
Proof. split; [lia |]. split; reflexivity. Qed.

Section MeshFrame.

Variable srgbToLinearLUT : Z -> f32.
Variable m0 : Memory.
Variable chunk : Z.
Variable c : VoxelChunk.
Hypothesis Hwf : wf_world (mem_world m0).
Hypothesis Hchunk : aget (chunks (mem_world m0)) chunk = Some c.
Hypothesis Hscratch : scratch_ok m0.
Hypothesis Hsized : presized (mem_out m0).

Lemma meshMem_scratch p n k m m' :
  meshMem m0 p n k m -> mem_world m' = mem_world m -> mem_out m' = mem_out m ->
  scratch_ok m' -> meshMem m0 p n k m'.
Proof.
  intros (Hw & _ & Hg) Hw' Ho' Hs'. split; [congruence |]. split; [exact Hs' |].
  now rewrite Ho'.
Qed.

Lemma meshMem_counts p n k p' n' k' m :
  meshMem m0 p n k m -> p = p' -> n = n' -> k = k' -> meshMem m0 p' n' k' m.
Proof. now intros H -> -> ->. Qed.

Lemma resetCounts_hoare :
  hoare (fun m => m = m0) resetCounts (fun _ => meshMem m0 0 0 0).
Proof.
  intros m ->. eexists tt, _. split; [reflexivity |].
  split; [reflexivity |]. split; [exact Hscratch |].
  cbn [mem_out]. unfold geomAt.
  cbn [positionsCount normalsCount colorsCount positionsCapacity normalsCapacity
       colorsCapacity positions normals colors].
  repeat split; try reflexivity; lia.
Qed.

Lemma presample_hoare ly lz lx p n k :
  0 <= ly < SAMPLE_GRID_SIZE -> 0 <= lz < SAMPLE_GRID_SIZE -> 0 <= lx < SAMPLE_GRID_SIZE ->
  hoare (meshMem m0 p n k) (presample chunk ly lz lx) (fun _ => meshMem m0 p n k).
Proof.
  change SAMPLE_GRID_SIZE with 17. intros Hy Hz Hx m Hm.
  pose proof Hm as (Hw & (Hs & He & Hgv & Hgc) & Hg).
  change SAMPLE_GRID_SIZE with 17 in Hgv, Hgc.
  destruct (getVoxelRelative_total (mem_world m0) c lx ly lz Hwf
              (wf_world_chunk _ _ _ Hwf Hchunk)) as ([[[v r] g] b] & Hv).
  unfold presample, mbind, M_bind, bind, readWorld, readGrid, liftOpt, writeGrid.
  cbv beta iota. rewrite Hw, Hchunk. cbv beta iota. rewrite Hv. cbv beta iota.
  unfold gridIndex. change SAMPLE_GRID_SIZE with 17.
  set (i := (ly * 17 + lz) * 17 + lx).
  assert (Hi : 0 <= i < 4913) by (subst i; lia).
  rewrite (aset_in_range (grid_values (mem_gridBuffer m)) i v) by lia.
  rewrite (aset_in_range (grid_colors (mem_gridBuffer m)) (i * 3 + 0) r) by lia.
  rewrite (aset_in_range _ (i * 3 + 1) g) by (rewrite length_insert; lia).
  rewrite (aset_in_range _ (i * 3 + 2) b) by (rewrite !length_insert; lia).
  eexists tt, _. split; [reflexivity |].
  eapply meshMem_scratch; [exact Hm | reflexivity | reflexivity |].
  unfold scratch_ok. cbn [mem_samples mem_edgePoints mem_gridBuffer grid_values grid_colors].
  rewrite !length_insert. change SAMPLE_GRID_SIZE with 17. auto.
Qed.

Lemma loadSample_hoare i x y z p n k :
  0 <= i < 8 ->
  0 <= x < SAMPLE_GRID_SIZE -> 0 <= y < SAMPLE_GRID_SIZE -> 0 <= z < SAMPLE_GRID_SIZE ->
  hoare (meshMem m0 p n k) (loadSample i x y z) (fun _ => meshMem m0 p n k).
Proof.
  change SAMPLE_GRID_SIZE with 17. intros Hi Hx Hy Hz m Hm.
  pose proof Hm as (Hw & (Hs & He & Hgv & Hgc) & Hg).
  change SAMPLE_GRID_SIZE with 17 in Hgv, Hgc.
  unfold loadSample, mbind, M_bind, bind, readGrid, readSamples, liftOpt, writeSamples.
  cbv beta iota. unfold gridIndex. change SAMPLE_GRID_SIZE with 17.
  set (j := (y * 17 + z) * 17 + x).
  assert (Hj : 0 <= j < 4913) by (subst j; lia).
  destruct (aget_in_range (grid_values (mem_gridBuffer m)) j) as (v & ->); [lia |].
  destruct (aget_in_range (grid_colors (mem_gridBuffer m)) (j * 3 + 0)) as (r & ->); [lia |].
  destruct (aget_in_range (grid_colors (mem_gridBuffer m)) (j * 3 + 1)) as (g & ->); [lia |].
  destruct (aget_in_range (grid_colors (mem_gridBuffer m)) (j * 3 + 2)) as (b & ->); [lia |].
  cbv beta iota. rewrite aset_in_range by lia.
  eexists tt, _. split; [reflexivity |].
  eapply meshMem_scratch; [exact Hm | reflexivity | reflexivity |].
  unfold scratch_ok. cbn [mem_samples mem_edgePoints mem_gridBuffer].
  rewrite length_insert. change SAMPLE_GRID_SIZE with 17. auto.
Qed.

Lemma interpolateEdge_hoare edges bit i a b p n k :
  0 <= i < 12 -> 0 <= a < 8 -> 0 <= b < 8 ->
  hoare (meshMem m0 p n k) (interpolateEdge srgbToLinearLUT edges bit i a b)
        (fun _ => meshMem m0 p n k).
Proof.
  intros Hi Ha Hb m Hm. pose proof Hm as (Hw & (Hs & He & Hgv & Hgc) & Hg).
  unfold interpolateEdge. destruct (Z.land edges bit =? 0).
  - exists tt, m. split; [reflexivity | exact Hm].
  - unfold mbind, M_bind, bind, readSamples, readEdgePoints, liftOpt, writeEdgePoints.
    cbv beta iota.
    destruct (aget_in_range (mem_samples m) a) as (sa & ->); [lia |].
    destruct (aget_in_range (mem_samples m) b) as (sb & ->); [lia |].
    cbv beta iota. rewrite aset_in_range by lia.
    eexists tt, _. split; [reflexivity |].
    eapply meshMem_scratch; [exact Hm | reflexivity | reflexivity |].
    unfold scratch_ok. cbn [mem_samples mem_edgePoints mem_gridBuffer].
    rewrite length_insert. auto.
Qed.

Lemma pushPosition_hoare v p n k :
  p < 184320 ->
  hoare (meshMem m0 p n k) (pushPosition v) (fun _ => meshMem m0 (p + 1) n k).
Proof.
  intros Hp m (Hw & Hs & Hcp & Hcn & Hcc & Hkp & Hkn & Hkc & Hbp & Hbn & Hbc).
  destruct Hsized as (Hlen & _). rewrite (proj1 worst_case_components) in Hlen.
  pose proof Hbp as (Hp0 & _).
  destruct (bufAt_push _ _ _ v Hbp ltac:(lia)) as (Hset & Hbp').
  unfold pushPosition, mbind, M_bind, bind, readOut, liftOpt, writeOut. cbv beta iota.
  rewrite Hcp, Hset. eexists tt, _. split; [reflexivity |].
  split; [exact Hw |]. split; [exact Hs |].
  cbn [mem_out]. unfold geomAt.
  cbn [positionsCount normalsCount colorsCount positionsCapacity normalsCapacity
       colorsCapacity positions normals colors].
  unfold size_add. rewrite size_wrap_small by (change (2 ^ SIZE_BITS) with 4294967296; lia).
  auto 12.
Qed.

Lemma pushNormal_hoare v p n k :
  n < 184320 ->
  hoare (meshMem m0 p n k) (pushNormal v) (fun _ => meshMem m0 p (n + 1) k).
Proof.
  intros Hn m (Hw & Hs & Hcp & Hcn & Hcc & Hkp & Hkn & Hkc & Hbp & Hbn & Hbc).
  destruct Hsized as (_ & Hlen & _). rewrite (proj1 (proj2 worst_case_components)) in Hlen.
  pose proof Hbn as (Hn0 & _).
  destruct (bufAt_push _ _ _ v Hbn ltac:(lia)) as (Hset & Hbn').
  unfold pushNormal, mbind, M_bind, bind, readOut, liftOpt, writeOut. cbv beta iota.
  rewrite Hcn, Hset. eexists tt, _. split; [reflexivity |].
  split; [exact Hw |]. split; [exact Hs |].
  cbn [mem_out]. unfold geomAt.
  cbn [positionsCount normalsCount colorsCount positionsCapacity normalsCapacity
       colorsCapacity positions normals colors].
  unfold size_add. rewrite size_wrap_small by (change (2 ^ SIZE_BITS) with 4294967296; lia).
  auto 12.
Qed.

Lemma pushColor_hoare v p n k :
  k < 184320 ->
  hoare (meshMem m0 p n k) (pushColor v) (fun _ => meshMem m0 p n (k + 1)).
Proof.
  intros Hk m (Hw & Hs & Hcp & Hcn & Hcc & Hkp & Hkn & Hkc & Hbp & Hbn & Hbc).
  destruct Hsized as (_ & _ & Hlen). rewrite (proj2 (proj2 worst_case_components)) in Hlen.
  pose proof Hbc as (Hc0 & _).
  destruct (bufAt_push _ _ _ v Hbc ltac:(lia)) as (Hset & Hbc').
  unfold pushColor, mbind, M_bind, bind, readOut, liftOpt, writeOut. cbv beta iota.
  rewrite Hcc, Hset. eexists tt, _. split; [reflexivity |].
  split; [exact Hw |]. split; [exact Hs |].
  cbn [mem_out]. unfold geomAt.
  cbn [positionsCount normalsCount colorsCount positionsCapacity normalsCapacity
       colorsCapacity positions normals colors].
  unfold size_add. rewrite size_wrap_small by (change (2 ^ SIZE_BITS) with 4294967296; lia).
  auto 12.
Qed.

Lemma readEdgePoints_hoare p n k :
  hoare (meshMem m0 p n k) readEdgePoints
        (fun es m => Z.of_nat (length es) = 12 /\ meshMem m0 p n k m).
Proof.
  intros m Hm. exists (mem_edgePoints m), m. split; [reflexivity |].
  split; [| exact Hm]. now destruct Hm as (_ & (_ & He & _) & _).
Qed.

Lemma readSamples_hoare p n k :
  hoare (meshMem m0 p n k) readSamples
        (fun ss m => Z.of_nat (length ss) = 8 /\ meshMem m0 p n k m).
Proof.
  intros m Hm. exists (mem_samples m), m. split; [reflexivity |].
  split; [| exact Hm]. now destruct Hm as (_ & (Hs & _) & _).
Qed.

Lemma pushVec3_position_hoare v p n k :
  p + 3 <= 184320 ->
  hoare (meshMem m0 p n k) (pushVec3 pushPosition v) (fun _ => meshMem m0 (p + 3) n k).
Proof.
  intros Hp. unfold pushVec3. eapply hoare_post.
  - eapply hoare_bind; [apply pushPosition_hoare; lia | intros ?; cbv beta].
    eapply hoare_bind; [apply pushPosition_hoare; lia | intros ?; cbv beta].
    apply pushPosition_hoare. lia.
  - intros u m Hm. eapply meshMem_counts; [exact Hm | lia ..].
Qed.

Lemma pushVec3_normal_hoare v p n k :
  n + 3 <= 184320 ->
  hoare (meshMem m0 p n k) (pushVec3 pushNormal v) (fun _ => meshMem m0 p (n + 3) k).
Proof.
  intros Hn. unfold pushVec3. eapply hoare_post.
  - eapply hoare_bind; [apply pushNormal_hoare; lia | intros ?; cbv beta].
    eapply hoare_bind; [apply pushNormal_hoare; lia | intros ?; cbv beta].
    apply pushNormal_hoare. lia.
  - intros u m Hm. eapply meshMem_counts; [exact Hm | lia ..].
Qed.

Ltac hoare_step lem :=
  eapply hoare_bind; [apply lem; lia | intros ?; cbv beta].

Ltac hoare_lift H :=
  eapply hoare_bind; [apply hoare_liftOpt; exact H | intros ?; apply hoare_pure; intros ->].

Lemma emitTriangle_hoare ci i e0 e1 e2 k :
  triEntry ci i = Some e0 -> triEntry ci (i + 1) = Some e1 ->
  triEntry ci (i + 2) = Some e2 ->
  0 <= e0 < 12 -> 0 <= e1 < 12 -> 0 <= e2 < 12 ->
  k + 9 <= 184320 ->
  hoare (meshMem m0 k k k) (emitTriangle ci i)
        (fun _ => meshMem m0 (k + 9) (k + 9) (k + 9)).
Proof.
  intros H0 H1 H2 He0 He1 He2 Hk. unfold emitTriangle.
  hoare_lift H0. hoare_lift H1. hoare_lift H2.
  eapply hoare_bind; [apply readEdgePoints_hoare |].
  intros es. apply hoare_pure. intros Hes.
  destruct (aget_in_range es e0) as (p0 & Hp0); [lia |].
  destruct (aget_in_range es e1) as (p1 & Hp1); [lia |].
  destruct (aget_in_range es e2) as (p2 & Hp2); [lia |].
  hoare_lift Hp0. hoare_lift Hp1. hoare_lift Hp2.
  cbv zeta.
  eapply hoare_post.
  - do 3 (hoare_step pushVec3_position_hoare).
    do 3 (hoare_step pushVec3_normal_hoare).
    do 8 (hoare_step pushColor_hoare).
    apply pushColor_hoare. lia.
  - intros u m Hm. eapply meshMem_counts; [exact Hm | lia ..].
Qed.

Lemma triangleLoop_hoare ci rounds : forall j k,
  Z.of_nat rounds + j = 6 -> 0 <= j <= 5 -> 0 <= ci < 256 ->
  k + 9 * (5 - j) <= 184320 ->
  hoare (meshMem m0 k k k) (triangleLoop rounds ci (3 * j))
        (fun _ m => exists k', k <= k' <= k + 9 * (5 - j) /\ meshMem m0 k' k' k' m).
Proof.
  induction rounds as [| r IH]; intros j k Hr Hj Hci Hk; [lia |].
  cbn [triangleLoop].
  destruct (Z.ltb_spec (3 * j) 16) as [_ | ?]; [| lia].
  assert (Hin : In (3 * j) [0; 3; 6; 9; 12; 15]).
  { assert (j = 0 \/ j = 1 \/ j = 2 \/ j = 3 \/ j = 4 \/ j = 5) as Hcase by lia.
    destruct Hcase as [-> | [-> | [-> | [-> | [-> | ->]]]]]; simpl; auto 10. }
  pose proof (triCheck_true ci (3 * j) Hci Hin) as Hcheck. unfold triCheck in Hcheck.
  destruct (triEntry ci (3 * j)) as [e0 |] eqn:H0; [| discriminate].
  hoare_lift (eq_refl (Some e0)).
  destruct (Z.eqb_spec e0 (-1)) as [_ | Hne].
  { apply hoare_ret. intros m Hm. exists k. split; [lia | exact Hm]. }
  destruct (Z.eqb_spec (3 * j) 15) as [_ | H15]; [discriminate |].
  destruct (triEntry ci (3 * j + 1)) as [e1 |] eqn:H1; [| discriminate].
  destruct (triEntry ci (3 * j + 2)) as [e2 |] eqn:H2; [| discriminate].
  assert (0 <= e0 < 12 /\ 0 <= e1 < 12 /\ 0 <= e2 < 12) as (He0 & He1 & He2) by lia.
  eapply hoare_bind.
  - apply (emitTriangle_hoare ci (3 * j) e0 e1 e2 k); try assumption. lia.
  - intros ?; cbv beta. replace (3 * j + 3) with (3 * (j + 1)) by lia.
    eapply hoare_post.
    + apply (IH (j + 1) (k + 9)); lia.
    + intros u m (k' & Hk' & Hm). exists k'. split; [lia | exact Hm].
Qed.

Lemma marchCell_hoare ly lz lx k :
  0 <= ly < CHUNK_SIZE -> 0 <= lz < CHUNK_SIZE -> 0 <= lx < CHUNK_SIZE ->
  k + 45 <= 184320 ->
  hoare (meshMem m0 k k k) (marchCell srgbToLinearLUT ly lz lx)
        (fun _ m => exists k', k <= k' <= k + 45 /\ meshMem m0 k' k' k' m).
Proof.
  change CHUNK_SIZE with 16. intros Hy Hz Hx Hk. unfold marchCell.
  do 8 (eapply hoare_bind;
        [apply loadSample_hoare; change SAMPLE_GRID_SIZE with 17; lia | intros ?; cbv beta]).
  eapply hoare_bind; [apply readSamples_hoare |].
  intros ss. apply hoare_pure. intros Hss.
  destruct (cubeIndexOf_total ss Hss) as (ci & Hci & Hrange).
  hoare_lift Hci.
  destruct (edgeTable_total ci Hrange) as (edges & Hedges).
  hoare_lift Hedges.
  destruct (edges =? 0).
  { apply hoare_ret. intros m Hm. exists k. split; [lia | exact Hm]. }
  do 12 (eapply hoare_bind; [apply interpolateEdge_hoare; lia | intros ?; cbv beta]).
  apply (triangleLoop_hoare ci 6 0 k); lia.
Qed.

Lemma marchCell_marched ly lz lx :
  0 <= ly < CHUNK_SIZE -> 0 <= lz < CHUNK_SIZE -> 0 <= lx < CHUNK_SIZE ->
  hoare (marched m0 ((ly * CHUNK_SIZE + lz) * CHUNK_SIZE + lx))
        (marchCell srgbToLinearLUT ly lz lx)
        (fun _ => marched m0 ((ly * CHUNK_SIZE + lz) * CHUNK_SIZE + (lx + 1))).
Proof.
  intros Hy Hz Hx. apply hoare_ex. intros k. apply hoare_pure. intros Hk.
  change CHUNK_SIZE with 16 in *.
  eapply hoare_post.
  - apply (marchCell_hoare ly lz lx k); change CHUNK_SIZE with 16; lia.
  - intros u m (k' & Hk' & Hm). exists k'. split; [lia | exact Hm].
Qed.

Lemma marched_at t t' m : t = t' -> marched m0 t m -> marched m0 t' m.
Proof. now intros ->. Qed.

Lemma mesh_hoare :
  hoare (fun m => m = m0) (mesh srgbToLinearLUT chunk)
        (fun _ m => exists k, 0 <= k <= 184320 /\ meshMem m0 k k k m).
Proof.
  unfold mesh.
  eapply hoare_bind; [apply resetCounts_hoare | intros ?; cbv beta].
  eapply hoare_bind.
  { apply (hoare_forRange (fun _ => meshMem m0 0 0 0)); [discriminate |].
    intros ly Hy.
    apply (hoare_forRange (fun _ => meshMem m0 0 0 0)); [discriminate |].
    intros lz Hz.
    apply (hoare_forRange (fun _ => meshMem m0 0 0 0)); [discriminate |].
    intros lx Hx. now apply presample_hoare. }
  intros ?; cbv beta.
  eapply hoare_pre; [| eapply hoare_post].
  2:{ apply (hoare_forRange (fun ly => marched m0 (ly * CHUNK_SIZE * CHUNK_SIZE)));
        [discriminate |].
      intros ly Hy.
      eapply hoare_pre; [| eapply hoare_post].
      2:{ apply (hoare_forRange (fun lz => marched m0 ((ly * CHUNK_SIZE + lz) * CHUNK_SIZE)));
            [discriminate |].
          intros lz Hz.
          eapply hoare_pre; [| eapply hoare_post].
          2:{ apply (hoare_forRange
                       (fun lx => marched m0 ((ly * CHUNK_SIZE + lz) * CHUNK_SIZE + lx)));
                [discriminate |].
              intros lx Hx. now apply marchCell_marched. }
          - intros m. apply marched_at. lia.
          - intros u m. apply marched_at. lia. }
      - intros m. apply marched_at. lia.
      - intros u m. apply marched_at. lia. }
  - intros m Hm. exists 0. split; [lia | exact Hm].
  - intros u m (k & Hk & Hm). exists k. change CHUNK_SIZE with 16 in Hk.
    split; [lia | exact Hm].
Qed.

End MeshFrame.

Lemma initialMemory_scratch_ok w : scratch_ok (initialMemory w).
Proof.
  unfold scratch_ok, initialMemory.
  cbn [mem_samples mem_edgePoints mem_gridBuffer grid_values grid_colors].
  rewrite !length_replicate. change SAMPLE_GRID_SIZE with 17. repeat split; lia.
Qed.

Lemma allocateChunkGeometry_presized : presized allocateChunkGeometry.
Proof.
  unfold presized, allocateChunkGeometry. cbn [positions normals colors].
  rewrite !length_replicate.
  destruct worst_case_components as (-> & -> & ->). repeat split; lia.
Qed.

(** C9: on a well-formed world, for a chunk of that world and geometry
    buffers of the worst-case size, [mesh] returns and the world it leaves
    is the world it found, so the chunk's densities, colours, [sum] and
    [dirtyMesh] flag are as before; in the geometry the three counters are
    reset and count the same number of appended components, the capacities
    and buffer lengths are kept, and the elements past the final count are
    untouched. The mesher's own scratch buffers are the only other memory it
    writes. *)
Theorem mesh_frame (srgbToLinearLUT : Z -> f32) m chunk c :
  wf_world (mem_world m) ->
  aget (chunks (mem_world m)) chunk = Some c ->
  scratch_ok m ->
  presized (mem_out m) ->
  exists m',
    mesh srgbToLinearLUT chunk m = Some (tt, m') /\
    mem_world m' = mem_world m /\
    aget (chunks (mem_world m')) chunk = Some c /\
    exists k, 0 <= k <= CHUNK_GEOMETRY_WORST_CASE_POSITIONS_COMPONENTS /\
              geomAt (mem_out m) k k k (mem_out m').
Proof.
  intros Hwf Hc Hs Hg.
  destruct (mesh_hoare srgbToLinearLUT m chunk c Hwf Hc Hs Hg m eq_refl)
    as ([] & m' & Hrun & k & Hk & Hw & _ & Hgeom).
  exists m'. split; [exact Hrun |]. split; [exact Hw |].
  split; [now rewrite Hw |].
  exists k. rewrite (proj1 worst_case_components). split; [lia | exact Hgeom].
Qed.

Lemma mesh_frame_witness :
  exists m',
    mesh (fun _ => F32.zero) 0 (initialMemory (initVoxels 0 0 0 0 0 0)) = Some (tt, m') /\
    mem_world m' = initVoxels 0 0 0 0 0 0 /\
    aget (chunks (mem_world m')) 0 = Some (newChunk 0 (mkChunkBounds 0 0 0 0 0 0)).
Proof.
  destruct (mesh_frame (fun _ => F32.zero) (initialMemory (initVoxels 0 0 0 0 0 0)) 0
              (newChunk 0 (mkChunkBounds 0 0 0 0 0 0))
              single_chunk_wf eq_refl (initialMemory_scratch_ok _)
              allocateChunkGeometry_presized)
    as (m' & Hrun & Hw & Hc & _).
  exists m'. split; [exact Hrun |]. split; [exact Hw | exact Hc].
Defined.

(** * Further properties of the engine *)

(** ** World coordinates, chunk coordinates and indices *)

(** X1: every world voxel coordinate, negative ones included, is its chunk
    coordinate times 16 plus its local offset, and the local offset lies in
    0..15 on each axis. *)
Theorem world_position_split wx wy wz :
  let '(cx, cy, cz) := worldPositionToChunkCoordinates wx wy wz in
  let '(lx, ly, lz) := worldPositionToChunkPosition wx wy wz in
  (wx, wy, wz) = (cx * CHUNK_SIZE + lx, cy * CHUNK_SIZE + ly, cz * CHUNK_SIZE + lz) /\
  0 <= lx < CHUNK_SIZE /\ 0 <= ly < CHUNK_SIZE /\ 0 <= lz < CHUNK_SIZE.
Proof.
  unfold worldPositionToChunkCoordinates, worldPositionToChunkPosition.
  split.
  - rewrite <- !coordinate_split. reflexivity.
  - auto using land_mask_range.
Qed.

(** X2: on local offsets in 0..15 per axis [getVoxelIndex] stays below 4096,
    so the density index and the three colour indices lie inside the chunk's
    arrays, and two offsets with the same index are the same offset. *)
Theorem getVoxelIndex_distinct lx ly lz lx' ly' lz' :
  0 <= lx < CHUNK_SIZE -> 0 <= ly < CHUNK_SIZE -> 0 <= lz < CHUNK_SIZE ->
  0 <= lx' < CHUNK_SIZE -> 0 <= ly' < CHUNK_SIZE -> 0 <= lz' < CHUNK_SIZE ->
  0 <= getVoxelIndex lx ly lz < CHUNK_VOXELS /\
  getVoxelIndex lx ly lz * 3 + 2 < CHUNK_VOXELS * 3 /\
  (getVoxelIndex lx ly lz = getVoxelIndex lx' ly' lz' -> (lx, ly, lz) = (lx', ly', lz')).
Proof.
  intros Hx Hy Hz Hx' Hy' Hz'.
  destruct (getVoxelIndex_small lx ly lz Hx Hy Hz) as (_ & Hr).
  split; [exact Hr |]. split; [lia |].
  now apply getVoxelIndex_inj.
Qed.

Lemma getVoxelIndex_distinct_witness :
  0 <= getVoxelIndex 15 15 15 < CHUNK_VOXELS /\
  getVoxelIndex 15 15 15 * 3 + 2 < CHUNK_VOXELS * 3 /\
  (getVoxelIndex 15 15 15 = getVoxelIndex 3 0 7 -> (15, 15, 15) = (3, 0, 7)).
Proof.
  apply (getVoxelIndex_distinct 15 15 15 3 0 7); vm_compute; intuition congruence.
Defined.

(** X3: for bounds whose extents fit [int] and whose chunk count fits
    [size_t], [chunkCoordinateToIndex] succeeds exactly on the coordinates
    within the bounds; the index it gives is below the chunk count, and no
    other coordinate gets the same index. *)
Theorem chunkCoordinateToIndex_valid b x y z :
  bounds_ok b ->
  (inBounds b x y z ->
   exists i, chunkCoordinateToIndex x y z b = Some i /\ 0 <= i < chunkCount b /\
             forall x' y' z', chunkCoordinateToIndex x' y' z' b = Some i ->
                              (x', y', z') = (x, y, z)) /\
  (~ inBounds b x y z -> chunkCoordinateToIndex x y z b = None).
Proof.
  intros Hok. split.
  - intros Hin. exists (flatIndex b x y z).
    split; [now apply chunkCoordinateToIndex_flat |].
    split; [now apply flatIndex_range |].
    intros x' y' z' Hi'.
    pose proof (chunkCoordinateToIndex_inBounds _ _ _ _ _ Hi') as Hin'.
    rewrite (chunkCoordinateToIndex_flat _ _ _ _ Hok Hin') in Hi'. injection Hi' as Hi'.
    now apply (flatIndex_inj b).
  - apply chunkCoordinateToIndex_None.
Qed.

Lemma chunkCoordinateToIndex_valid_witness :
  exists i, chunkCoordinateToIndex 1 (-2) 3 (mkChunkBounds (-1) 1 (-2) 0 0 3) = Some i /\
            0 <= i < 36.
Proof.
  destruct (chunkCoordinateToIndex_valid (mkChunkBounds (-1) 1 (-2) 0 0 3) 1 (-2) 3
              ltac:(apply bounds_ok_dec_true; reflexivity)) as (Hin & _).
  destruct Hin as (i & Hi & Hr & _).
  - unfold inBounds. cbn. lia.
  - exists i. split; [exact Hi | exact Hr].
Defined.

(** X4: for such bounds, the coordinate that [chunkIndexToCoordinate] gives
    for an index below the chunk count lies within the bounds, and
    [chunkCoordinateToIndex] maps it back to that index. *)
Theorem chunkIndex_roundtrip b i :
  bounds_ok b -> 0 <= i < chunkCount b ->
  let '(x, y, z) := chunkIndexToCoordinate i b in
  inBounds b x y z /\ chunkCoordinateToIndex x y z b = Some i.
Proof.
  intros Hok Hi.
  destruct (coordinate_of_index b i Hok Hi) as (x & y & z & -> & Hin & Hflat).
  split; [exact Hin |]. rewrite <- Hflat. now apply chunkCoordinateToIndex_flat.
Qed.

Lemma chunkIndex_roundtrip_witness :
  let '(x, y, z) := chunkIndexToCoordinate 35 (mkChunkBounds (-1) 1 (-2) 0 0 3) in
  inBounds (mkChunkBounds (-1) 1 (-2) 0 0 3) x y z /\
  chunkCoordinateToIndex x y z (mkChunkBounds (-1) 1 (-2) 0 0 3) = Some 35.
Proof.
  apply (chunkIndex_roundtrip (mkChunkBounds (-1) 1 (-2) 0 0 3) 35).
  - apply bounds_ok_dec_true. reflexivity.
  - vm_compute. intuition congruence.
Defined.

(** ** Fresh worlds, reads and edits *)

(** X5: for such bounds [initVoxels] gives a well-formed world with one
    chunk per coordinate of the bounds; every chunk has sum 0, a clear dirty
    flag, its array position as id and the coordinate of that position, and
    every voxel of the world reads as density 0 and colour black. *)
Theorem initVoxels_fresh x0 x1 y0 y1 z0 z1 :
  let b := mkChunkBounds x0 x1 y0 y1 z0 z1 in
  let w := initVoxels x0 x1 y0 y1 z0 z1 in
  bounds_ok b ->
  wf_world w /\ bounds w = b /\
  (forall i, 0 <= i < chunkCount b ->
     exists c, aget (chunks w) i = Some c /\
               chunk_sum c = 0 /\ chunk_dirtyMesh c = false /\ chunk_id c = to_int i /\
               (chunk_x c, chunk_y c, chunk_z c) = chunkIndexToCoordinate i b) /\
  (forall x y z, getVoxel w x y z = Some (0, 0, 0, 0)).
Proof.
  intros b w Hok. split; [now apply initVoxels_wf |]. split; [reflexivity |]. split.
  - intros i Hi. exists (newChunk i b). split; [now apply initVoxels_aget |].
    destruct (newChunk_fields i b) as (_ & _ & Hs & Hd & Hc).
    split; [exact Hs |]. split; [exact Hd |]. split; [| exact Hc].
    unfold newChunk. now destruct (chunkIndexToCoordinate i b) as [[cx cy] cz].
  - intros x y z. now apply getVoxel_initVoxels.
Qed.

Lemma initVoxels_fresh_witness :
  wf_world (initVoxels (-1) 0 (-1) 0 (-1) 0) /\
  getVoxel (initVoxels (-1) 0 (-1) 0 (-1) 0) (-16) 15 (-1) = Some (0, 0, 0, 0) /\
  getVoxel (initVoxels (-1) 0 (-1) 0 (-1) 0) 1000 0 0 = Some (0, 0, 0, 0).
Proof.
  destruct (initVoxels_fresh (-1) 0 (-1) 0 (-1) 0 ltac:(apply bounds_ok_dec_true; reflexivity))
    as (Hwf & _ & _ & Hzero).
  split; [exact Hwf |]. split; apply Hzero.
Defined.

(** X6: in a well-formed world [getVoxel] returns for every coordinate (no
    read leaves an array), and for a coordinate whose chunk is outside the
    bounds it returns density 0 and colour black. *)
Theorem getVoxel_safe w x y z :
  wf_world w ->
  exists v, getVoxel w x y z = Some v /\
            (~ ownerInBounds w x y z -> v = (0, 0, 0, 0)).
Proof.
  intros Hwf. destruct (getVoxel_total w x y z Hwf) as (v & Hv).
  exists v. split; [exact Hv |]. intros Hout.
  unfold ownerInBounds, chunkOf in Hout. unfold getVoxel in Hv.
  destruct (worldPositionToChunkCoordinates x y z) as [[cx cy] cz].
  destruct (worldPositionToChunkPosition x y z) as [[lx ly] lz].
  apply chunkCoordinateToIndex_None in Hout. rewrite Hout in Hv. congruence.
Qed.

Lemma getVoxel_safe_witness :
  exists v, getVoxel (initVoxels 0 0 0 0 0 0) 16 (-1) 40 = Some v /\
            (~ ownerInBounds (initVoxels 0 0 0 0 0 0) 16 (-1) 40 -> v = (0, 0, 0, 0)).
Proof. exact (getVoxel_safe (initVoxels 0 0 0 0 0 0) 16 (-1) 40 single_chunk_wf). Defined.

(** X7: in a well-formed world an edit changes no other voxel: after
    [setVoxel] at one coordinate, [getVoxel] at any different coordinate
    returns what it returned before. *)
Theorem setVoxel_other_voxels w x y z d r g b w' x' y' z' :
  wf_world w -> setVoxel w x y z d r g b = Some w' ->
  (x', y', z') <> (x, y, z) ->
  getVoxel w' x' y' z' = getVoxel w x' y' z'.
Proof. apply getVoxel_elsewhere. Qed.

Lemma setVoxel_other_voxels_witness :
  exists w',
    setVoxel (initVoxels 0 0 0 0 0 0) 5 5 5 255 10 20 30 = Some w' /\
    getVoxel w' 5 5 6 = getVoxel (initVoxels 0 0 0 0 0 0) 5 5 6.
Proof.
  destruct (getVoxel_written (initVoxels 0 0 0 0 0 0) 5 5 5 255 10 20 30 single_chunk_wf)
    as (w' & Hset & _).
  { vm_compute. intuition congruence. }
  exists w'. split; [exact Hset |].
  apply (setVoxel_other_voxels _ 5 5 5 255 10 20 30 w' 5 5 6 single_chunk_wf Hset).
  congruence.
Defined.

Lemma ownerInBounds_dec w x y z : ownerInBounds w x y z \/ ~ ownerInBounds w x y z.
Proof.
  unfold ownerInBounds. destruct (chunkOf x y z) as [[cx cy] cz].
  destruct (chunkCoordinateToIndex cx cy cz (bounds w)) as [i |] eqn:Hi.
  - left. eapply chunkCoordinateToIndex_inBounds, Hi.
  - right. now apply chunkCoordinateToIndex_None.
Qed.

Lemma setVoxel_bounds w x y z d r g b w' :
  wf_world w -> setVoxel w x y z d r g b = Some w' -> bounds w' = bounds w.
Proof.
  intros Hwf Hset.
  destruct (chunkOf x y z) as [[cx cy] cz] eqn:HC.
  destruct (localOf x y z) as [[lx ly] lz] eqn:HL.
  destruct (ownerInBounds_dec w x y z) as [Hin | Hout].
  - unfold ownerInBounds in Hin. rewrite HC in Hin.
    destruct (setVoxel_chunks w x y z d r g b _ _ _ _ _ _ Hwf HC HL Hin)
      as (c0 & prev & w1 & _ & _ & Hset1 & Hb & _).
    congruence.
  - rewrite setVoxel_ignored in Hset by assumption. congruence.
Qed.

(** X8: in a well-formed world [setVoxel] returns for every coordinate and
    every density and colour (no access leaves an array), and the world it
    leaves is well-formed with the same bounds. *)
Theorem setVoxel_safe w x y z d r g b :
  wf_world w ->
  exists w', setVoxel w x y z d r g b = Some w' /\ wf_world w' /\ bounds w' = bounds w.
Proof.
  intros Hwf.
  assert (exists w', setVoxel w x y z d r g b = Some w') as (w' & Hset).
  { destruct (ownerInBounds_dec w x y z) as [Hin | Hout].
    - destruct (getVoxel_written w x y z d r g b Hwf Hin) as (w' & Hset & _). eauto.
    - exists w. now apply setVoxel_ignored. }
  exists w'. split; [exact Hset |].
  split; [eapply setVoxel_wf; eassumption | eapply setVoxel_bounds; eassumption].
Qed.

Lemma setVoxel_safe_witness :
  exists w', setVoxel (initVoxels 0 0 0 0 0 0) 15 0 15 1 2 3 4 = Some w' /\
             wf_world w' /\ bounds w' = bounds (initVoxels 0 0 0 0 0 0).
Proof. exact (setVoxel_safe (initVoxels 0 0 0 0 0 0) 15 0 15 1 2 3 4 single_chunk_wf). Defined.

Ltac pick_coord :=
  first [ apply triple_eq; lia | left; apply triple_eq; lia | right; pick_coord ].

Lemma touched_marked lx ly lz cx cy cz :
  0 <= lx < CHUNK_SIZE -> 0 <= ly < CHUNK_SIZE -> 0 <= lz < CHUNK_SIZE ->
  forall q,
    q ∈ (cx, cy, cz) :: List.map snd (List.filter fst (dirtyTargets lx ly lz cx cy cz))
    <-> q ∈ touched lx ly lz cx cy cz.
Proof.
  intros Hx Hy Hz q. unfold dirtyTargets, touched, sideOf.
  destruct (offset_cases lx Hx) as [-> | [-> | (Ex0 & Ex1 & Ex)]];
  destruct (offset_cases ly Hy) as [-> | [-> | (Ey0 & Ey1 & Ey)]];
  destruct (offset_cases lz Hz) as [-> | [-> | (Ez0 & Ez1 & Ez)]];
  rewrite ?Ex0, ?Ex1, ?Ey0, ?Ey1, ?Ez0, ?Ez1;
  change (0 =? 0) with true; change (0 =? CHUNK_SIZE - 1) with false;
  change (CHUNK_SIZE - 1 =? 0) with false;
  change (CHUNK_SIZE - 1 =? CHUNK_SIZE - 1) with true; simpl andb; simpl negb;
  cbn [List.filter List.map fst snd];
  rewrite ?elem_of_cons, ?elem_of_nil;
  destruct q as [[qx qy] qz];
  (split; intros Hq; repeat destruct Hq as [Hq | Hq]; try contradiction;
   injection Hq as -> -> ->; pick_coord).
Qed.

(** X9: the chunks whose dirty flag an in-bounds edit raises are, among the
    chunks within the bounds, exactly the chunks that contain or border the
    edited voxel: per axis the edited chunk itself, or its neighbour below
    when the local coordinate is 0, or its neighbour above when it is 15.
    An edit strictly inside a chunk raises the flag of that chunk alone. *)
Theorem setVoxel_dirty_set w wx wy wz v r g b cx cy cz lx ly lz :
  wf_world w ->
  chunkOf wx wy wz = (cx, cy, cz) ->
  localOf wx wy wz = (lx, ly, lz) ->
  inBounds (bounds w) cx cy cz ->
  exists w',
    setVoxel w wx wy wz v r g b = Some w' /\
    (forall x y z, inBounds (bounds w) x y z ->
       isDirtyAt w' x y z
       = if decide ((x, y, z) ∈ touched lx ly lz cx cy cz)
         then Some true else isDirtyAt w x y z) /\
    (interior lx && interior ly && interior lz = true ->
     forall x y z, inBounds (bounds w) x y z ->
       isDirtyAt w' x y z
       = if decide ((x, y, z) = (cx, cy, cz)) then Some true else isDirtyAt w x y z).
Proof.
  intros Hwf HC HL Hin.
  destruct (setVoxel_isDirtyAt w wx wy wz v r g b _ _ _ _ _ _ Hwf HC HL Hin)
    as (w' & Hset & Hb & Hd).
  destruct (localOf_range _ _ _ _ _ _ HL) as (Hx & Hy & Hz).
  assert (Htouched : forall x y z, inBounds (bounds w) x y z ->
            isDirtyAt w' x y z
            = if decide ((x, y, z) ∈ touched lx ly lz cx cy cz)
              then Some true else isDirtyAt w x y z).
  { intros x y z Hin'.
    rewrite (Hd x y z (List.map snd (List.filter fst (dirtyTargets lx ly lz cx cy cz))) Hin').
    2:{ intros q. now rewrite markedBy_filter, existsb_coord_eqb. }
    pose proof (touched_marked lx ly lz cx cy cz Hx Hy Hz (x, y, z)) as Hiff.
    destruct (decide (_ ∈ _ :: _)) as [H1 | H1],
             (decide (_ ∈ touched _ _ _ _ _ _)) as [H2 | H2]; tauto. }
  exists w'. split; [exact Hset |]. split; [exact Htouched |].
  intros Hint x y z Hin'. rewrite (Htouched x y z Hin').
  apply andb_true_iff in Hint as (Hint & Iz). apply andb_true_iff in Hint as (Ix & Iy).
  unfold interior in Ix, Iy, Iz. change CHUNK_SIZE with 16 in *.
  assert (sideOf lx = 0 /\ sideOf ly = 0 /\ sideOf lz = 0) as (Sx & Sy & Sz).
  { unfold sideOf. change (CHUNK_SIZE - 1) with 15.
    rewrite !(proj2 (Z.eqb_neq _ _)) by lia. auto. }
  unfold touched. rewrite Sx, Sy, Sz, !Z.add_0_r.
  destruct (decide ((x, y, z) = (cx, cy, cz))) as [-> | Hne].
  - rewrite decide_True by (apply elem_of_cons; auto). reflexivity.
  - rewrite decide_False; [reflexivity |].
    rewrite !elem_of_cons, elem_of_nil. tauto.
Qed.

Lemma setVoxel_dirty_set_witness :
  let w := initVoxels (-1) 1 (-1) 1 (-1) 1 in
  exists w', setVoxel w 15 7 0 255 1 2 3 = Some w' /\
             isDirtyAt w' 1 0 (-1) = Some true /\
             isDirtyAt w' 1 1 0 = isDirtyAt w 1 1 0.
Proof.
  intros w.
  assert (Hwf : wf_world w) by (apply initVoxels_wf, bounds_ok_dec_true; reflexivity).
  assert (Hin : inBounds (bounds w) 0 0 0) by (unfold inBounds; cbn; lia).
  destruct (setVoxel_dirty_set w 15 7 0 255 1 2 3 0 0 0 15 7 0 Hwf eq_refl eq_refl Hin)
    as (w' & Hset & Htouched & _).
  exists w'. split; [exact Hset |]. split.
  - rewrite (Htouched 1 0 (-1)) by (unfold inBounds; cbn; lia). reflexivity.
  - rewrite (Htouched 1 1 0) by (unfold inBounds; cbn; lia). reflexivity.
Defined.

(** ** The two ways to read a voxel *)

Lemma getVoxelRelative_world w i c lx ly lz :
  chunkCoordinateToIndex (chunk_x c) (chunk_y c) (chunk_z c) (bounds w) = Some i ->
  aget (chunks w) i = Some c ->
  getVoxelRelative w c lx ly lz
  = getVoxel w (chunk_x c * CHUNK_SIZE + lx) (chunk_y c * CHUNK_SIZE + ly)
             (chunk_z c * CHUNK_SIZE + lz).
Proof.
  intros Hi Hc. unfold getVoxelRelative.
  destruct ((lx >=? 0) && (lx <? CHUNK_SIZE) && (ly >=? 0) && (ly <? CHUNK_SIZE)
            && (lz >=? 0) && (lz <? CHUNK_SIZE)) eqn:Hin.
  - change CHUNK_SIZE with 16 in Hin.
    rewrite (getVoxel_voxelOf w _ _ _ i c lx ly lz Hi Hc)
      by (change CHUNK_SIZE with 16; lia).
    reflexivity.
  - cbv zeta. change CHUNK_BITS with 4. rewrite !Z.shiftl_mul_pow2 by lia. reflexivity.
Qed.

(** X10: for a chunk that sits at the array position of its own stored
    coordinate, [getVoxelRelative] at any local offset, inside the chunk or
    beyond its faces, returns what [getVoxel] returns at the corresponding
    world coordinate. *)
Theorem getVoxelRelative_getVoxel w i c lx ly lz :
  chunkCoordinateToIndex (chunk_x c) (chunk_y c) (chunk_z c) (bounds w) = Some i ->
  aget (chunks w) i = Some c ->
  getVoxelRelative w c lx ly lz
  = getVoxel w (chunk_x c * CHUNK_SIZE + lx) (chunk_y c * CHUNK_SIZE + ly)
             (chunk_z c * CHUNK_SIZE + lz).
Proof. apply getVoxelRelative_world. Qed.

Lemma getVoxelRelative_getVoxel_witness :
  getVoxelRelative (initVoxels 0 1 0 0 0 0) (newChunk 1 (mkChunkBounds 0 1 0 0 0 0)) (-1) 3 16
  = getVoxel (initVoxels 0 1 0 0 0 0) (1 * CHUNK_SIZE + -1) (0 * CHUNK_SIZE + 3)
             (0 * CHUNK_SIZE + 16).
Proof.
  exact (getVoxelRelative_getVoxel (initVoxels 0 1 0 0 0 0) 1
           (newChunk 1 (mkChunkBounds 0 1 0 0 0 0)) (-1) 3 16 eq_refl eq_refl).
Defined.

(** ** What every edit history keeps *)

Lemma fmap_insert_same {A} (f : VoxelChunk -> A) (l : list VoxelChunk) i c c' :
  l !! i = Some c -> f c' = f c -> f <$> <[i := c']> l = f <$> l.
Proof.
  intros Hl Hf. rewrite list_fmap_insert, Hf. apply list_insert_id.
  now rewrite list_lookup_fmap, Hl.
Qed.

Lemma markChunkDirty_fmap {A} (f : VoxelChunk -> A) w x y z w' :
  (forall c d, f (set_dirtyMesh c d) = f c) ->
  markChunkDirty w x y z = Some w' ->
  bounds w' = bounds w /\ f <$> chunks w' = f <$> chunks w.
Proof.
  intros Hf Hm. unfold markChunkDirty in Hm.
  destruct (chunkCoordinateToIndex x y z (bounds w)) as [i |]; [| injection Hm as <-; auto].
  destruct (aget (chunks w) i) as [c |] eqn:Hc; [| discriminate].
  injection Hm as <-. split; [reflexivity |]. cbn [chunks set_chunk].
  rewrite aget_lookup in Hc by (apply aget_Some_range in Hc; lia).
  eapply fmap_insert_same; [exact Hc | apply Hf].
Qed.

Lemma markList_fmap {A} (f : VoxelChunk -> A) ts : forall w w',
  (forall c d, f (set_dirtyMesh c d) = f c) ->
  markList ts w = Some w' ->
  bounds w' = bounds w /\ f <$> chunks w' = f <$> chunks w.
Proof.
  induction ts as [| [c [[x y] z]] ts IH]; intros w w' Hf Hm.
  - injection Hm as <-. auto.
  - simpl in Hm. destruct c; simpl in Hm.
    + destruct (markChunkDirty w x y z) as [w1 |] eqn:H1; [| discriminate].
      simpl in Hm. destruct (markChunkDirty_fmap f _ _ _ _ _ Hf H1) as (Hb1 & Hc1).
      destruct (IH _ _ Hf Hm) as (Hb & Hc). split; congruence.
    + eauto.
Qed.

Lemma setVoxel_fmap {A} (f : VoxelChunk -> A) w wx wy wz v r g b w' :
  (forall c d, f (set_dirtyMesh c d) = f c) ->
  (forall c k prev, f (editedChunk c k prev v r g b) = f c) ->
  setVoxel w wx wy wz v r g b = Some w' ->
  bounds w' = bounds w /\ f <$> chunks w' = f <$> chunks w.
Proof.
  intros Hfd Hfe Hset. unfold setVoxel in Hset.
  destruct (worldPositionToChunkCoordinates wx wy wz) as [[cx cy] cz].
  destruct (worldPositionToChunkPosition wx wy wz) as [[lx ly] lz].
  destruct (chunkCoordinateToIndex cx cy cz (bounds w)) as [i |];
    [| injection Hset as <-; auto].
  destruct (aget (chunks w) i) as [c |] eqn:Hc; [| discriminate].
  cbn [mbind option_bind] in Hset.
  set (k := getVoxelIndex lx ly lz) in *.
  destruct (aget (chunk_value c) k) as [prev |] eqn:Hprev; [| discriminate].
  cbn [mbind option_bind] in Hset.
  unfold aset in Hset.
  repeat match type of Hset with
         | context [if ?t then _ else _] =>
             destruct t eqn:?; [| discriminate]; cbn [mbind option_bind] in Hset
         end.
  rewrite propagateDirty_markList in Hset.
  destruct (markList_fmap f _ _ _ Hfd Hset) as (Hb & Hl).
  split; [exact Hb |]. rewrite Hl. cbn [chunks set_chunk].
  rewrite aget_lookup in Hc by (apply aget_Some_range in Hc; lia).
  eapply fmap_insert_same; [exact Hc |]. apply (Hfe c k prev).
Qed.

Lemma forEach_preserves {St} (P : St -> Prop) (body : Z -> St -> option St) n :
  (forall i s s', body i s = Some s' -> P s -> P s') ->
  forall lo s s', forEach n lo body s = Some s' -> P s -> P s'.
Proof.
  intros Hbody. induction n as [| n IH]; intros lo s s' Hrun Hs.
  - injection Hrun as <-. exact Hs.
  - cbn [forEach] in Hrun. destruct (body lo s) as [s1 |] eqn:Hb; [| discriminate].
    cbn [mbind option_bind] in Hrun. eapply IH; [exact Hrun |]. eapply Hbody; eauto.
Qed.

Lemma generateVoxel_preserves (P : VoxelChunk -> Prop) cx cy cz seed lz ly lx c c' :
  (forall c0 d r g b,
     is_uint8 d -> is_uint8 r -> is_uint8 g -> is_uint8 b -> P c0 ->
     forall k vals c1 c2 c3,
       aset (chunk_value c0) k d = Some vals ->
       aset (chunk_color c0) (k * 3 + 0) r = Some c1 ->
       aset c1 (k * 3 + 1) g = Some c2 ->
       aset c2 (k * 3 + 2) b = Some c3 ->
       P (set_color (set_value c0 vals) c3)) ->
  generateVoxel cx cy cz seed lz ly lx c = Some c' -> P c -> P c'.
Proof.
  intros Hstore Hgen Hc. unfold generateVoxel in Hgen. cbv zeta in Hgen.
  destruct (generatedVoxel _ _ _ seed) as [[[[[d r] g] b] |] |] eqn:Hgv;
    cbn [mbind option_bind] in Hgen; [| congruence | discriminate].
  assert (Hu : is_uint8 d /\ is_uint8 r /\ is_uint8 g /\ is_uint8 b).
  { unfold generatedVoxel in Hgv.
    destruct (solidityAt _ _ _ seed) as [s |]; [| discriminate].
    cbn [mbind option_bind] in Hgv.
    destruct (F32.gtb s (F32.lit 1 100)); [| discriminate].
    destruct (solidVoxel _ _ _ seed s) as [v |] eqn:Hv; [| discriminate].
    cbn [mbind option_bind] in Hgv. injection Hgv as ->.
    unfold solidVoxel in Hv.
    destruct (fbm3 _ _ _ _ _ _ _) as [n |]; [| discriminate].
    cbn [mbind option_bind] in Hv. cbv zeta in Hv.
    assert (Hmod : forall x, is_uint8 (to_uint8 x)).
    { intros x. unfold is_uint8, to_uint8.
      pose proof (Z.mod_pos_bound (F32.truncZ x) 256 eq_refl). lia. }
    revert Hv.
    repeat match goal with |- context [match ?t with _ => _ end] => destruct t end;
      intros [= <- <- <- <-]; auto. }
  destruct Hu as (Hd & Hr & Hg & Hb).
  destruct (aset (chunk_value c) _ d) as [vals |] eqn:E0; [| discriminate].
  cbn [mbind option_bind] in Hgen.
  destruct (aset (chunk_color c) _ r) as [c1 |] eqn:E1; [| discriminate].
  cbn [mbind option_bind] in Hgen.
  destruct (aset c1 _ g) as [c2 |] eqn:E2; [| discriminate].
  cbn [mbind option_bind] in Hgen.
  destruct (aset c2 _ b) as [c3 |] eqn:E3; [| discriminate].
  cbn [mbind option_bind] in Hgen. injection Hgen as <-.
  exact (Hstore c d r g b Hd Hr Hg Hb Hc _ _ _ _ _ E0 E1 E2 E3).
Qed.

Lemma generateChunkBody_preserves (P : VoxelChunk -> Prop) c cx cy cz seed c' :
  (forall c0 d r g b,
     is_uint8 d -> is_uint8 r -> is_uint8 g -> is_uint8 b -> P c0 ->
     forall k vals c1 c2 c3,
       aset (chunk_value c0) k d = Some vals ->
       aset (chunk_color c0) (k * 3 + 0) r = Some c1 ->
       aset c1 (k * 3 + 1) g = Some c2 ->
       aset c2 (k * 3 + 2) b = Some c3 ->
       P (set_color (set_value c0 vals) c3)) ->
  (forall c0 s, P c0 -> P (set_sum c0 s)) ->
  generateChunkBody c cx cy cz seed = Some c' -> P c -> P c'.
Proof.
  intros Hstore Hsum Hgen Hc. unfold generateChunkBody in Hgen.
  destruct (generateVoxels cx cy cz seed c) as [c1 |] eqn:Hvox; [| discriminate].
  cbn [mbind option_bind] in Hgen.
  destruct (recomputeChunkSum c1) as [[s c2] |] eqn:Hre; [| discriminate].
  cbn [mbind option_bind] in Hgen. injection Hgen as <-.
  apply recomputeChunkSum_Some in Hre as (_ & ->). apply Hsum.
  unfold generateVoxels in Hvox.
  revert Hvox Hc. apply forEach_preserves. intros lz s1 s1'.
  apply forEach_preserves. intros ly s2 s2'.
  apply forEach_preserves. intros lx s3 s3'.
  now apply generateVoxel_preserves.
Qed.

Lemma reachable_fmap {A} (f : VoxelChunk -> A) (Q : Voxels -> Prop) :
  (forall c d, f (set_dirtyMesh c d) = f c) ->
  (forall c k prev v r g b, f (editedChunk c k prev v r g b) = f c) ->
  (forall c k d r g b vals c1 c2 c3,
     aset (chunk_value c) k d = Some vals ->
     aset (chunk_color c) (k * 3 + 0) r = Some c1 ->
     aset c1 (k * 3 + 1) g = Some c2 ->
     aset c2 (k * 3 + 2) b = Some c3 ->
     f (set_color (set_value c vals) c3) = f c) ->
  (forall c s, f (set_sum c s) = f c) ->
  (forall x0 x1 y0 y1 z0 z1, Q (initVoxels x0 x1 y0 y1 z0 z1)) ->
  (forall w w', bounds w' = bounds w -> f <$> chunks w' = f <$> chunks w -> Q w -> Q w') ->
  forall w, reachable w -> Q w.
Proof.
  intros Hfd Hfe Hfv Hfs Hinit Hstep w Hreach.
  induction Hreach as [x0 x1 y0 y1 z0 z1
                      | w wx wy wz v r g b w' _ IH _ _ _ _ Hset
                      | w chunk cx cy cz seed w' _ IH Hgen].
  - apply Hinit.
  - destruct (setVoxel_fmap f _ _ _ _ _ _ _ _ _ Hfd (fun c k prev => Hfe c k prev v r g b) Hset)
      as (Hb & Hl).
    eapply Hstep; eauto.
  - unfold generateChunk in Hgen. destruct chunk as [i |]; [| injection Hgen as <-; exact IH].
    destruct (aget (chunks w) i) as [c |] eqn:Hc; [| discriminate].
    cbn [mbind option_bind] in Hgen.
    destruct (generateChunkBody c cx cy cz seed) as [c' |] eqn:Hbody; [| discriminate].
    cbn [mbind option_bind] in Hgen. injection Hgen as <-.
    apply (Hstep w); [reflexivity | | exact IH]. cbn [chunks set_chunk].
    rewrite aget_lookup in Hc by (apply aget_Some_range in Hc; lia).
    eapply fmap_insert_same; [exact Hc |].
    eapply (generateChunkBody_preserves (fun c0 => f c0 = f c)); [| | exact Hbody | reflexivity].
    + intros c0 d' r' g' b' _ _ _ _ H0 k vals c1 c2 c3 E0 E1 E2 E3.
      now rewrite (Hfv c0 k d' r' g' b' vals c1 c2 c3 E0 E1 E2 E3).
    + intros c0 s H0. now rewrite Hfs.
Qed.

(** X11: [initVoxels] followed by any sequence of [setVoxel] and
    [generateChunk] calls leaves every chunk with the id and the chunk
    coordinate of its position in the chunk array; so, for bounds whose
    extents fit, the chunk that [getChunkAt] returns for a coordinate stores
    that coordinate. *)
Theorem reachable_chunk_identity w :
  reachable w ->
  (forall i c, aget (chunks w) i = Some c ->
     chunk_id c = to_int i /\
     (chunk_x c, chunk_y c, chunk_z c) = chunkIndexToCoordinate i (bounds w)) /\
  (bounds_ok (bounds w) ->
   forall cx cy cz i c,
     getChunkAt w cx cy cz = Some i -> aget (chunks w) i = Some c ->
     (chunk_x c, chunk_y c, chunk_z c) = (cx, cy, cz)).
Proof.
  intros Hreach.
  assert (Hid : forall i c, aget (chunks w) i = Some c ->
            identityOf c = (to_int i, chunkIndexToCoordinate i (bounds w))).
  { revert w Hreach.
    apply (reachable_fmap identityOf
             (fun w => forall i c, aget (chunks w) i = Some c ->
                identityOf c = (to_int i, chunkIndexToCoordinate i (bounds w))));
      try reflexivity.
    - intros x0 x1 y0 y1 z0 z1 i c Hc.
      pose proof (aget_Some_range _ _ _ Hc) as Hr.
      rewrite aget_lookup in Hc by lia. unfold initVoxels in Hc. cbn [chunks] in Hc.
      apply list_lookup_fmap_Some in Hc as (n & -> & Hn).
      apply lookup_seq in Hn as (-> & _). cbn [bounds initVoxels plus].
      rewrite Z2Nat.id by lia.
      unfold identityOf, newChunk.
      now destruct (chunkIndexToCoordinate i _) as [[cx cy] cz].
    - intros w0 w' Hb Hl IH i c Hc. rewrite Hb.
      pose proof (aget_Some_range _ _ _ Hc) as Hr.
      rewrite aget_lookup in Hc by lia.
      assert (Hc' : (identityOf <$> chunks w') !! Z.to_nat i = Some (identityOf c))
        by now rewrite list_lookup_fmap, Hc.
      rewrite Hl in Hc'. apply list_lookup_fmap_Some in Hc' as (c0 & Heq & Hc0).
      rewrite Heq. apply IH. now rewrite aget_lookup by lia. }
  assert (Hfields : forall i c, aget (chunks w) i = Some c ->
            chunk_id c = to_int i /\
            (chunk_x c, chunk_y c, chunk_z c) = chunkIndexToCoordinate i (bounds w)).
  { intros i c Hc. specialize (Hid i c Hc).
    split; [exact (f_equal fst Hid) | exact (f_equal snd Hid)]. }
  split; [exact Hfields |].
  intros Hok cx cy cz i c Hi Hc. destruct (Hfields i c Hc) as (_ & ->).
  unfold getChunkAt in Hi.
  pose proof (chunkCoordinateToIndex_inBounds _ _ _ _ _ Hi) as Hin.
  rewrite (chunkCoordinateToIndex_flat _ _ _ _ Hok Hin) in Hi. injection Hi as <-.
  now rewrite (chunkIndexToCoordinate_flat _ _ _ _ Hok Hin).
Qed.

Lemma reachable_chunk_identity_witness :
  exists w c,
    reachable w /\ aget (chunks w) 7 = Some c /\
    chunk_id c = 7 /\ (chunk_x c, chunk_y c, chunk_z c) = (0, 0, 0).
Proof.
  assert (Hwf : wf_world (initVoxels (-1) 0 (-1) 0 (-1) 0))
    by (apply initVoxels_wf, bounds_ok_dec_true; reflexivity).
  destruct (getVoxel_written (initVoxels (-1) 0 (-1) 0 (-1) 0) 0 0 0 200 1 2 3 Hwf)
    as (w & Hset & _).
  { vm_compute. intuition congruence. }
  assert (Hreach : reachable w).
  { eapply reach_setVoxel; [apply reach_initVoxels | | | | | exact Hset];
      unfold is_uint8; lia. }
  destruct (setVoxel_fmap identityOf _ _ _ _ _ _ _ _ _
              (fun _ _ => eq_refl) (fun _ _ _ => eq_refl) Hset) as (Hb & Hl).
  assert (Hlen : length (chunks w) = 8%nat).
  { rewrite <- (length_fmap identityOf), Hl, length_fmap. reflexivity. }
  destruct (aget_in_range (chunks w) 7) as (c & Hc); [lia |].
  destruct (reachable_chunk_identity w Hreach) as (Hfields & _).
  destruct (Hfields 7 c Hc) as (Hid & Hxyz).
  exists w, c. split; [exact Hreach |]. split; [exact Hc |].
  split; [exact Hid |]. rewrite Hxyz, Hb. reflexivity.
Defined.

Lemma lengths_wf (l : list VoxelChunk) :
  Forall wf_chunk l
  <-> Forall (fun p : nat * nat => Z.of_nat (fst p) = CHUNK_VOXELS
                                   /\ Z.of_nat (snd p) = CHUNK_VOXELS * 3)
             ((fun c => (length (chunk_value c), length (chunk_color c))) <$> l).
Proof. rewrite Forall_fmap. reflexivity. Qed.

Lemma aset_length {A} (a : list A) k v a' : aset a k v = Some a' -> length a' = length a.
Proof.
  unfold aset. destruct (_ && _); [| discriminate]. intros [= <-]. apply length_insert.
Qed.

Lemma reachable_well_formed w : reachable w -> bounds_ok (bounds w) -> wf_world w.
Proof.
  revert w.
  apply (reachable_fmap (fun c => (length (chunk_value c), length (chunk_color c)))
           (fun w => bounds_ok (bounds w) -> wf_world w)).
  - reflexivity.
  - intros c k prev v r g b. unfold editedChunk.
    cbn [chunk_value chunk_color set_dirtyMesh set_sum set_color set_value].
    now rewrite !length_insert.
  - intros c k d r g b vals c1 c2 c3 E0 E1 E2 E3.
    cbn [chunk_value chunk_color set_color set_value].
    apply aset_length in E0, E1, E2, E3. congruence.
  - reflexivity.
  - intros x0 x1 y0 y1 z0 z1 Hok. now apply initVoxels_wf.
  - intros w w' Hb Hl IH Hok. rewrite Hb in Hok. destruct (IH Hok) as (_ & Hlen & Hall).
    split; [now rewrite Hb |]. split.
    + rewrite Hb, <- Hlen.
      rewrite <- (length_fmap (fun c => (length (chunk_value c), length (chunk_color c)))
                    (chunks w')), Hl, length_fmap. reflexivity.
    + apply lengths_wf. rewrite Hl. now apply lengths_wf.
Qed.

(** X12: [initVoxels] on bounds whose extents fit, followed by any sequence
    of [setVoxel] and [generateChunk] calls, leaves a well-formed world: the
    chunk array has one chunk per coordinate of the bounds, and every chunk
    has its 4096 densities and 12288 colour components. *)
Theorem reachable_wf w : reachable w -> bounds_ok (bounds w) -> wf_world w.
Proof. apply reachable_well_formed. Qed.

Lemma reachable_wf_witness :
  exists w, reachable w /\ bounds_ok (bounds w) /\ wf_world w /\
            getVoxel w 0 0 0 = Some (200, 1, 2, 3).
Proof.
  assert (Hwf : wf_world (initVoxels (-1) 0 (-1) 0 (-1) 0))
    by (apply initVoxels_wf, bounds_ok_dec_true; reflexivity).
  destruct (getVoxel_written (initVoxels (-1) 0 (-1) 0 (-1) 0) 0 0 0 200 1 2 3 Hwf)
    as (w & Hset & Hget).
  { vm_compute. intuition congruence. }
  assert (Hreach : reachable w).
  { eapply reach_setVoxel; [apply reach_initVoxels | | | | | exact Hset];
      unfold is_uint8; lia. }
  assert (Hok : bounds_ok (bounds w)).
  { rewrite (setVoxel_bounds _ _ _ _ _ _ _ _ _ Hwf Hset).
    apply bounds_ok_dec_true. reflexivity. }
  exists w. split; [exact Hreach |]. split; [exact Hok |].
  split; [exact (reachable_wf w Hreach Hok) | exact Hget].
Defined.

(** ** Empty chunks *)

Lemma reachable_uint8 w :
  reachable w -> Forall (fun c => Forall is_uint8 (chunk_value c)) (chunks w).
Proof.
  induction 1 as [x0 x1 y0 y1 z0 z1
                 | w wx wy wz v r g b w' _ IH Hv _ _ _ Hset
                 | w chunk cx cy cz seed w' _ IH Hgen].
  - unfold initVoxels. cbn [chunks]. apply Forall_fmap, Forall_forall.
    intros n _.
    change (Forall is_uint8
              (chunk_value (newChunk (Z.of_nat n) (mkChunkBounds x0 x1 y0 y1 z0 z1)))).
    rewrite (proj1 (newChunk_fields (Z.of_nat n) (mkChunkBounds x0 x1 y0 y1 z0 z1))).
    apply Forall_replicate. unfold is_uint8. lia.
  - eapply setVoxel_all; [| | exact Hset | exact IH].
    + intros c d Hc. exact Hc.
    + intros c k prev Hc _ _ _. unfold editedChunk.
      cbn [chunk_value set_dirtyMesh set_sum set_color set_value].
      now apply Forall_insert.
  - unfold generateChunk in Hgen. destruct chunk as [i |]; [| congruence].
    destruct (aget (chunks w) i) as [c |] eqn:Hc; [| discriminate].
    cbn [mbind option_bind] in Hgen.
    destruct (generateChunkBody c cx cy cz seed) as [c' |] eqn:Hbody; [| discriminate].
    cbn [mbind option_bind] in Hgen. injection Hgen as <-.
    cbn [chunks set_chunk]. apply all_chunks_insert; [assumption |].
    eapply (generateChunkBody_preserves (fun c0 => Forall is_uint8 (chunk_value c0)));
      [| | exact Hbody |].
    + intros c0 d r g b Hd _ _ _ H0 k vals c1 c2 c3 E0 _ _ _.
      cbn [chunk_value set_color set_value]. unfold aset in E0.
      destruct (_ && _); [| discriminate]. injection E0 as <-. now apply Forall_insert.
    + intros c0 s H0. exact H0.
    + rewrite aget_lookup in Hc by (apply aget_Some_range in Hc; lia).
      rewrite Forall_lookup in IH. eauto.
Qed.

Lemma sumZ_nonneg_zero (l : list Z) :
  Forall is_uint8 l -> sumZ l = 0 -> Forall (fun v => v = 0) l.
Proof.
  unfold sumZ, is_uint8. induction 1 as [| v l Hv Hl IH]; cbn; intros Hs; [constructor |].
  assert (0 <= foldr Z.add 0 l).
  { clear -Hl. induction Hl as [| x l' Hx _ IH']; cbn; lia. }
  constructor; [lia |]. apply IH. lia.
Qed.

(** X13: in every world made by [initVoxels] on bounds whose extents fit and
    edited by [setVoxel] (8-bit arguments) and [generateChunk], a chunk's
    [sum] is 0 exactly when all its 4096 densities are 0; this is the test
    by which the raycaster skips a chunk. *)
Theorem sum_zero_iff_empty w i c :
  reachable w -> bounds_ok (bounds w) -> aget (chunks w) i = Some c ->
  (chunk_sum c = 0 <->
   forall k, 0 <= k < CHUNK_VOXELS -> aget (chunk_value c) k = Some 0).
Proof.
  intros Hreach Hok Hc.
  pose proof (wf_world_chunk _ _ _ (reachable_well_formed w Hreach Hok) Hc) as Hwfc.
  pose proof (reachable_sums_ok w Hreach) as Hsums.
  pose proof (reachable_uint8 w Hreach) as Hu8.
  pose proof (aget_Some_range _ _ _ Hc) as Hr.
  rewrite aget_lookup in Hc by lia.
  rewrite Forall_lookup in Hsums, Hu8.
  rewrite (sum_ok_sumZ c Hwfc (Hsums _ _ Hc)).
  destruct Hwfc as (Hlen & _). split.
  - intros Hz k Hk.
    pose proof (sumZ_nonneg_zero _ (Hu8 _ _ Hc) Hz) as Hall.
    destruct (aget_in_range (chunk_value c) k) as (v & Hv); [lia |].
    rewrite Hv. rewrite aget_lookup in Hv by lia.
    rewrite Forall_lookup in Hall. now rewrite (Hall _ _ Hv).
  - intros Hall. now apply sumZ_zero.
Qed.

Lemma sum_zero_iff_empty_witness :
  exists w c,
    reachable w /\ aget (chunks w) 0 = Some c /\
    (chunk_sum c = 0 <->
     forall k, 0 <= k < CHUNK_VOXELS -> aget (chunk_value c) k = Some 0).
Proof.
  exists (initVoxels 0 0 0 0 0 0), (newChunk 0 (mkChunkBounds 0 0 0 0 0 0)).
  split; [apply reach_initVoxels |]. split; [reflexivity |].
  apply (sum_zero_iff_empty (initVoxels 0 0 0 0 0 0) 0).
  - apply reach_initVoxels.
  - apply bounds_ok_dec_true. reflexivity.
  - reflexivity.
Defined.

(** ** What generation leaves alone *)

Lemma generateChunkBody_fields c cx cy cz seed c' :
  generateChunkBody c cx cy cz seed = Some c' ->
  identityOf c' = identityOf c /\ chunk_dirtyMesh c' = chunk_dirtyMesh c.
Proof.
  intros Hbody.
  apply (generateChunkBody_preserves
           (fun c0 => identityOf c0 = identityOf c /\ chunk_dirtyMesh c0 = chunk_dirtyMesh c)
           c cx cy cz seed c'); [| | exact Hbody | auto].
  - intros c0 d r g b _ _ _ _ H0 k vals c1 c2 c3 _ _ _ _. exact H0.
  - intros c0 s H0. exact H0.
Qed.

(** X14: [generateChunk] changes the densities, colours and [sum] of the
    chunk it is given and nothing else: the bounds, every other chunk, and
    the id, coordinate and dirty flag of the generated chunk are as before
    (the caller has to mark the chunk dirty); with a null chunk pointer the
    world is unchanged. *)
Theorem generateChunk_frame w chunk cx cy cz seed w' :
  generateChunk w chunk cx cy cz seed = Some w' ->
  bounds w' = bounds w /\
  (chunk = None -> w' = w) /\
  forall j c, aget (chunks w) j = Some c ->
    exists c', aget (chunks w') j = Some c' /\
               identityOf c' = identityOf c /\
               chunk_dirtyMesh c' = chunk_dirtyMesh c /\
               (chunk <> Some j -> c' = c).
Proof.
  intros Hgen. unfold generateChunk in Hgen. destruct chunk as [i |].
  - destruct (aget (chunks w) i) as [c0 |] eqn:Hc0; [| discriminate].
    cbn [mbind option_bind] in Hgen.
    destruct (generateChunkBody c0 cx cy cz seed) as [c0' |] eqn:Hbody; [| discriminate].
    cbn [mbind option_bind] in Hgen. injection Hgen as <-.
    split; [reflexivity |]. split; [discriminate |].
    intros j c Hc. cbn [chunks set_chunk].
    pose proof (aget_Some_range _ _ _ Hc0) as Hi.
    pose proof (aget_Some_range _ _ _ Hc) as Hj.
    destruct (Z.eq_dec j i) as [-> | Hne].
    + rewrite aget_insert_eq by lia.
      assert (c = c0) as -> by congruence.
      destruct (generateChunkBody_fields _ _ _ _ _ _ Hbody) as (Hid & Hd).
      exists c0'. repeat split; try assumption. intros Hcontra. now contradict Hcontra.
    + rewrite aget_insert_ne by lia. exists c. auto.
  - injection Hgen as <-. split; [reflexivity |]. split; [reflexivity |].
    intros j c Hc. exists c. auto.
Qed.

Lemma generateChunk_frame_witness :
  exists w',
    generateChunk (initVoxels 0 1 0 0 0 0) (Some 0) 0 0 0 7 = Some w' /\
    bounds w' = bounds (initVoxels 0 1 0 0 0 0) /\
    exists c', aget (chunks w') 1 = Some c' /\
               c' = newChunk 1 (mkChunkBounds 0 1 0 0 0 0).
Proof.
  destruct (generateChunk_spec (initVoxels 0 1 0 0 0 0) 0
              (newChunk 0 (mkChunkBounds 0 1 0 0 0 0)) 0 0 0 7 eq_refl (newChunk_wf _ _))
    as (c0 & Hgen & _).
  exists (set_chunk (initVoxels 0 1 0 0 0 0) 0 c0). split; [exact Hgen |].
  destruct (generateChunk_frame _ _ _ _ _ _ _ Hgen) as (Hb & _ & Hrest).
  split; [exact Hb |].
  destruct (Hrest 1 (newChunk 1 (mkChunkBounds 0 1 0 0 0 0)) eq_refl)
    as (c' & Hc' & _ & _ & Hsame).
  exists c'. split; [exact Hc' |]. apply Hsame. discriminate.
Defined.

Lemma voxelOf_components c k v r g b :
  voxelOf c k = Some (v, r, g, b) ->
  aget (chunk_value c) k = Some v /\
  aget (chunk_color c) (k * 3 + 0) = Some r /\
  aget (chunk_color c) (k * 3 + 1) = Some g /\
  aget (chunk_color c) (k * 3 + 2) = Some b.
Proof.
  unfold voxelOf.
  destruct (aget (chunk_value c) k) as [v' |]; [| discriminate].
  destruct (aget (chunk_color c) (k * 3 + 0)) as [r' |]; [| discriminate].
  destruct (aget (chunk_color c) (k * 3 + 1)) as [g' |]; [| discriminate].
  destruct (aget (chunk_color c) (k * 3 + 2)) as [b' |]; [| discriminate].
  cbn [mbind option_bind]. intros [= -> -> -> ->]. auto.
Qed.

Lemma voxelOf_total c k :
  wf_chunk c -> 0 <= k < CHUNK_VOXELS -> exists v r g b, voxelOf c k = Some (v, r, g, b).
Proof.
  intros (Hv & Hc) Hk. change CHUNK_VOXELS with 4096 in *. unfold voxelOf.
  destruct (aget_in_range (chunk_value c) k) as (v & ->); [lia |].
  destruct (aget_in_range (chunk_color c) (k * 3 + 0)) as (r & ->); [lia |].
  destruct (aget_in_range (chunk_color c) (k * 3 + 1)) as (g & ->); [lia |].
  destruct (aget_in_range (chunk_color c) (k * 3 + 2)) as (b & ->); [lia |].
  cbn [mbind option_bind]. eauto.
Qed.

Lemma voxelOf_ext c1 c2 :
  wf_chunk c1 -> wf_chunk c2 ->
  (forall k, 0 <= k < CHUNK_VOXELS -> voxelOf c1 k = voxelOf c2 k) ->
  chunk_value c1 = chunk_value c2 /\ chunk_color c1 = chunk_color c2.
Proof.
  intros Hwf1 Hwf2 Hext.
  assert (Hcomp : forall k, 0 <= k < CHUNK_VOXELS ->
            aget (chunk_value c1) k = aget (chunk_value c2) k /\
            aget (chunk_color c1) (k * 3 + 0) = aget (chunk_color c2) (k * 3 + 0) /\
            aget (chunk_color c1) (k * 3 + 1) = aget (chunk_color c2) (k * 3 + 1) /\
            aget (chunk_color c1) (k * 3 + 2) = aget (chunk_color c2) (k * 3 + 2)).
  { intros k Hk. destruct (voxelOf_total c1 k Hwf1 Hk) as (v & r & g & b & H1).
    pose proof H1 as H2. rewrite (Hext k Hk) in H2.
    apply voxelOf_components in H1 as (-> & -> & -> & ->).
    apply voxelOf_components in H2 as (-> & -> & -> & ->). auto. }
  destruct Hwf1 as (Hv1 & Hc1), Hwf2 as (Hv2 & Hc2). change CHUNK_VOXELS with 4096 in *.
  split; apply list_eq; intros n.
  - destruct (decide (Z.of_nat n < 4096)) as [Hn | Hn].
    + destruct (Hcomp (Z.of_nat n) ltac:(lia)) as (Hval & _).
      now rewrite !aget_lookup, Nat2Z.id in Hval by lia.
    + rewrite !lookup_ge_None_2; [reflexivity | lia | lia].
  - destruct (decide (Z.of_nat n < 12288)) as [Hn | Hn].
    + pose proof (Z.div_mod (Z.of_nat n) 3 ltac:(lia)) as Hdm.
      pose proof (Z.mod_pos_bound (Z.of_nat n) 3 ltac:(lia)) as Hm.
      destruct (Hcomp (Z.of_nat n / 3) ltac:(lia)) as (_ & H0 & H1 & H2).
      assert (Hcase : Z.of_nat n = Z.of_nat n / 3 * 3 + 0
                      \/ Z.of_nat n = Z.of_nat n / 3 * 3 + 1
                      \/ Z.of_nat n = Z.of_nat n / 3 * 3 + 2) by lia.
      destruct Hcase as [E | [E | E]]; rewrite <- E in *;
        rewrite !aget_lookup, Nat2Z.id in * by lia; assumption.
    + rewrite !lookup_ge_None_2; [reflexivity | lia | lia].
Qed.

Lemma generateChunkBody_again c cx cy cz seed c' :
  wf_chunk c -> generateChunkBody c cx cy cz seed = Some c' ->
  generateChunkBody c' cx cy cz seed = Some c'.
Proof.
  intros Hwf Hbody.
  destruct (generateChunkBody_spec c cx cy cz seed Hwf) as (c1 & H1 & Hwf1 & Hs1 & Hv1).
  assert (c1 = c') as -> by congruence.
  destruct (generateChunkBody_spec c' cx cy cz seed Hwf1) as (c2 & H2 & Hwf2 & Hs2 & Hv2).
  rewrite H2. f_equal.
  destruct (generateChunkBody_fields _ _ _ _ _ _ H2) as (Hid & Hd).
  destruct (voxelOf_ext c2 c' Hwf2 Hwf1) as (Hval & Hcol).
  { intros k Hk. rewrite (Hv2 k Hk). pose proof (Hv1 k Hk) as Hk1.
    unfold generatedOrKept in *. destruct (offsetOfIndex k) as [[lx ly] lz].
    destruct (generatedVoxel _ _ _ seed) as [[v |] |]; congruence. }
  assert (Hsum : chunk_sum c2 = chunk_sum c').
  { unfold sum_ok in Hs1, Hs2. rewrite Hval in Hs2. congruence. }
  unfold identityOf in Hid.
  destruct c2, c'. cbn in *. congruence.
Qed.

(** X15: generating a chunk a second time with the same coordinate and seed
    changes nothing: in a well-formed world [generateChunk] applied to its
    own result returns that result. *)
Theorem generateChunk_idempotent w chunk cx cy cz seed w' :
  wf_world w ->
  generateChunk w chunk cx cy cz seed = Some w' ->
  generateChunk w' chunk cx cy cz seed = Some w'.
Proof.
  intros Hwf Hgen. unfold generateChunk in *. destruct chunk as [i |]; [| congruence].
  destruct (aget (chunks w) i) as [c |] eqn:Hc; [| discriminate].
  cbn [mbind option_bind] in Hgen.
  destruct (generateChunkBody c cx cy cz seed) as [c' |] eqn:Hbody; [| discriminate].
  cbn [mbind option_bind] in Hgen. injection Hgen as <-.
  pose proof (aget_Some_range _ _ _ Hc) as Hi.
  cbn [chunks set_chunk]. rewrite aget_insert_eq by lia. cbn [mbind option_bind].
  rewrite (generateChunkBody_again c cx cy cz seed c' (wf_world_chunk _ _ _ Hwf Hc) Hbody).
  cbn [mbind option_bind]. unfold set_chunk. cbn [chunks bounds].
  now rewrite list_insert_insert_eq.
Qed.

Lemma generateChunk_idempotent_witness :
  exists w',
    generateChunk (initVoxels 0 0 0 0 0 0) (Some 0) 0 0 0 0 = Some w' /\
    generateChunk w' (Some 0) 0 0 0 0 = Some w'.
Proof.
  destruct (generateChunk_spec (initVoxels 0 0 0 0 0 0) 0
              (newChunk 0 (mkChunkBounds 0 0 0 0 0 0)) 0 0 0 0 eq_refl (newChunk_wf _ _))
    as (c0 & Hgen & _).
  exists (set_chunk (initVoxels 0 0 0 0 0 0) 0 c0). split; [exact Hgen |].
  exact (generateChunk_idempotent _ _ _ _ _ _ _ single_chunk_wf Hgen).
Defined.

(** ** What the raycaster can report *)

Section RaySound.

Variable voxels : Voxels.
Variables originX originY originZ : f32.
Variables dirX dirY dirZ : f32.
Variable maxDistance : f32.
Variable out : RaycastResult.

Local Abbreviation loop := (rayLoop voxels originX originY originZ dirX dirY dirZ maxDistance).
Local Abbreviation skip := (skipChunk originX originY originZ dirX dirY dirZ maxDistance).
Local Abbreviation hitAt := (hitResult originX originY originZ dirX dirY dirZ).

Lemma skipChunk_return cx cy cz s res :
  skip out cx cy cz s = Return res -> res = setNoHit out.
Proof.
  unfold skipChunk. cbv zeta.
  repeat match goal with |- context [if ?b then _ else _] => destruct b end;
    congruence.
Qed.



(** Every return of the loop is either the no-hit return or the hit return
    of a pass that tested a solid voxel. *)
Lemma rayLoop_outcome (I : RayState -> Prop) :
  (forall s cx cy cz s', skip out cx cy cz s = Continue s' -> I s') ->
  (forall s, I (advance dirX dirY dirZ s)) ->
  forall fuel s res,
    I s -> loop fuel out s = Some res ->
    res = setNoHit out \/
    exists s' cx cy cz v r g b,
      I s' /\
      F32.ltb (ray_distance s') maxDistance = true /\
      worldPositionToChunkCoordinates (ray_x s') (ray_y s') (ray_z s') = (cx, cy, cz) /\
      chunkAbsentOrEmpty voxels cx cy cz = Some false /\
      getVoxel voxels (ray_x s') (ray_y s') (ray_z s') = Some (v, r, g, b) /\
      ISOLEVEL <= v /\
      res = hitAt v r g b s'.
Proof.
  intros Hskip Hadv. induction fuel as [| fuel IH]; intros s res Hs Hrun; [discriminate |].
  cbn [rayLoop] in Hrun.
  destruct (F32.ltb (ray_distance s) maxDistance) eqn:Hlt;
    [| injection Hrun as <-; now left].
  unfold rayStep in Hrun.
  destruct (worldPositionToChunkCoordinates (ray_x s) (ray_y s) (ray_z s))
    as [[cx cy] cz] eqn:HC.
  destruct (chunkAbsentOrEmpty voxels cx cy cz) as [[|] |] eqn:Hempty;
    cbn [mbind option_bind] in Hrun; [| | discriminate].
  - destruct (skip out cx cy cz s) as [s' | res'] eqn:Hsk.
    + exact (IH s' res (Hskip _ _ _ _ _ Hsk) Hrun).
    + injection Hrun as <-. left. eapply skipChunk_return, Hsk.
  - unfold testVoxel in Hrun.
    destruct (getVoxel voxels (ray_x s) (ray_y s) (ray_z s)) as [[[[v r] g] b] |] eqn:Hget;
      cbn [mbind option_bind] in Hrun; [| discriminate].
    destruct (Z.geb_spec v ISOLEVEL) as [Hsolid | Hair]; cbn [mbind option_bind] in Hrun.
    + injection Hrun as <-. right. exists s, cx, cy, cz, v, r, g, b.
      repeat split; try assumption; lia.
    + exact (IH _ res (Hadv s) Hrun).
Qed.

End RaySound.

(** X16: with a [maxDistance] that is not above zero (zero, negative or
    NaN) [raycastVoxels] reports no hit at once, whatever the world and the
    ray, and leaves the other fields of the result as they were. *)
Theorem raycast_no_range w ox oy oz dx dy dz maxD fuel out :
  F32.ltb F32.zero maxD = false ->
  raycastVoxels w ox oy oz dx dy dz maxD (S fuel) out = Some (setNoHit out).
Proof.
  intros Hrange. unfold raycastVoxels. cbn [rayLoop].
  change (ray_distance (rayInit ox oy oz dx dy dz)) with F32.zero.
  now rewrite Hrange.
Qed.

Lemma raycast_no_range_witness :
  F32.ltb F32.zero (F32.of_int (-3)) = false /\
  raycastVoxels (initVoxels 0 0 0 0 0 0) (F32.of_int 5) (F32.of_int 5) (F32.of_int (-10))
                F32.zero F32.zero F32.one (F32.of_int (-3)) 1 emptyResult
  = Some (setNoHit emptyResult).
Proof.
  split; [reflexivity |].
  exact (raycast_no_range (initVoxels 0 0 0 0 0 0) (F32.of_int 5) (F32.of_int 5)
           (F32.of_int (-10)) F32.zero F32.zero F32.one (F32.of_int (-3)) 0 emptyResult
           eq_refl).
Defined.

(** X17: whenever [raycastVoxels] reports a hit, the reported voxel is solid
    in the world: its density is at least ISOLEVEL, the reported density and
    colour are what [getVoxel] returns at the reported voxel coordinate, its
    chunk is present with a non-zero sum, and the reported distance is below
    [maxDistance]. *)
Theorem raycast_hit_sound w ox oy oz dx dy dz maxD fuel out res :
  raycastVoxels w ox oy oz dx dy dz maxD fuel out = Some res ->
  hit res = true ->
  getVoxel w (voxelX res) (voxelY res) (voxelZ res)
  = Some (hit_value res, hit_r res, hit_g res, hit_b res) /\
  ISOLEVEL <= hit_value res /\
  F32.ltb (distance res) maxD = true /\
  (let '(cx, cy, cz) := worldPositionToChunkCoordinates (voxelX res) (voxelY res) (voxelZ res) in
   chunkAbsentOrEmpty w cx cy cz = Some false).
Proof.
  intros Hrun Hhit. unfold raycastVoxels in Hrun.
  destruct (rayLoop_outcome w ox oy oz dx dy dz maxD out (fun _ => True)
              (fun _ _ _ _ _ _ => I) (fun _ => I) fuel _ res I Hrun)
    as [-> | (s & cx & cy & cz & v & r & g & b & _ & Hlt & HC & Hpresent & Hget & Hv & ->)].
  - discriminate Hhit.
  - cbn [hitResult voxelX voxelY voxelZ hit_value hit_r hit_g hit_b distance].
    rewrite HC. auto.
Qed.

(** X18: in a world in which every chunk has [sum] 0, [raycastVoxels] never
    reports a hit: whatever it returns has [hit = false] and the other
    fields of the result as they were. *)
Theorem raycast_empty_world w ox oy oz dx dy dz maxD fuel out res :
  (forall i c, aget (chunks w) i = Some c -> chunk_sum c = 0) ->
  raycastVoxels w ox oy oz dx dy dz maxD fuel out = Some res ->
  res = setNoHit out.
Proof.
  intros Hempty Hrun. unfold raycastVoxels in Hrun.
  destruct (rayLoop_outcome w ox oy oz dx dy dz maxD out (fun _ => True)
              (fun _ _ _ _ _ _ => I) (fun _ => I) fuel _ res I Hrun)
    as [-> | (s & cx & cy & cz & v & r & g & b & _ & _ & _ & Hpresent & _)];
    [reflexivity |].
  unfold chunkAbsentOrEmpty in Hpresent.
  destruct (chunkCoordinateToIndex cx cy cz (bounds w)) as [i |]; [| discriminate].
  destruct (aget (chunks w) i) as [c |] eqn:Hc; [| discriminate].
  cbn [mbind option_bind] in Hpresent. rewrite (Hempty i c Hc) in Hpresent. discriminate.
Qed.


(** X20: in a well-formed world a pass of the raycast loop never leaves an
    array: from every state it either continues with a next state or
    returns a result. *)
Theorem rayStep_safe w ox oy oz dx dy dz maxD out s :
  wf_world w -> exists r, rayStep w ox oy oz dx dy dz maxD out s = Some r.
Proof.
  intros Hwf. pose proof Hwf as (Hok & Hlen & _). unfold rayStep.
  destruct (worldPositionToChunkCoordinates (ray_x s) (ray_y s) (ray_z s)) as [[cx cy] cz].
  assert (exists e, chunkAbsentOrEmpty w cx cy cz = Some e) as (e & ->).
  { unfold chunkAbsentOrEmpty.
    destruct (chunkCoordinateToIndex cx cy cz (bounds w)) as [i |] eqn:Hi; [| eauto].
    pose proof (chunkCoordinateToIndex_inBounds _ _ _ _ _ Hi) as Hin.
    rewrite (chunkCoordinateToIndex_flat _ _ _ _ Hok Hin) in Hi. injection Hi as <-.
    pose proof (flatIndex_range _ _ _ _ Hok Hin) as Hr.
    destruct (aget_in_range (chunks w) (flatIndex (bounds w) cx cy cz)) as (c & ->); [lia |].
    cbn [mbind option_bind]. eauto. }
  cbn [mbind option_bind]. destruct e; [eauto |].
  unfold testVoxel. destruct (getVoxel_total w (ray_x s) (ray_y s) (ray_z s) Hwf)
    as ([[[v r] g] b] & ->).
  cbn [mbind option_bind]. destruct (v >=? ISOLEVEL); eauto.
Qed.

Lemma rayStep_safe_witness :
  exists r, rayStep (initVoxels 0 0 0 0 0 0) (F32.of_int 5) (F32.of_int 5) (F32.of_int (-10))
                    F32.zero F32.zero F32.one (F32.of_int 100) emptyResult
                    (rayInit (F32.of_int 5) (F32.of_int 5) (F32.of_int (-10))
                             F32.zero F32.zero F32.one) = Some r.
Proof. exact (rayStep_safe _ _ _ _ _ _ _ _ _ _ single_chunk_wf). Defined.

Lemma raycast_hit_sound_witness :
  exists w res,
    setVoxel (initVoxels 0 0 0 0 0 0) 5 5 5 255 10 20 30 = Some w /\
    raycastVoxels w (F32.of_int 5) (F32.of_int 5) (F32.of_int (-10))
                  F32.zero F32.zero F32.one (F32.of_int 100) 7 emptyResult = Some res /\
    hit res = true /\
    getVoxel w (voxelX res) (voxelY res) (voxelZ res)
    = Some (hit_value res, hit_r res, hit_g res, hit_b res).
Proof.
  destruct (getVoxel_written (initVoxels 0 0 0 0 0 0) 5 5 5 255 10 20 30 single_chunk_wf)
    as (w & Hset & _).
  { vm_compute. intuition congruence. }
  exists w.
  assert (Hw : Some w = setVoxel (initVoxels 0 0 0 0 0 0) 5 5 5 255 10 20 30)
    by (symmetry; exact Hset).
  vm_compute in Hw. injection Hw as ->.
  match goal with
  | |- exists res, _ /\ ?run = Some res /\ _ =>
      let r := eval vm_compute in run in
      match r with
      | Some ?x =>
          assert (Hrun : run = Some x) by (vm_cast_no_check (eq_refl (Some x)));
          exists x
      end
  end.
  match type of Hrun with _ = Some ?x => assert (Hhit : hit x = true) by reflexivity end.
  split; [vm_compute; reflexivity |]. split; [exact Hrun |].
  split; [exact Hhit |].
  exact (proj1 (raycast_hit_sound _ _ _ _ _ _ _ _ _ _ _ Hrun Hhit)).
Defined.


Lemma initVoxels_sums_zero x0 x1 y0 y1 z0 z1 i c :
  aget (chunks (initVoxels x0 x1 y0 y1 z0 z1)) i = Some c -> chunk_sum c = 0.
Proof.
  intros Hc. pose proof (aget_Some_range _ _ _ Hc) as Hr.
  rewrite aget_lookup in Hc by lia. unfold initVoxels in Hc. cbn [chunks] in Hc.
  apply list_lookup_fmap_Some in Hc as (n & -> & _).
  now destruct (newChunk_fields (Z.of_nat n) (mkChunkBounds x0 x1 y0 y1 z0 z1))
    as (_ & _ & -> & _).
Qed.

Lemma raycast_empty_world_witness :
  raycastVoxels (initVoxels 0 0 0 0 0 0) (F32.of_int 5) (F32.of_int 5) (F32.of_int (-10))
                F32.zero F32.zero F32.one (F32.of_int 100) 7 emptyResult
  = Some (setNoHit emptyResult).
Proof.
  destruct (raycastVoxels (initVoxels 0 0 0 0 0 0) (F32.of_int 5) (F32.of_int 5)
              (F32.of_int (-10)) F32.zero F32.zero F32.one (F32.of_int 100) 7 emptyResult)
    as [res |] eqn:Hrun; [| vm_compute in Hrun; discriminate Hrun].
  f_equal.
  exact (raycast_empty_world _ _ _ _ _ _ _ _ _ _ _
           (initVoxels_sums_zero 0 0 0 0 0 0) Hrun).
Defined.

(** ** Degenerate triangles and uniform colours *)

Lemma F32_sub_self x : F32.is_finite x = true -> F32.sub x x = S754_zero false.
Proof.
  destruct x as [s | s | | s m e]; try discriminate; intros _.
  - now destruct s.
  - unfold F32.sub, SFsub. cbv zeta.
    set (d := cond_Zopp s _). replace (d - d) with 0 by lia. reflexivity.
Qed.

Lemma F32_mul_zero_r x s :
  F32.is_finite x = true -> exists s', F32.mul x (S754_zero s) = S754_zero s'.
Proof. destruct x as [sx | sx | | sx m e]; try discriminate; intros _; eexists; reflexivity. Qed.

Lemma F32_mul_zero_l x s :
  F32.is_finite x = true -> exists s', F32.mul (S754_zero s) x = S754_zero s'.
Proof. destruct x as [sx | sx | | sx m e]; try discriminate; intros _; eexists; reflexivity. Qed.

Lemma F32_sub_zeros s s' : exists s'', F32.sub (S754_zero s) (S754_zero s') = S754_zero s''.
Proof. destruct s, s'; eexists; reflexivity. Qed.

Lemma F32_square_zero s : F32.mul (S754_zero s) (S754_zero s) = S754_zero false.
Proof. now destruct s. Qed.

Lemma computeNormal_flat a b c :
  (exists sx sy sz,
      vecSub a b = mkVec3 (S754_zero sx) (S754_zero sy) (S754_zero sz)
      /\ vecFinite (vecSub c b) = true)
  \/ (exists sx sy sz,
         vecSub c b = mkVec3 (S754_zero sx) (S754_zero sy) (S754_zero sz)
         /\ vecFinite (vecSub a b) = true) ->
  computeNormal a b c = mkVec3 F32.zero F32.one F32.zero.
Proof.
  unfold computeNormal, vecSub, vecFinite. cbn [vec_x vec_y vec_z].
  intros [(sx & sy & sz & [= -> -> ->] & Hfin) | (sx & sy & sz & [= -> -> ->] & Hfin)];
    apply andb_true_iff in Hfin as (Hfin & Fz); apply andb_true_iff in Hfin as (Fx & Fy);
    cbv zeta.
  - destruct (F32_mul_zero_r _ sz Fy) as (s1 & ->).
    destruct (F32_mul_zero_r _ sy Fz) as (s2 & ->).
    destruct (F32_mul_zero_r _ sx Fz) as (s3 & ->).
    destruct (F32_mul_zero_r _ sz Fx) as (s4 & ->).
    destruct (F32_mul_zero_r _ sy Fx) as (s5 & ->).
    destruct (F32_mul_zero_r _ sx Fy) as (s6 & ->).
    destruct (F32_sub_zeros s1 s2) as (n1 & ->).
    destruct (F32_sub_zeros s3 s4) as (n2 & ->).
    destruct (F32_sub_zeros s5 s6) as (n3 & ->).
    rewrite !F32_square_zero. reflexivity.
  - destruct (F32_mul_zero_l _ sy Fz) as (s1 & ->).
    destruct (F32_mul_zero_l _ sz Fy) as (s2 & ->).
    destruct (F32_mul_zero_l _ sz Fx) as (s3 & ->).
    destruct (F32_mul_zero_l _ sx Fz) as (s4 & ->).
    destruct (F32_mul_zero_l _ sx Fy) as (s5 & ->).
    destruct (F32_mul_zero_l _ sy Fx) as (s6 & ->).
    destruct (F32_sub_zeros s1 s2) as (n1 & ->).
    destruct (F32_sub_zeros s3 s4) as (n2 & ->).
    destruct (F32_sub_zeros s5 s6) as (n3 & ->).
    rewrite !F32_square_zero. reflexivity.
Qed.

(** X21: for a triangle with finite vertices of which the middle vertex [b]
    coincides with [a] or with [c], and whose other edge from [b] has finite
    components, [computeNormal] returns the fallback normal (0, 1, 0) and
    not a NaN vector. *)
Theorem computeNormal_degenerate a b c :
  vecFinite b = true ->
  (a = b /\ vecFinite (vecSub c b) = true) \/ (c = b /\ vecFinite (vecSub a b) = true) ->
  computeNormal a b c = mkVec3 F32.zero F32.one F32.zero.
Proof.
  intros Hb Hcase. apply computeNormal_flat.
  apply andb_true_iff in Hb as (Hb & Fz). apply andb_true_iff in Hb as (Fx & Fy).
  destruct Hcase as [(-> & Hfin) | (-> & Hfin)]; [left | right];
    exists false, false, false; (split; [| exact Hfin]);
    unfold vecSub; now rewrite !F32_sub_self.
Qed.

Lemma computeNormal_degenerate_witness :
  computeNormal (mkVec3 (F32.of_int 3) F32.half (F32.of_int 7))
                (mkVec3 (F32.of_int 3) F32.half (F32.of_int 7))
                (mkVec3 (F32.of_int 4) (F32.of_int 4) F32.zero)
  = mkVec3 F32.zero F32.one F32.zero.
Proof.
  apply computeNormal_degenerate; [reflexivity |].
  left. split; reflexivity.
Defined.

Lemma lerp_same t p :
  F32.is_finite t = true -> F32.is_finite p = true -> p <> S754_zero true ->
  lerp t p p = p.
Proof.
  intros Ht Hp Hneg. unfold lerp. rewrite (F32_sub_self p Hp).
  destruct (F32_mul_zero_r t false Ht) as (s & ->).
  destruct p as [sp | sp | | sp m e]; try discriminate.
  - destruct sp; [congruence |]. now destruct s.
  - reflexivity.
Qed.

(** X22: [interpolate] keeps exactly what the two samples share, whatever
    their 8-bit densities are: a coordinate on which the two positions agree
    (the two other axes of a cell edge) is the coordinate of the vertex, and a
    colour channel on which the samples agree gives the table's value of that
    channel, provided the shared value is finite and not the negative
    zero. *)
Theorem interpolate_uniform (srgbToLinearLUT : Z -> f32) (a b : Sample) :
  is_uint8 (sample_value a) -> is_uint8 (sample_value b) ->
  (forall axis, axis ∈ [vec_x; vec_y; vec_z] ->
     axis (sample_position b) = axis (sample_position a) ->
     F32.is_finite (axis (sample_position a)) = true ->
     axis (sample_position a) <> S754_zero true ->
     axis (edge_position (interpolate srgbToLinearLUT a b)) = axis (sample_position a)) /\
  (forall channel out,
     (channel, out) ∈ [(sample_r, edge_r); (sample_g, edge_g); (sample_b, edge_b)] ->
     channel b = channel a ->
     F32.is_finite (srgbToLinearLUT (channel a)) = true ->
     srgbToLinearLUT (channel a) <> S754_zero true ->
     out (interpolate srgbToLinearLUT a b) = srgbToLinearLUT (channel a)).
Proof.
  intros Ha Hb.
  pose proof (interpolateCheckAt_true _ _ Ha Hb) as Hchk.
  unfold interpolateCheckAt in Hchk. cbv zeta in Hchk.
  apply andb_true_iff in Hchk as (Hunit & _).
  unfold stepInUnit, betweenF in Hunit.
  apply andb_true_iff in Hunit as (Hunit & _). apply andb_true_iff in Hunit as (Ht & _).
  split.
  - intros axis Hin Heq Hfin Hneg.
    rewrite !elem_of_cons, elem_of_nil in Hin.
    destruct Hin as [-> | [-> | [-> | []]]];
      unfold interpolate; cbv zeta; cbn [edge_position vec_x vec_y vec_z];
      rewrite Heq; now apply lerp_same.
  - intros channel out Hin Heq Hfin Hneg.
    rewrite !elem_of_cons, elem_of_nil in Hin.
    destruct Hin as [[= -> ->] | [[= -> ->] | [[= -> ->] | []]]];
      unfold interpolate; cbv zeta; cbn [edge_r edge_g edge_b];
      rewrite Heq; now apply lerp_same.
Qed.

Lemma interpolate_uniform_witness :
  let a := mkSample (mkVec3 (F32.of_int 3) (F32.of_int 4) (F32.of_int 5)) 200 10 20 30 in
  let b := mkSample (mkVec3 (F32.of_int 4) (F32.of_int 4) (F32.of_int 5)) 17 10 20 30 in
  let e := interpolate (fun v => F32.of_int (v + 1)) a b in
  vec_y (edge_position e) = F32.of_int 4 /\ vec_z (edge_position e) = F32.of_int 5 /\
  edge_r e = F32.of_int 11 /\ edge_g e = F32.of_int 21 /\ edge_b e = F32.of_int 31.
Proof.
  intros a b e.
  destruct (interpolate_uniform (fun v => F32.of_int (v + 1)) a b) as (Hpos & Hcol).
  - unfold is_uint8. cbn. lia.
  - unfold is_uint8. cbn. lia.
  - split; [| split; [| split; [| split]]].
    + apply (Hpos vec_y); [rewrite !elem_of_cons; auto 10 | reflexivity | reflexivity | discriminate].
    + apply (Hpos vec_z); [rewrite !elem_of_cons; auto 10 | reflexivity | reflexivity | discriminate].
    + apply (Hcol sample_r edge_r); [rewrite !elem_of_cons; auto 10 | reflexivity | reflexivity | discriminate].
    + apply (Hcol sample_g edge_g); [rewrite !elem_of_cons; auto 10 | reflexivity | reflexivity | discriminate].
    + apply (Hcol sample_b edge_b); [rewrite !elem_of_cons; auto 10 | reflexivity | reflexivity | discriminate].
Defined.

(** ** Noise *)

(** X23: [simplexNoise3D] and [fbm3] return for every input: every read of
    the permutation table is at an index of at most 511 and every read of
    the gradient table at an index below 12. *)
Theorem noise_reads_in_range x y z seed octaves lacunarity gain :
  (exists n, simplexNoise3D x y z seed = Some n) /\
  (exists n, fbm3 x y z seed octaves lacunarity gain = Some n).
Proof. split; [apply simplexNoise3D_total | apply fbm3_total]. Qed.

(** X24: with no octaves (an octave count of zero or less) [fbm3] divides
    zero by zero and returns NaN. *)
Theorem fbm3_no_octaves x y z seed octaves lacunarity gain :
  octaves <= 0 -> fbm3 x y z seed octaves lacunarity gain = Some S754_nan.
Proof.
  intros Ho. unfold fbm3.
  assert (Z.to_nat octaves = 0%nat) as -> by lia. reflexivity.
Qed.

Lemma fbm3_no_octaves_witness :
  fbm3 F32.one F32.half F32.zero 7 0 (F32.of_int 2) F32.half = Some S754_nan.
Proof. apply fbm3_no_octaves. lia. Defined.

(** ** Meshing a chunk without a surface *)

Lemma cubeIndexOf_side ss solid :
  (forall j, 0 <= j < 8 ->
     exists s, aget ss j = Some s /\ (sample_value s >=? ISOLEVEL) = solid) ->
  cubeIndexOf ss = Some (if solid then 255 else 0).
Proof.
  intros Hss. unfold cubeIndexOf.
  destruct (Hss 0 ltac:(lia)) as (s0 & -> & E0). destruct (Hss 1 ltac:(lia)) as (s1 & -> & E1).
  destruct (Hss 2 ltac:(lia)) as (s2 & -> & E2). destruct (Hss 3 ltac:(lia)) as (s3 & -> & E3).
  destruct (Hss 4 ltac:(lia)) as (s4 & -> & E4). destruct (Hss 5 ltac:(lia)) as (s5 & -> & E5).
  destruct (Hss 6 ltac:(lia)) as (s6 & -> & E6). destruct (Hss 7 ltac:(lia)) as (s7 & -> & E7).
  cbn [mbind option_bind]. rewrite E0, E1, E2, E3, E4, E5, E6, E7.
  now destruct solid.
Qed.

Section MeshSide.

Variable srgbToLinearLUT : Z -> f32.
Variable m0 : Memory.
Variable chunk : Z.
Variable c : VoxelChunk.
Variable solid : bool.
Hypothesis Hwf : wf_world (mem_world m0).
Hypothesis Hchunk : aget (chunks (mem_world m0)) chunk = Some c.
Hypothesis Hscratch : scratch_ok m0.
Hypothesis Hside : cornersSide solid (mem_world m0) c.

Lemma presample_side ly lz lx :
  0 <= ly < SAMPLE_GRID_SIZE -> 0 <= lz < SAMPLE_GRID_SIZE -> 0 <= lx < SAMPLE_GRID_SIZE ->
  hoare (fun m => meshMem m0 0 0 0 m /\ gridSide solid ((ly * 17 + lz) * 17 + lx) m)
        (presample chunk ly lz lx)
        (fun _ m => meshMem m0 0 0 0 m /\ gridSide solid ((ly * 17 + lz) * 17 + lx + 1) m).
Proof.
  intros Hy Hz Hx m (Hm & Hg).
  destruct (presample_hoare m0 chunk c Hwf Hchunk ly lz lx 0 0 0 Hy Hz Hx m Hm)
    as ([] & m' & Hrun & Hm').
  exists tt, m'. split; [exact Hrun |]. split; [exact Hm' |].
  pose proof Hm as (Hw & (Hs & He & Hgv & Hgc) & _).
  change SAMPLE_GRID_SIZE with 17 in Hgv, Hgc, Hx, Hy, Hz.
  destruct (Hside lx ly lz) as (v & r & g & b & Hv & Hsd);
    [change SAMPLE_GRID_SIZE with 17; lia .. |].
  revert Hrun.
  unfold presample, mbind, M_bind, bind, readWorld, readGrid, liftOpt, writeGrid.
  cbv beta iota. rewrite Hw, Hchunk. cbv beta iota. rewrite Hv. cbv beta iota.
  unfold gridIndex. change SAMPLE_GRID_SIZE with 17.
  set (i := (ly * 17 + lz) * 17 + lx) in *.
  assert (Hi : 0 <= i < 4913) by (subst i; lia).
  rewrite (aset_in_range (grid_values (mem_gridBuffer m)) i v) by lia.
  rewrite (aset_in_range (grid_colors (mem_gridBuffer m)) (i * 3 + 0) r) by lia.
  rewrite (aset_in_range _ (i * 3 + 1) g) by (rewrite length_insert; lia).
  rewrite (aset_in_range _ (i * 3 + 2) b) by (rewrite !length_insert; lia).
  intros [= <-]. intros j Hj. cbn [mem_gridBuffer grid_values].
  destruct (Z.eq_dec j i) as [-> | Hne].
  - rewrite aget_insert_eq by lia. eauto.
  - rewrite aget_insert_ne by lia. apply Hg. lia.
Qed.

Lemma loadSample_side i x y z :
  0 <= i < 8 ->
  0 <= x < SAMPLE_GRID_SIZE -> 0 <= y < SAMPLE_GRID_SIZE -> 0 <= z < SAMPLE_GRID_SIZE ->
  hoare (fun m => (meshMem m0 0 0 0 m /\ gridSide solid 4913 m) /\ samplesSide solid i m)
        (loadSample i x y z)
        (fun _ m => (meshMem m0 0 0 0 m /\ gridSide solid 4913 m)
                    /\ samplesSide solid (i + 1) m).
Proof.
  intros Hi Hx Hy Hz m ((Hm & Hg) & Hss).
  destruct (loadSample_hoare m0 i x y z 0 0 0 Hi Hx Hy Hz m Hm) as ([] & m' & Hrun & Hm').
  exists tt, m'. split; [exact Hrun |].
  pose proof Hm as (Hw & (Hs & He & Hgv & Hgc) & _).
  change SAMPLE_GRID_SIZE with 17 in Hgv, Hgc, Hx, Hy, Hz.
  revert Hrun.
  unfold loadSample, mbind, M_bind, bind, readGrid, readSamples, liftOpt, writeSamples.
  cbv beta iota. unfold gridIndex. change SAMPLE_GRID_SIZE with 17.
  set (j := (y * 17 + z) * 17 + x).
  assert (Hj : 0 <= j < 4913) by (subst j; lia).
  destruct (Hg j Hj) as (v & Hv & Hsd). rewrite Hv.
  destruct (aget_in_range (grid_colors (mem_gridBuffer m)) (j * 3 + 0)) as (r & ->); [lia |].
  destruct (aget_in_range (grid_colors (mem_gridBuffer m)) (j * 3 + 1)) as (g & ->); [lia |].
  destruct (aget_in_range (grid_colors (mem_gridBuffer m)) (j * 3 + 2)) as (b & ->); [lia |].
  cbv beta iota. rewrite aset_in_range by lia.
  intros [= <-]. split; [split; [exact Hm' | exact Hg] |].
  intros n Hn. cbn [mem_samples].
  destruct (Z.eq_dec n i) as [-> | Hne].
  - rewrite aget_insert_eq by lia. eexists. split; [reflexivity | exact Hsd].
  - rewrite aget_insert_ne by lia. apply Hss. lia.
Qed.

Lemma marchCell_side ly lz lx :
  0 <= ly < CHUNK_SIZE -> 0 <= lz < CHUNK_SIZE -> 0 <= lx < CHUNK_SIZE ->
  hoare (fun m => meshMem m0 0 0 0 m /\ gridSide solid 4913 m)
        (marchCell srgbToLinearLUT ly lz lx)
        (fun _ m => meshMem m0 0 0 0 m /\ gridSide solid 4913 m).
Proof.
  change CHUNK_SIZE with 16. intros Hy Hz Hx. unfold marchCell.
  apply (hoare_pre (fun m => (meshMem m0 0 0 0 m /\ gridSide solid 4913 m)
                             /\ samplesSide solid 0 m)).
  { intros m Hm. split; [exact Hm |]. intros j Hj. lia. }
  do 8 (eapply hoare_bind;
        [apply loadSample_side; change SAMPLE_GRID_SIZE with 17; lia | intros ?; cbv beta]).
  intros m (Hm & Hss). change (0 + 1 + 1 + 1 + 1 + 1 + 1 + 1 + 1) with 8 in Hss.
  exists tt, m. split; [| exact Hm].
  unfold mbind, M_bind, bind, readSamples, liftOpt. cbv beta iota.
  rewrite (cubeIndexOf_side (mem_samples m) solid Hss).
  destruct solid; reflexivity.
Qed.

Lemma gridSide_at pos pos' m :
  pos = pos' ->
  meshMem m0 0 0 0 m /\ gridSide solid pos m -> meshMem m0 0 0 0 m /\ gridSide solid pos' m.
Proof. now intros ->. Qed.

Lemma mesh_side :
  hoare (fun m => m = m0) (mesh srgbToLinearLUT chunk)
        (fun _ m => meshMem m0 0 0 0 m).
Proof.
  unfold mesh.
  eapply hoare_bind; [apply resetCounts_hoare; exact Hscratch | intros ?; cbv beta].
  eapply hoare_bind.
  { eapply hoare_pre; [| eapply hoare_post].
    2:{ apply (hoare_forRange
                 (fun ly m => meshMem m0 0 0 0 m /\ gridSide solid (ly * 17 * 17) m));
          [discriminate |].
        intros ly Hy.
        eapply hoare_pre; [| eapply hoare_post].
        2:{ apply (hoare_forRange
                     (fun lz m => meshMem m0 0 0 0 m
                                  /\ gridSide solid ((ly * 17 + lz) * 17) m));
              [discriminate |].
            intros lz Hz.
            eapply hoare_pre; [| eapply hoare_post].
            2:{ apply (hoare_forRange
                         (fun lx m => meshMem m0 0 0 0 m
                                      /\ gridSide solid ((ly * 17 + lz) * 17 + lx) m));
                  [discriminate |].
                intros lx Hx.
                eapply hoare_post; [now apply presample_side |].
                intros u m. apply gridSide_at. lia. }
            - intros m. apply gridSide_at. lia.
            - intros u m. apply gridSide_at. change SAMPLE_GRID_SIZE with 17. lia. }
        - intros m. apply gridSide_at. lia.
        - intros u m. apply gridSide_at. change SAMPLE_GRID_SIZE with 17. lia. }
    - intros m Hm. split; [exact Hm |]. intros j Hj. lia.
    - intros u m Hm. exact Hm. }
  intros ?; cbv beta.
  eapply hoare_pre; [| eapply hoare_post].
  2:{ apply (hoare_forRange (fun _ m => meshMem m0 0 0 0 m /\ gridSide solid 4913 m));
        [discriminate |].
      intros ly Hy.
      apply (hoare_forRange (fun _ m => meshMem m0 0 0 0 m /\ gridSide solid 4913 m));
        [discriminate |].
      intros lz Hz.
      apply (hoare_forRange (fun _ m => meshMem m0 0 0 0 m /\ gridSide solid 4913 m));
        [discriminate |].
      intros lx Hx. now apply marchCell_side. }
  - intros m. apply gridSide_at. reflexivity.
  - intros u m (Hm & _). exact Hm.
Qed.

End MeshSide.

Lemma bufAt_zero a0 a : bufAt a0 0 a -> a = a0.
Proof.
  intros (_ & Hlen & Htail). apply list_eq. intros n.
  specialize (Htail (Z.of_nat n) ltac:(lia)).
  now rewrite !aget_lookup, Nat2Z.id in Htail by lia.
Qed.

(** X25: when every corner sample of a chunk is on the same side of the iso
    level (the chunk and the layer beyond its high faces are all empty, or
    all solid), [mesh] emits no triangle: it returns with the three counters
    at 0 and the geometry buffers as they were, whatever their size. *)
Theorem mesh_no_surface (srgbToLinearLUT : Z -> f32) m chunk c solid :
  wf_world (mem_world m) ->
  aget (chunks (mem_world m)) chunk = Some c ->
  scratch_ok m ->
  cornersSide solid (mem_world m) c ->
  exists m',
    mesh srgbToLinearLUT chunk m = Some (tt, m') /\
    (positionsCount (mem_out m'), normalsCount (mem_out m'), colorsCount (mem_out m'))
    = (0, 0, 0) /\
    (positions (mem_out m'), normals (mem_out m'), colors (mem_out m'))
    = (positions (mem_out m), normals (mem_out m), colors (mem_out m)).
Proof.
  intros Hwf Hc Hs Hside.
  destruct (mesh_side srgbToLinearLUT m chunk c solid Hwf Hc Hs Hside m eq_refl)
    as ([] & m' & Hrun & _ & _ & Hp & Hn & Hk & _ & _ & _ & Bp & Bn & Bk).
  exists m'. split; [exact Hrun |]. rewrite Hp, Hn, Hk. split; [reflexivity |].
  now rewrite (bufAt_zero _ _ Bp), (bufAt_zero _ _ Bn), (bufAt_zero _ _ Bk).
Qed.

Lemma initVoxels_cornersSide :
  cornersSide false (initVoxels 0 0 0 0 0 0) (newChunk 0 (mkChunkBounds 0 0 0 0 0 0)).
Proof.
  intros lx ly lz _ _ _. exists 0, 0, 0, 0. split; [| reflexivity].
  rewrite (getVoxelRelative_world (initVoxels 0 0 0 0 0 0) 0
             (newChunk 0 (mkChunkBounds 0 0 0 0 0 0)) lx ly lz eq_refl eq_refl).
  apply getVoxel_initVoxels, bounds_ok_dec_true. reflexivity.
Qed.

Lemma mesh_no_surface_witness :
  exists m',
    mesh (fun _ => F32.zero) 0 (initialMemory (initVoxels 0 0 0 0 0 0)) = Some (tt, m') /\
    (positionsCount (mem_out m'), normalsCount (mem_out m'), colorsCount (mem_out m'))
    = (0, 0, 0).
Proof.
  destruct (mesh_no_surface (fun _ => F32.zero) (initialMemory (initVoxels 0 0 0 0 0 0)) 0
              (newChunk 0 (mkChunkBounds 0 0 0 0 0 0)) false
              single_chunk_wf eq_refl (initialMemory_scratch_ok _)
              initVoxels_cornersSide)
    as (m' & Hrun & Hcounts & _).
  exists m'. split; [exact Hrun | exact Hcounts].
Defined.

(** ** Edits in sequence *)

Lemma editedChunk_again c k prev v r g b v' r' g' b' :
  0 <= k ->
  editedChunk (editedChunk c k prev v r g b) k v v' r' g' b'
  = editedChunk c k prev v' r' g' b'.
Proof.
  intros Hk. destruct c as [id cx cy cz vals cols s d].
  cbv [editedChunk set_dirtyMesh set_sum set_color set_value chunk_id chunk_x chunk_y
       chunk_z chunk_value chunk_color chunk_sum chunk_dirtyMesh].
  f_equal.
  - apply list_insert_insert_eq.
  - rewrite (list_insert_insert_ne _ (Z.to_nat (k * 3 + 0)) (Z.to_nat (k * 3 + 2))) by lia.
    rewrite (list_insert_insert_ne _ (Z.to_nat (k * 3 + 0)) (Z.to_nat (k * 3 + 1))) by lia.
    rewrite list_insert_insert_eq.
    rewrite (list_insert_insert_ne _ (Z.to_nat (k * 3 + 1)) (Z.to_nat (k * 3 + 2))) by lia.
    rewrite (list_insert_insert_eq _ (Z.to_nat (k * 3 + 1))).
    now rewrite list_insert_insert_eq.
  - lia.
Qed.

(** X26: the last write wins. In a well-formed world, editing a voxel and
    then editing the same voxel again leaves exactly the world that the
    second edit alone would have left: densities, colours, every chunk's
    [sum] and every dirty flag. *)
Theorem setVoxel_overwrite w x y z d1 r1 g1 b1 d2 r2 g2 b2 w1 :
  wf_world w ->
  setVoxel w x y z d1 r1 g1 b1 = Some w1 ->
  setVoxel w1 x y z d2 r2 g2 b2 = setVoxel w x y z d2 r2 g2 b2.
Proof.
  intros Hwf Hset1.
  destruct (ownerInBounds_dec w x y z) as [Hin | Hout].
  2:{ rewrite (setVoxel_ignored _ _ _ _ _ _ _ _ Hout) in Hset1. now injection Hset1 as <-. }
  pose proof (setVoxel_wf _ _ _ _ _ _ _ _ _ Hwf Hset1) as Hwf1.
  pose proof Hwf as (Hok & Hlen & _).
  unfold ownerInBounds in Hin.
  destruct (chunkOf x y z) as [[cx cy] cz] eqn:HC.
  destruct (localOf x y z) as [[lx ly] lz] eqn:HL.
  destruct (setVoxel_chunks w x y z d1 r1 g1 b1 _ _ _ _ _ _ Hwf HC HL Hin)
    as (c0 & prev & wA & Hc0 & Hprev & HsetA & HbA & HlA & HownA & HothA).
  rewrite Hset1 in HsetA. injection HsetA as <-.
  assert (Hin1 : inBounds (bounds w1) cx cy cz) by now rewrite HbA.
  destruct (setVoxel_chunks w1 x y z d2 r2 g2 b2 _ _ _ _ _ _ Hwf1 HC HL Hin1)
    as (c1 & prev1 & w2 & Hc1 & Hprev1 & Hset2 & Hb2 & Hl2 & Hown2 & Hoth2).
  destruct (setVoxel_chunks w x y z d2 r2 g2 b2 _ _ _ _ _ _ Hwf HC HL Hin)
    as (c0' & prev' & w2' & Hc0' & Hprev' & Hset2' & Hb2' & Hl2' & Hown2' & Hoth2').
  rewrite Hset2, Hset2'. f_equal.
  rewrite HbA in *.
  rewrite Hc0 in Hc0'. injection Hc0' as <-.
  rewrite Hprev in Hprev'. injection Hprev' as <-.
  rewrite HownA in Hc1. injection Hc1 as <-.
  pose proof (aget_Some_range _ _ _ Hprev) as Hk.
  assert (prev1 = d1) as ->.
  { unfold editedChunk in Hprev1. simpl in Hprev1.
    rewrite aget_insert_eq in Hprev1 by lia. congruence. }
  rewrite editedChunk_again in Hown2 by lia.
  destruct w2 as [bb2 ch2], w2' as [bb2' ch2']. simpl in *. subst bb2 bb2'.
  f_equal. apply list_eq. intros n.
  destruct (decide (n < length (chunks w))%nat) as [Hn | Hn].
  2:{ rewrite !lookup_ge_None_2 by lia. reflexivity. }
  destruct (coordinate_of_index (bounds w) (Z.of_nat n) Hok ltac:(lia))
    as (x' & y' & z' & _ & Hin' & Hflat).
  rewrite <- (Nat2Z.id n), <- !aget_lookup, <- Hflat by lia.
  destruct (decide ((x', y', z') = (cx, cy, cz))) as [[= -> -> ->] | Hne].
  { now rewrite Hown2, Hown2'. }
  destruct (aget_in_range (chunks w) (flatIndex (bounds w) x' y' z')) as [c Hc];
    [rewrite Hflat; lia |].
  rewrite (Hoth2 _ _ _ _ Hin' Hne (HothA _ _ _ _ Hin' Hne Hc)).
  rewrite (Hoth2' _ _ _ _ Hin' Hne Hc).
  unfold set_dirtyMesh. simpl. now rewrite <- orb_assoc, orb_diag.
Qed.

Lemma setVoxel_overwrite_witness :
  exists w1,
    setVoxel (initVoxels 0 1 0 0 0 0) 15 3 4 200 1 2 3 = Some w1 /\
    setVoxel w1 15 3 4 90 7 8 9 = setVoxel (initVoxels 0 1 0 0 0 0) 15 3 4 90 7 8 9.
Proof.
  assert (Hwf : wf_world (initVoxels 0 1 0 0 0 0))
    by (apply initVoxels_wf, bounds_ok_dec_true; reflexivity).
  destruct (setVoxel_chunks (initVoxels 0 1 0 0 0 0) 15 3 4 200 1 2 3 0 0 0 15 3 4
              Hwf eq_refl eq_refl ltac:(unfold inBounds; cbn; lia))
    as (_ & _ & w1 & _ & _ & Hset & _).
  exists w1. split; [exact Hset |].
  exact (setVoxel_overwrite (initVoxels 0 1 0 0 0 0) 15 3 4 200 1 2 3 90 7 8 9 w1 Hwf Hset).
Defined.
